(** * Status bar and marker navigation widget: a shallow embedding

    The development follows two source files of the workbench:
    the status bar part (the view model of the status entries, the part that
    hosts them, its context menu) and the goto-error widget (the message
    block of a marker and the peek view that shows it).

    JavaScript values are modelled as follows.
    - [string]   a JS string;
    - [Z]        a JS number that holds an integer (priorities, line counts);
    - [nat]      a reference: a DOM element, or the identity of an object;
    - [list A]   an array; an insertion-ordered [Set] is a list without
                 duplicates (module [JsSet]);
    - [gmap]     the key/value store behind the storage service;
    - [result]   a call that may throw. *)

From stdpp Require Import base decidable option list gmap strings sorting.
From Stdlib Require Import ZArith Lia Ascii.

Open Scope Z_scope.

(** ** JavaScript built-ins *)

(** An ECMAScript [Set]: membership by value, iteration in insertion order.
    The list of members never holds an element twice. *)
Module JsSet.
Section ops.
  Context {A : Type} `{EqDecision A}.

Definition has (s : list A) (x : A) : bool := bool_decide (x ∈ s).

Definition add (s : list A) (x : A) : list A :=
  if has s x then s else s ++ [x].

Definition delete (s : list A) (x : A) : list A :=
  filter (λ y, y ≠ x) s.

Definition clear (s : list A) : list A := [].

Definition size (s : list A) : Z := Z.of_nat (length s).

(** [new Set(iterable)] adds the elements one after the other. *)
Definition of_list (l : list A) : list A := foldl add [] l.

(** [values(set)] of [vs/base/common/map]: the members, in iteration
    order, as an array. *)
Definition values (s : list A) : list A := s.
End ops.
End JsSet.

(** [Array.prototype.sort(compareFn)].  ECMAScript (since the 2019 edition)
    requires the sort to be stable: [x] goes before [y] when
    [compareFn x y < 0], after it when [compareFn x y > 0], and two elements
    that compare equal keep their order.  The model is the insertion sort that
    walks the array from the left and moves each element down past the
    elements that are greater than it. *)
Section array_sort.
  Context {A : Type} (compareFn : A → A → Z).

Fixpoint sorted_insert (x : A) (l : list A) : list A :=
  match l with
  | [] => [x]
  | y :: l' =>
      if decide (0 < compareFn y x) then x :: y :: l'
      else y :: sorted_insert x l'
  end.

Definition Array_sort (l : list A) : list A :=
  foldl (λ acc x, sorted_insert x acc) [] l.
End array_sort.

(** [Array.prototype.indexOf] (strict equality) followed by
    [splice(index, 1)]: the first occurrence is taken out. *)
Fixpoint remove_first {A : Type} `{EqDecision A} (x : A) (l : list A) : list A :=
  match l with
  | [] => []
  | y :: l' => if decide (y = x) then l' else y :: remove_first x l'
  end.

(** [JSON.parse] and [JSON.stringify] at the type the view model uses them:
    an array of strings.  [JSON_parse raw = None] stands for a call that
    throws inside the [try] block of [restoreState]. *)
Class JSON := {
  JSON_parse : string → option (list string);
  JSON_stringify : list string → string
}.

(** ** Services the view model talks to *)

Inductive StorageScope := GLOBAL | WORKSPACE.

#[global] Instance StorageScope_eq_dec : EqDecision StorageScope.
Proof. solve_decision. Defined.

Inductive storage_write :=
| StoreCall (key value : string) (scope : StorageScope)
| RemoveCall (key : string) (scope : StorageScope).

#[global] Instance storage_write_eq_dec : EqDecision storage_write.
Proof. solve_decision. Defined.

(** Modelled from the spec: the persistent key-value storage service
    ([IStorageService] of [vs/platform/storage]) is an external collaborator.
    It holds one store per scope; [writes] records the calls that modify
    it, oldest first. *)
Record IStorageService := {
  global_store : gmap string string;
  workspace_store : gmap string string;
  writes : list storage_write
}.

Definition storage_get (key : string) (scope : StorageScope)
    (s : IStorageService) : option string :=
  match scope with
  | GLOBAL => global_store s !! key
  | WORKSPACE => workspace_store s !! key
  end.

Definition storage_store (key value : string) (scope : StorageScope)
    (s : IStorageService) : IStorageService :=
  match scope with
  | GLOBAL =>
      {| global_store := <[key := value]> (global_store s);
         workspace_store := workspace_store s;
         writes := writes s ++ [StoreCall key value scope] |}
  | WORKSPACE =>
      {| global_store := global_store s;
         workspace_store := <[key := value]> (workspace_store s);
         writes := writes s ++ [StoreCall key value scope] |}
  end.

Definition storage_remove (key : string) (scope : StorageScope)
    (s : IStorageService) : IStorageService :=
  match scope with
  | GLOBAL =>
      {| global_store := delete key (global_store s);
         workspace_store := workspace_store s;
         writes := writes s ++ [RemoveCall key scope] |}
  | WORKSPACE =>
      {| global_store := global_store s;
         workspace_store := delete key (workspace_store s);
         writes := writes s ++ [RemoveCall key scope] |}
  end.

Record IWorkspaceStorageChangeEvent := {
  event_key : string;
  event_scope : StorageScope
}.

Inductive dom_call := DomHide (c : nat) | DomShow (c : nat).

#[global] Instance dom_call_eq_dec : EqDecision dom_call.
Proof. solve_decision. Defined.

Definition call_target (c : dom_call) : nat :=
  match c with DomHide n | DomShow n => n end.

(** Modelled from the spec: the helpers [hide], [show], [addClass] and
    [removeClasses] of [vs/base/browser/dom] act on the rendering toolkit,
    which is external.  Of every element the model keeps whether its display
    is switched off and whether it carries the two edge classes;
    [visibility_calls] records the [hide]/[show] calls, oldest first. *)
Record Dom := {
  display_none : gset nat;
  first_visible_item : gset nat;
  last_visible_item : gset nat;
  visibility_calls : list dom_call
}.

Definition dom_hide (c : nat) (d : Dom) : Dom :=
  {| display_none := {[c]} ∪ display_none d;
     first_visible_item := first_visible_item d;
     last_visible_item := last_visible_item d;
     visibility_calls := visibility_calls d ++ [DomHide c] |}.

Definition dom_show (c : nat) (d : Dom) : Dom :=
  {| display_none := display_none d ∖ {[c]};
     first_visible_item := first_visible_item d;
     last_visible_item := last_visible_item d;
     visibility_calls := visibility_calls d ++ [DomShow c] |}.

(** [removeClasses(c, 'first-visible-item', 'last-visible-item')] *)
Definition dom_removeClasses (c : nat) (d : Dom) : Dom :=
  {| display_none := display_none d;
     first_visible_item := first_visible_item d ∖ {[c]};
     last_visible_item := last_visible_item d ∖ {[c]};
     visibility_calls := visibility_calls d |}.

Definition dom_addClass_first (c : nat) (d : Dom) : Dom :=
  {| display_none := display_none d;
     first_visible_item := {[c]} ∪ first_visible_item d;
     last_visible_item := last_visible_item d;
     visibility_calls := visibility_calls d |}.

Definition dom_addClass_last (c : nat) (d : Dom) : Dom :=
  {| display_none := display_none d;
     first_visible_item := first_visible_item d;
     last_visible_item := {[c]} ∪ last_visible_item d;
     visibility_calls := visibility_calls d |}.

Definition displayed (d : Dom) (c : nat) : bool :=
  bool_decide (c ∉ display_none d).

(** ** The view model of the status entries *)

Inductive StatusbarAlignment := LEFT | RIGHT.

#[global] Instance StatusbarAlignment_eq_dec : EqDecision StatusbarAlignment.
Proof. solve_decision. Defined.

(** [IStatusbarViewModelEntry].  The fields are [id], [name], [alignment],
    [priority] and [container] of the source; [e_ref] is the identity of the
    object, which is what [indexOf] compares. *)
Record IStatusbarViewModelEntry := {
  e_ref : nat;
  e_id : string;
  e_name : string;
  e_alignment : StatusbarAlignment;
  e_priority : Z;
  e_container : nat
}.

#[global] Instance IStatusbarViewModelEntry_eq_dec :
  EqDecision IStatusbarViewModelEntry.
Proof. solve_decision. Defined.

(** The object: its fields, together with the services it holds. *)
Record StatusbarViewModel := {
  entries : list IStatusbarViewModelEntry;
  hidden : list string;
  storageService : IStorageService;
  dom : Dom
}.

Definition HIDDEN_ENTRIES_KEY : string := "workbench.statusbar.hidden".

Definition set_dom (d : Dom) (vm : StatusbarViewModel) : StatusbarViewModel :=
  {| entries := entries vm; hidden := hidden vm;
     storageService := storageService vm; dom := d |}.

Definition set_entries (es : list IStatusbarViewModelEntry)
    (vm : StatusbarViewModel) : StatusbarViewModel :=
  {| entries := es; hidden := hidden vm;
     storageService := storageService vm; dom := dom vm |}.

Definition set_hidden (h : list string) (vm : StatusbarViewModel)
    : StatusbarViewModel :=
  {| entries := entries vm; hidden := h;
     storageService := storageService vm; dom := dom vm |}.

Definition set_storageService (s : IStorageService) (vm : StatusbarViewModel)
    : StatusbarViewModel :=
  {| entries := entries vm; hidden := hidden vm;
     storageService := s; dom := dom vm |}.

(** The comparator handed to [sort]. *)
Definition compareEntries (entryA entryB : IStatusbarViewModelEntry) : Z :=
  if decide (e_alignment entryA = e_alignment entryB) then
    e_priority entryB - e_priority entryA
  else if decide (e_alignment entryA = LEFT) then -1
  else if decide (e_alignment entryB = LEFT) then 1
  else 0.

Section view_model.
  Context `{JSON}.

(** [cur] is the value of [this.hidden] when the method is entered:
    [None] in the constructor, where the field is still undefined. *)
Definition restoreState (storage : IStorageService)
    (cur : option (list string)) : list string :=
  let loaded :=
    match storage_get HIDDEN_ENTRIES_KEY GLOBAL storage with
    | Some hiddenRaw =>
        if decide (hiddenRaw = EmptyString) then cur
        else match JSON_parse hiddenRaw with
             | Some hiddenArray => Some (JsSet.of_list hiddenArray)
             | None => cur
             end
    | None => cur
    end in
  match loaded with
  | Some h => h
  | None => []
  end.

Definition new_StatusbarViewModel (storage : IStorageService) (d : Dom)
    : StatusbarViewModel :=
  {| entries := []; hidden := restoreState storage None;
     storageService := storage; dom := d |}.

Definition isHidden (i : string) (vm : StatusbarViewModel) : bool :=
  JsSet.has (hidden vm) i.

Definition getEntries (a : StatusbarAlignment) (vm : StatusbarViewModel)
    : list IStatusbarViewModelEntry :=
  filter (λ entry, e_alignment entry = a) (entries vm).

Definition findEntry (c : nat) (vm : StatusbarViewModel)
    : option IStatusbarViewModelEntry :=
  snd <$> list_find (λ entry, e_container entry = c) (entries vm).

(** The loop keeps the first and the last visible entry it has seen. *)
Definition doMarkFirstLastVisibleStatusbarItem
    (es : list IStatusbarViewModelEntry) (vm : StatusbarViewModel)
    : StatusbarViewModel :=
  let '(d, firstVisibleItem, lastVisibleItem) :=
    foldl (λ '(d, first, last) entry,
             let d := dom_removeClasses (e_container entry) d in
             if negb (isHidden (e_id entry) vm) then
               (d, (if first is Some _ then first else Some entry), Some entry)
             else (d, first, last))
          (dom vm, None, None) es in
  let d := if firstVisibleItem is Some e
           then dom_addClass_first (e_container e) d else d in
  let d := if lastVisibleItem is Some e
           then dom_addClass_last (e_container e) d else d in
  set_dom d vm.

Definition markFirstLastVisibleEntry (vm : StatusbarViewModel)
    : StatusbarViewModel :=
  let vm := doMarkFirstLastVisibleStatusbarItem (getEntries LEFT vm) vm in
  doMarkFirstLastVisibleStatusbarItem (getEntries RIGHT vm) vm.

(** [updateVisibility(entry)] *)
Definition updateVisibility_entry (entry : IStatusbarViewModelEntry)
    (vm : StatusbarViewModel) : StatusbarViewModel :=
  let vm :=
    if isHidden (e_id entry) vm
    then set_dom (dom_hide (e_container entry) (dom vm)) vm
    else set_dom (dom_show (e_container entry) (dom vm)) vm in
  markFirstLastVisibleEntry vm.

(** [updateVisibility(id)] *)
Definition updateVisibility_id (i : string) (vm : StatusbarViewModel)
    : StatusbarViewModel :=
  foldl (λ vm entry,
           if decide (e_id entry ≠ i) then vm
           else updateVisibility_entry entry vm)
        vm (entries vm).

Definition saveState (vm : StatusbarViewModel) : StatusbarViewModel :=
  if decide (JsSet.size (hidden vm) > 0) then
    set_storageService
      (storage_store HIDDEN_ENTRIES_KEY
         (JSON_stringify (JsSet.values (hidden vm))) GLOBAL
         (storageService vm)) vm
  else
    set_storageService
      (storage_remove HIDDEN_ENTRIES_KEY GLOBAL (storageService vm)) vm.

Definition sort (vm : StatusbarViewModel) : StatusbarViewModel :=
  set_entries (Array_sort compareEntries (entries vm)) vm.

Definition remove (entry : IStatusbarViewModelEntry)
    (vm : StatusbarViewModel) : StatusbarViewModel :=
  if decide (entry ∈ entries vm) then
    markFirstLastVisibleEntry
      (set_entries (remove_first entry (entries vm)) vm)
  else vm.

(** [add] returns the handle that removes the entry again; disposing of
    the handle is [remove entry]. *)
Definition add (entry : IStatusbarViewModelEntry) (vm : StatusbarViewModel)
    : StatusbarViewModel :=
  let vm := set_entries (entries vm ++ [entry]) vm in
  let vm := updateVisibility_entry entry vm in
  let vm := sort vm in
  markFirstLastVisibleEntry vm.

Definition hide (i : string) (vm : StatusbarViewModel) : StatusbarViewModel :=
  if negb (JsSet.has (hidden vm) i) then
    let vm := set_hidden (JsSet.add (hidden vm) i) vm in
    let vm := updateVisibility_id i vm in
    saveState vm
  else vm.

Definition show (i : string) (vm : StatusbarViewModel) : StatusbarViewModel :=
  if JsSet.has (hidden vm) i then
    let vm := set_hidden (JsSet.delete (hidden vm) i) vm in
    let vm := updateVisibility_id i vm in
    saveState vm
  else vm.

Definition onDidStorageChange (event : IWorkspaceStorageChangeEvent)
    (vm : StatusbarViewModel) : StatusbarViewModel :=
  if decide (event_key event = HIDDEN_ENTRIES_KEY ∧ event_scope event = GLOBAL)
  then
    let currentlyHidden := JsSet.of_list (hidden vm) in
    let vm := set_hidden (JsSet.clear (hidden vm)) vm in
    let vm := set_hidden (restoreState (storageService vm) (Some (hidden vm))) vm in
    let changed :=
      foldl (λ changed i,
               if negb (JsSet.has (hidden vm) i) then JsSet.add changed i
               else changed) [] currentlyHidden in
    let changed :=
      foldl (λ changed i,
               if negb (JsSet.has currentlyHidden i) then JsSet.add changed i
               else changed) changed (hidden vm) in
    if decide (JsSet.size changed > 0) then
      fst (foldl (λ '(vm, changed) entry,
                    if JsSet.has changed (e_id entry) then
                      (updateVisibility_id (e_id entry) vm,
                       JsSet.delete changed (e_id entry))
                    else (vm, changed))
                 (vm, changed) (entries vm))
    else vm
  else vm.
End view_model.

(** *** Runs of the view model

    What the callers of the view model can do to it.  [OpDispose entry]
    disposes of the handle that [add entry] returned.  A storage change is an
    effect of the environment: the service holds [storage'] when the
    notification [event] arrives. *)
Inductive vm_op :=
| OpAdd (entry : IStatusbarViewModelEntry)
| OpDispose (entry : IStatusbarViewModelEntry)
| OpHide (i : string)
| OpShow (i : string)
| OpStorageChange (storage' : IStorageService) (event : IWorkspaceStorageChangeEvent).

Definition vm_step `{JSON} (vm : StatusbarViewModel) (op : vm_op)
    : StatusbarViewModel :=
  match op with
  | OpAdd entry => add entry vm
  | OpDispose entry => remove entry vm
  | OpHide i => hide i vm
  | OpShow i => show i vm
  | OpStorageChange storage' event =>
      onDidStorageChange event (set_storageService storage' vm)
  end.

Definition vm_run `{JSON} (ops : list vm_op) (vm : StatusbarViewModel)
    : StatusbarViewModel :=
  foldl vm_step vm ops.

(** The entries that are registered after [ops], in the order in which they
    were added. *)
Definition insertion_order (ops : list vm_op) : list IStatusbarViewModelEntry :=
  foldl (λ order op,
           match op with
           | OpAdd entry => order ++ [entry]
           | OpDispose entry => remove_first entry order
           | _ => order
           end) [] ops.

(** ** The context menu of the status bar *)

Inductive IAction :=
| HideStatusbarEntryAction (i : string)
| Separator
| ToggleStatusbarEntryVisibilityAction (i label : string) (checked : bool)
| ToggleStatusbarVisibilityAction (label : string).

#[global] Instance IAction_eq_dec : EqDecision IAction.
Proof. solve_decision. Defined.

(** The mouse event is given by the chain of elements from its target up to
    the root, which is what the loop over [parentElement] walks. *)
Fixpoint entryUnderMouse (target_chain : list nat) (vm : StatusbarViewModel)
    : option IStatusbarViewModelEntry :=
  match target_chain with
  | [] => None
  | element :: parents =>
      match findEntry element vm with
      | Some entry => Some entry
      | None => entryUnderMouse parents vm
      end
  end.

Definition getContextMenuActions `{JSON} (target_chain : list nat)
    (vm : StatusbarViewModel) : list IAction :=
  let actions :=
    match entryUnderMouse target_chain vm with
    | Some statusEntryUnderMouse =>
        [HideStatusbarEntryAction (e_id statusEntryUnderMouse); Separator]
    | None => []
    end in
  let '(actions, handledEntries) :=
    foldl (λ '(actions, handledEntries) entry,
             if negb (JsSet.has handledEntries (e_id entry)) then
               (actions ++ [ToggleStatusbarEntryVisibilityAction
                              (e_id entry) (e_name entry)
                              (negb (isHidden (e_id entry) vm))],
                handledEntries)
             else (actions, handledEntries))
          (actions, @nil string) (entries vm) in
  actions ++ [Separator; ToggleStatusbarVisibilityAction "Hide Status Bar"].

(** The identifiers of the toggle-visibility actions of a menu, in order. *)
Definition toggle_ids (actions : list IAction) : list string :=
  omap (λ a, match a with
             | ToggleStatusbarEntryVisibilityAction i _ _ => Some i
             | _ => None
             end) actions.

(** ** The status bar part *)

(** Modelled from the spec: [IStatusbarEntry] is declared in
    [vs/platform/statusbar/common/statusbar]; the record has the fields that
    the part and its items read. *)
Record IStatusbarEntry := {
  text : string;
  tooltip : option string;
  color : option string;
  backgroundColor : option string;
  command : option string;
  showBeak : bool
}.

(** The two accessors that [addEntry] hands out are closures.  The one of
    [doAddPendingEntry] captures the pending entry, an object that is
    updated later; the one of [doAddEntry] captures the entry of the view
    model (and with it the container and the item). *)
Inductive IStatusbarEntryAccessor :=
| PendingAccessor (pendingEntry : nat)
| EntryAccessor (viewModelEntry : IStatusbarViewModelEntry).

Record IPendingStatusbarEntry := {
  p_id : string;
  p_name : string;
  p_entry : IStatusbarEntry;
  p_alignment : StatusbarAlignment;
  p_priority : Z;
  p_accessor : option IStatusbarEntryAccessor
}.

(** An item that the registry contributes. *)
Record IStatusbarItemDescriptor := {
  r_id : string;
  r_name : string;
  r_alignment : StatusbarAlignment;
  r_priority : Z
}.

(** The part.  [element] is the container once it exists; [pendingEntries]
    holds references into [objects], the pending entries on the heap;
    [children] are the child elements of the container in document order;
    [items] maps the container of an item to the entry it renders;
    [next_ref] is the next fresh reference. *)
Record StatusbarPart := {
  element : option nat;
  pendingEntries : list nat;
  objects : gmap nat IPendingStatusbarEntry;
  viewModel : StatusbarViewModel;
  children : list nat;
  items : gmap nat IStatusbarEntry;
  has_beak : gset nat;
  next_ref : nat
}.

Definition set_element (el : option nat) (p : StatusbarPart) : StatusbarPart :=
  {| element := el; pendingEntries := pendingEntries p; objects := objects p;
     viewModel := viewModel p; children := children p; items := items p;
     has_beak := has_beak p; next_ref := next_ref p |}.

Definition set_pendingEntries (q : list nat) (p : StatusbarPart) : StatusbarPart :=
  {| element := element p; pendingEntries := q; objects := objects p;
     viewModel := viewModel p; children := children p; items := items p;
     has_beak := has_beak p; next_ref := next_ref p |}.

Definition set_objects (o : gmap nat IPendingStatusbarEntry) (p : StatusbarPart)
    : StatusbarPart :=
  {| element := element p; pendingEntries := pendingEntries p; objects := o;
     viewModel := viewModel p; children := children p; items := items p;
     has_beak := has_beak p; next_ref := next_ref p |}.

Definition set_viewModel (vm : StatusbarViewModel) (p : StatusbarPart)
    : StatusbarPart :=
  {| element := element p; pendingEntries := pendingEntries p;
     objects := objects p; viewModel := vm; children := children p;
     items := items p; has_beak := has_beak p; next_ref := next_ref p |}.

Definition set_children (c : list nat) (p : StatusbarPart) : StatusbarPart :=
  {| element := element p; pendingEntries := pendingEntries p;
     objects := objects p; viewModel := viewModel p; children := c;
     items := items p; has_beak := has_beak p; next_ref := next_ref p |}.

Definition set_items (i : gmap nat IStatusbarEntry) (p : StatusbarPart)
    : StatusbarPart :=
  {| element := element p; pendingEntries := pendingEntries p;
     objects := objects p; viewModel := viewModel p; children := children p;
     items := i; has_beak := has_beak p; next_ref := next_ref p |}.

Definition set_has_beak (b : gset nat) (p : StatusbarPart) : StatusbarPart :=
  {| element := element p; pendingEntries := pendingEntries p;
     objects := objects p; viewModel := viewModel p; children := children p;
     items := items p; has_beak := b; next_ref := next_ref p |}.

(** A fresh reference: [document.createElement], an object literal. *)
Definition fresh (p : StatusbarPart) : nat * StatusbarPart :=
  (next_ref p,
   {| element := element p; pendingEntries := pendingEntries p;
      objects := objects p; viewModel := viewModel p; children := children p;
      items := items p; has_beak := has_beak p; next_ref := S (next_ref p) |}).

Definition new_StatusbarPart `{JSON} (storage : IStorageService) (d : Dom)
    : StatusbarPart :=
  {| element := None; pendingEntries := []; objects := ∅;
     viewModel := new_StatusbarViewModel storage d; children := [];
     items := ∅; has_beak := ∅; next_ref := 0%nat |}.

(** [parent.insertBefore(node, reference)] on the list of children.  Every
    container of the view model is a child of the part, so the reference is
    found; the DOM would throw otherwise, the model appends. *)
Fixpoint insertBefore (node reference : nat) (cs : list nat) : list nat :=
  match cs with
  | [] => [node]
  | c :: cs' =>
      if decide (c = reference) then node :: c :: cs'
      else c :: insertBefore node reference cs'
  end.

Definition doAddPendingEntry (entry : IStatusbarEntry) (i name : string)
    (alignment : StatusbarAlignment) (priority : Z) (p : StatusbarPart)
    : IStatusbarEntryAccessor * StatusbarPart :=
  let '(pendingEntry, p) := fresh p in
  let p := set_objects
             (<[pendingEntry :=
                 {| p_id := i; p_name := name; p_entry := entry;
                    p_alignment := alignment; p_priority := priority;
                    p_accessor := None |}]> (objects p)) p in
  let p := set_pendingEntries (pendingEntries p ++ [pendingEntry]) p in
  (PendingAccessor pendingEntry, p).

(** The new element, with the class [has-beak] when it is among the extra
    classes. *)
Definition doCreateStatusItem (beak : bool) (p : StatusbarPart)
    : nat * StatusbarPart :=
  let '(itemContainer, p) := fresh p in
  (itemContainer,
   if beak then set_has_beak ({[itemContainer]} ∪ has_beak p) p else p).

Definition appendOneStatusbarEntry (itemContainer : nat)
    (alignment : StatusbarAlignment) (priority : Z) (p : StatusbarPart)
    : StatusbarPart :=
  let es := getEntries alignment (viewModel p) in
  let es := if decide (alignment = RIGHT) then reverse es else es in
  match
    list_find (λ entry,
                 (alignment = LEFT ∧ e_priority entry < priority) ∨
                 (alignment = RIGHT ∧ e_priority entry > priority)) es
  with
  | Some (_, entry) =>
      set_children (insertBefore itemContainer (e_container entry) (children p)) p
  | None => set_children (children p ++ [itemContainer]) p
  end.

Definition doAddEntry (entry : IStatusbarEntry) (i name : string)
    (alignment : StatusbarAlignment) (priority : Z) (p : StatusbarPart)
    : IStatusbarEntryAccessor * StatusbarPart :=
  let '(itemContainer, p) := doCreateStatusItem (showBeak entry) p in
  let p := set_items (<[itemContainer := entry]> (items p)) p in
  let p := appendOneStatusbarEntry itemContainer alignment priority p in
  let viewModelEntry :=
    {| e_ref := itemContainer; e_id := i; e_name := name;
       e_alignment := alignment; e_priority := priority;
       e_container := itemContainer |} in
  let p := set_viewModel (add viewModelEntry (viewModel p)) p in
  (EntryAccessor viewModelEntry, p).

Definition addEntry (entry : IStatusbarEntry) (i name : string)
    (alignment : StatusbarAlignment) (priority : Z) (p : StatusbarPart)
    : IStatusbarEntryAccessor * StatusbarPart :=
  if decide (element p = None) then doAddPendingEntry entry i name alignment priority p
  else doAddEntry entry i name alignment priority p.

(** The accessor of [doAddEntry]. *)
Definition entry_update (viewModelEntry : IStatusbarViewModelEntry)
    (entry : IStatusbarEntry) (p : StatusbarPart) : StatusbarPart :=
  let itemContainer := e_container viewModelEntry in
  let p := if showBeak entry
           then set_has_beak ({[itemContainer]} ∪ has_beak p) p
           else set_has_beak (has_beak p ∖ {[itemContainer]}) p in
  set_items (<[itemContainer := entry]> (items p)) p.

Definition entry_dispose (viewModelEntry : IStatusbarViewModelEntry)
    (p : StatusbarPart) : StatusbarPart :=
  let itemContainer := e_container viewModelEntry in
  let p := set_viewModel (remove viewModelEntry (viewModel p)) p in
  let p := set_children (filter (λ c, c ≠ itemContainer) (children p)) p in
  set_items (delete itemContainer (items p)) p.

(** The accessor of [doAddPendingEntry] forwards to the accessor of the
    pending entry once there is one.  That accessor is the result of
    [addEntry] at a time when the container exists, hence an accessor of
    [doAddEntry] (lemma [accessor_of_pending_is_entry]); the model forwards
    to no other. *)
Definition accessor_update (a : IStatusbarEntryAccessor) (entry : IStatusbarEntry)
    (p : StatusbarPart) : StatusbarPart :=
  match a with
  | EntryAccessor viewModelEntry => entry_update viewModelEntry entry p
  | PendingAccessor pendingEntry =>
      match objects p !! pendingEntry with
      | Some pending =>
          match p_accessor pending with
          | Some (EntryAccessor viewModelEntry) =>
              entry_update viewModelEntry entry p
          | Some (PendingAccessor _) => p
          | None =>
              set_objects
                (<[pendingEntry :=
                    {| p_id := p_id pending; p_name := p_name pending;
                       p_entry := entry; p_alignment := p_alignment pending;
                       p_priority := p_priority pending;
                       p_accessor := None |}]> (objects p)) p
          end
      | None => p
      end
  end.

Definition accessor_dispose (a : IStatusbarEntryAccessor) (p : StatusbarPart)
    : StatusbarPart :=
  match a with
  | EntryAccessor viewModelEntry => entry_dispose viewModelEntry p
  | PendingAccessor pendingEntry =>
      match objects p !! pendingEntry with
      | Some pending =>
          match p_accessor pending with
          | Some (EntryAccessor viewModelEntry) => entry_dispose viewModelEntry p
          | Some (PendingAccessor _) => p
          | None =>
              set_pendingEntries
                (filter (λ entry, entry ≠ pendingEntry) (pendingEntries p)) p
          end
      | None => p
      end
  end.

Definition updateEntryVisibility `{JSON} (i : string) (visible : bool)
    (p : StatusbarPart) : StatusbarPart :=
  if visible then set_viewModel (show i (viewModel p)) p
  else set_viewModel (hide i (viewModel p)) p.

Definition appendAllStatusbarEntries (p : StatusbarPart) : StatusbarPart :=
  foldl (λ p entry,
           set_children
             (filter (λ c, c ≠ e_container entry) (children p)
                ++ [e_container entry]) p)
        p (getEntries LEFT (viewModel p)
             ++ reverse (getEntries RIGHT (viewModel p))).

(** The [while] loop that empties the queue of pending entries.  Each round
    takes the head of the queue as it is then; [fuel] bounds the number of
    rounds. *)
Fixpoint fillPendingEntries (fuel : nat) (p : StatusbarPart) : StatusbarPart :=
  match fuel with
  | O => p
  | S fuel' =>
      match pendingEntries p with
      | [] => p
      | pendingEntry :: rest =>
          let p := set_pendingEntries rest p in
          match objects p !! pendingEntry with
          | Some pending =>
              let '(accessor, p) :=
                addEntry (p_entry pending) (p_id pending) (p_name pending)
                         (p_alignment pending) (p_priority pending) p in
              let p :=
                set_objects
                  (<[pendingEntry :=
                      {| p_id := p_id pending; p_name := p_name pending;
                         p_entry := p_entry pending;
                         p_alignment := p_alignment pending;
                         p_priority := p_priority pending;
                         p_accessor := Some accessor |}]> (objects p)) p in
              fillPendingEntries fuel' p
          | None => fillPendingEntries fuel' p
          end
      end
  end.

(** One round of the loop over the items of the registry. *)
Definition createRegistryItem (p : StatusbarPart)
    (item : IStatusbarItemDescriptor) : StatusbarPart :=
  let '(itemContainer, p) := doCreateStatusItem false p in
  let viewModelEntry :=
    {| e_ref := itemContainer; e_id := r_id item; e_name := r_name item;
       e_alignment := r_alignment item; e_priority := r_priority item;
       e_container := itemContainer |} in
  set_viewModel (add viewModelEntry (viewModel p)) p.

Definition createInitialStatusbarEntries
    (registry_items : list IStatusbarItemDescriptor) (p : StatusbarPart)
    : StatusbarPart :=
  let p := foldl createRegistryItem p registry_items in
  let p := appendAllStatusbarEntries p in
  fillPendingEntries (length (pendingEntries p)) p.

Definition createContentArea (parent : nat)
    (registry_items : list IStatusbarItemDescriptor) (p : StatusbarPart)
    : StatusbarPart :=
  let p := set_element (Some parent) p in
  createInitialStatusbarEntries registry_items p.

(** *** Runs of the part *)
Inductive part_op :=
| PAddEntry (entry : IStatusbarEntry) (i name : string)
            (alignment : StatusbarAlignment) (priority : Z)
| PUpdate (a : IStatusbarEntryAccessor) (entry : IStatusbarEntry)
| PDispose (a : IStatusbarEntryAccessor)
| PUpdateEntryVisibility (i : string) (visible : bool)
| PCreateContentArea (parent : nat) (registry_items : list IStatusbarItemDescriptor).

Definition part_step `{JSON} (p : StatusbarPart) (op : part_op) : StatusbarPart :=
  match op with
  | PAddEntry entry i name alignment priority =>
      snd (addEntry entry i name alignment priority p)
  | PUpdate a entry => accessor_update a entry p
  | PDispose a => accessor_dispose a p
  | PUpdateEntryVisibility i visible => updateEntryVisibility i visible p
  | PCreateContentArea parent registry_items =>
      createContentArea parent registry_items p
  end.

Definition part_run `{JSON} (ops : list part_op) (p : StatusbarPart)
    : StatusbarPart :=
  foldl part_step p ops.

(** A pending entry is realized when the part has added it to the view: the
    only place that does so is the loop of [createInitialStatusbarEntries],
    which then stores the accessor in the pending entry. *)
Definition realized (pendingEntry : nat) (p : StatusbarPart) : Prop :=
  ∃ pending, objects p !! pendingEntry = Some pending ∧ is_Some (p_accessor pending).

(** ** The marker navigation widget *)

(** A call that may throw. *)
Inductive result (A : Type) :=
| Ok (a : A)
| Throw (message : string).
Arguments Ok {A} a.
Arguments Throw {A} message.

Inductive MarkerSeverity :=
| SeverityHint | SeverityInfo | SeverityWarning | SeverityError.

Record IRelatedInformation := {
  rel_resource : string;
  rel_message : string;
  rel_startLineNumber : Z;
  rel_startColumn : Z
}.

(** [IMarker]: the fields that the widget reads.  [relatedInformation] is
    optional in the interface. *)
Record IMarker := {
  severity : MarkerSeverity;
  message : string;
  source : option string;
  code : option string;
  relatedInformation : option (list IRelatedInformation);
  startLineNumber : Z;
  startColumn : Z;
  endLineNumber : Z;
  endColumn : Z
}.

Record Position := { lineNumber : Z; column : Z }.

Definition CR : ascii := "013"%char.
Definition LF : ascii := "010"%char.

(** [message.split(/\r\n|\r|\n/g)]: the text is cut at every line terminator,
    a carriage return followed by a line feed being one terminator. *)
Fixpoint split_lines (s : string) : list string :=
  match s with
  | EmptyString => [EmptyString]
  | String c s' =>
      if decide (c = CR) then
        match s' with
        | String c' s'' =>
            if decide (c' = LF) then EmptyString :: split_lines s''
            else EmptyString :: split_lines s'
        | EmptyString => EmptyString :: split_lines s'
        end
      else if decide (c = LF) then EmptyString :: split_lines s'
      else
        match split_lines s' with
        | line :: lines => String c line :: lines
        | [] => [String c EmptyString]
        end
  end.

(** The number of line terminators of a text. *)
Fixpoint count_terminators (s : string) : nat :=
  match s with
  | EmptyString => 0%nat
  | String c s' =>
      if decide (c = CR) then
        match s' with
        | String c' s'' =>
            if decide (c' = LF) then S (count_terminators s'')
            else S (count_terminators s')
        | EmptyString => S (count_terminators s')
        end
      else if decide (c = LF) then S (count_terminators s')
      else count_terminators s'
  end.

(** [isNonEmptyArray] of [vs/base/common/arrays] *)
Definition isNonEmptyArray {A : Type} (obj : option (list A)) : bool :=
  match obj with
  | Some (_ :: _) => true
  | _ => false
  end.

(** The message block: the two numbers that [update] caches.  The nodes it
    builds and the scroll dimensions, which are in pixels, are left out. *)
Record MessageWidget := {
  _lines : Z;
  _longestLineLength : Z
}.

Definition new_MessageWidget : MessageWidget :=
  {| _lines := 0; _longestLineLength := 0 |}.

Definition MessageWidget_update (marker : IMarker) (w : MessageWidget)
    : MessageWidget :=
  let lines := split_lines (message marker) in
  let lines_count := Z.of_nat (length lines) in
  let longest :=
    foldl (λ longest line, Z.max (Z.of_nat (String.length line)) longest) 0 lines in
  let lines_count :=
    if isNonEmptyArray (relatedInformation marker) then
      foldl (λ n _, n + 1) (lines_count + 1)
            (default [] (relatedInformation marker))
    else lines_count in
  {| _lines := lines_count; _longestLineLength := longest |}.

Definition getHeightInLines (w : MessageWidget) : Z := Z.min 17 (_lines w).

(** The state of the editor that [showAtMarker] reads. *)
Record ICodeEditor := {
  editor_position : option Position;
  editor_model : option string;
  accessibilitySupport_enabled : bool
}.

Inductive title_detail :=
| Problems (markerIdx markerCount : Z)
| Problem (markerIdx markerCount : Z).

(** The widget.  [shown] is where the zone of the peek view stands, if it is
    shown, with its height in lines; [revealed] is the position the editor
    was last asked to reveal. *)
Record MarkerNavigationWidget := {
  _message : MessageWidget;
  _severity : MarkerSeverity;
  stale : bool;
  shown : option (Position * Z);
  title : option (string * title_detail);
  revealed : option Position;
  focused : bool
}.

Definition new_MarkerNavigationWidget : MarkerNavigationWidget :=
  {| _message := new_MessageWidget; _severity := SeverityWarning;
     stale := false; shown := None; title := None; revealed := None;
     focused := false |}.

Definition computeRequiredHeight (w : MarkerNavigationWidget) : Z :=
  3 + getHeightInLines (_message w).

(** Modelled from the spec: [Range.containsPosition] of
    [vs/editor/common/core/range]: the position lies inside the range of
    the marker. *)
Definition containsPosition (marker : IMarker) (pos : Position) : bool :=
  if decide (lineNumber pos < startLineNumber marker
             ∨ lineNumber pos > endLineNumber marker) then false
  else if decide (lineNumber pos = startLineNumber marker
                  ∧ column pos < startColumn marker) then false
  else if decide (lineNumber pos = endLineNumber marker
                  ∧ column pos > endColumn marker) then false
  else true.

(** Modelled from the spec: [show] of the peek view ([PeekViewWidget], in
    [vs/editor/contrib/referenceSearch]) puts the zone at a position with a
    height in lines. *)
Definition super_show (where_ : Position) (heightInLines : Z)
    (w : MarkerNavigationWidget) : MarkerNavigationWidget :=
  {| _message := _message w; _severity := _severity w; stale := stale w;
     shown := Some (where_, heightInLines); title := title w;
     revealed := revealed w; focused := focused w |}.

(** Modelled from the spec: [_relayout] of the peek view gives a zone that
    is shown its new height. *)
Definition super_relayout (heightInLines : Z) (w : MarkerNavigationWidget)
    : MarkerNavigationWidget :=
  {| _message := _message w; _severity := _severity w; stale := stale w;
     shown := (λ '(where_, _), (where_, heightInLines)) <$> shown w;
     title := title w; revealed := revealed w; focused := focused w |}.

(** [show(where, heightInLines)] of the marker widget *)
Definition MarkerNavigationWidget_show (where_ : Position) (heightInLines : Z)
    (w : MarkerNavigationWidget) : result MarkerNavigationWidget :=
  Throw "call showAtMarker".

Definition showAtMarker (marker : IMarker) (markerIdx markerCount : Z)
    (editor : ICodeEditor) (w : MarkerNavigationWidget)
    : result MarkerNavigationWidget :=
  let w :=
    {| _message := MessageWidget_update marker (_message w);
       _severity := severity marker; stale := false; shown := shown w;
       title := title w; revealed := revealed w; focused := focused w |} in
  let position :=
    match editor_position editor with
    | Some editorPosition =>
        if containsPosition marker editorPosition then editorPosition
        else {| lineNumber := startLineNumber marker;
                column := startColumn marker |}
    | None => {| lineNumber := startLineNumber marker;
                 column := startColumn marker |}
    end in
  let w := super_show position (computeRequiredHeight w) w in
  let detail :=
    if decide (markerCount > 1) then Problems markerIdx markerCount
    else Problem markerIdx markerCount in
  let new_title :=
    match editor_model editor with
    | Some uri => Some (uri, detail)
    | None => title w
    end in
  Ok {| _message := _message w; _severity := _severity w; stale := stale w;
        shown := shown w; title := new_title; revealed := Some position;
        focused := if accessibilitySupport_enabled editor then true
                   else focused w |}.

Definition updateMarker (marker : IMarker) (w : MarkerNavigationWidget)
    : MarkerNavigationWidget :=
  {| _message := MessageWidget_update marker (_message w);
     _severity := _severity w; stale := false; shown := shown w;
     title := title w; revealed := revealed w; focused := focused w |}.

Definition showStale (w : MarkerNavigationWidget) : MarkerNavigationWidget :=
  let w :=
    {| _message := _message w; _severity := _severity w; stale := true;
       shown := shown w; title := title w; revealed := revealed w;
       focused := focused w |} in
  super_relayout (computeRequiredHeight w) w.

(** The number of message lines as the specification counts them: the lines
    of the message, one separator line if there is related information, and
    one line for each piece of related information. *)
Definition numberOfMessageLines (marker : IMarker) : Z :=
  Z.of_nat (S (count_terminators (message marker)))
  + match relatedInformation marker with
    | Some (r :: rs) => 1 + Z.of_nat (length (r :: rs))
    | _ => 0
    end.

(** ** A JSON codec for arrays of strings

    An instance of [JSON] to run the model with.  The characters of a string
    are bytes.  [stringify_array] writes what [JSON.stringify] writes for an
    array of strings; [parse_array] reads the JSON texts that are arrays of
    strings and rejects every other text. *)
Module Codec.

Definition dq : ascii := "034"%char.
Definition backslash : ascii := "092"%char.

Definition hex_digit (n : nat) : ascii :=
  nth n (String.list_ascii_of_string "0123456789abcdef") "0"%char.

(** [QuoteJSONString], one character at a time. *)
Definition quote_char (c : ascii) : string :=
  let n := nat_of_ascii c in
  if decide (c = dq) then String backslash (String dq EmptyString)
  else if decide (c = backslash) then String backslash (String backslash EmptyString)
  else if decide (n = 8%nat) then String backslash "b"
  else if decide (n = 9%nat) then String backslash "t"
  else if decide (n = 10%nat) then String backslash "n"
  else if decide (n = 12%nat) then String backslash "f"
  else if decide (n = 13%nat) then String backslash "r"
  else if decide (n < 32)%nat then
    String backslash
      (String "u" (String "0" (String "0"
         (String (hex_digit (n / 16)) (String (hex_digit (n mod 16)) EmptyString)))))
  else String c EmptyString.

Fixpoint quote_chars (s : string) : string :=
  match s with
  | EmptyString => EmptyString
  | String c s' => quote_char c +:+ quote_chars s'
  end.

Definition quote (s : string) : string :=
  String dq (quote_chars s +:+ String dq EmptyString).

Fixpoint join (l : list string) : string :=
  match l with
  | [] => EmptyString
  | [s] => s
  | s :: l' => s +:+ "," +:+ join l'
  end.

Definition stringify_array (l : list string) : string :=
  "[" +:+ join (quote <$> l) +:+ "]".

Definition is_ws (c : ascii) : bool :=
  let n := nat_of_ascii c in
  bool_decide (n = 32 ∨ n = 9 ∨ n = 10 ∨ n = 13)%nat.

Fixpoint skip_ws (s : string) : string :=
  match s with
  | String c s' => if is_ws c then skip_ws s' else s
  | EmptyString => EmptyString
  end.

Definition hex_value (c : ascii) : option nat :=
  let n := nat_of_ascii c in
  if decide (48 ≤ n ≤ 57)%nat then Some (n - 48)%nat
  else if decide (97 ≤ n ≤ 102)%nat then Some (n - 87)%nat
  else if decide (65 ≤ n ≤ 70)%nat then Some (n - 55)%nat
  else None.

Definition unescape (c : ascii) : option ascii :=
  if decide (c = dq) then Some dq
  else if decide (c = backslash) then Some backslash
  else if decide (c = "/"%char) then Some "/"%char
  else if decide (c = "b"%char) then Some (ascii_of_nat 8)
  else if decide (c = "t"%char) then Some (ascii_of_nat 9)
  else if decide (c = "n"%char) then Some (ascii_of_nat 10)
  else if decide (c = "f"%char) then Some (ascii_of_nat 12)
  else if decide (c = "r"%char) then Some (ascii_of_nat 13)
  else None.

Definition prepend (c : ascii) (r : string * string) : string * string :=
  (String c (fst r), snd r).

(** The characters of a string up to its closing quote, and what follows. *)
Fixpoint parse_chars (s : string) : option (string * string) :=
  match s with
  | EmptyString => None
  | String c s' =>
      if decide (c = dq) then Some (EmptyString, s')
      else if decide (c = backslash) then
        match s' with
        | EmptyString => None
        | String e s'' =>
            match unescape e with
            | Some c' => prepend c' <$> parse_chars s''
            | None =>
                if decide (e = "u"%char) then
                  match s'' with
                  | String h1 (String h2 (String h3 (String h4 s5))) =>
                      match hex_value h1, hex_value h2, hex_value h3, hex_value h4 with
                      | Some 0%nat, Some 0%nat, Some n3, Some n4 =>
                          prepend (ascii_of_nat (16 * n3 + n4)) <$> parse_chars s5
                      | _, _, _, _ => None
                      end
                  | _ => None
                  end
                else None
            end
        end
      else if decide (nat_of_ascii c < 32)%nat then None
      else prepend c <$> parse_chars s'
  end.

(** The elements that follow an opening bracket or a comma. *)
Fixpoint parse_elements (fuel : nat) (s : string) : option (list string) :=
  match fuel with
  | O => None
  | S fuel' =>
      match skip_ws s with
      | String c s' =>
          if decide (c = dq) then
            match parse_chars s' with
            | Some (str, rest) =>
                match skip_ws rest with
                | String d rest' =>
                    if decide (d = ","%char) then
                      (str ::.) <$> parse_elements fuel' rest'
                    else if decide (d = "]"%char) then
                      if decide (skip_ws rest' = EmptyString) then Some [str]
                      else None
                    else None
                | EmptyString => None
                end
            | None => None
            end
          else None
      | EmptyString => None
      end
  end.

Definition parse_array (raw : string) : option (list string) :=
  match skip_ws raw with
  | String c s =>
      if decide (c = "["%char) then
        match skip_ws s with
        | String d rest =>
            if decide (d = "]"%char) then
              if decide (skip_ws rest = EmptyString) then Some [] else None
            else parse_elements (String.length raw) s
        | EmptyString => None
        end
      else None
  | EmptyString => None
  end.

#[global] Instance json : JSON :=
  {| JSON_parse := parse_array; JSON_stringify := stringify_array |}.

End Codec.

(** ** The vocabulary of the properties *)

(** The invariant that links the array of entries to the order in which the
    entries were added: the same entries, sorted by the comparator, and the
    entries of one alignment and one priority in the order of their
    insertion. *)
Definition ordered (es order : list IStatusbarViewModelEntry) : Prop :=
  es ≡ₚ order
  ∧ StronglySorted (λ x y, compareEntries x y ≤ 0) es
  ∧ ∀ a p,
      filter (λ e, e_alignment e = a ∧ e_priority e = p) es
      = filter (λ e, e_alignment e = a ∧ e_priority e = p) order.

(** A call of [hide] or of [show] on the element of an entry. *)
Definition visibility_call (hide_it : bool) (entry : IStatusbarViewModelEntry)
    : dom_call :=
  if hide_it then DomHide (e_container entry) else DomShow (e_container entry).

(** The call that brings the element of an entry in line with the hidden
    set of [vm]. *)
Definition call_for (vm : StatusbarViewModel) (entry : IStatusbarViewModelEntry)
    : dom_call :=
  visibility_call (isHidden (e_id entry) vm) entry.

(** The notification for the key of the hidden entries. *)
Definition the_event : IWorkspaceStorageChangeEvent :=
  {| event_key := HIDDEN_ENTRIES_KEY; event_scope := GLOBAL |}.

(** The calls of [hide] and [show] that a step adds to the record. *)
Definition new_calls (before after : StatusbarViewModel) : list dom_call :=
  drop (length (visibility_calls (dom before))) (visibility_calls (dom after)).

(** The identifiers for which the last loop of [onDidStorageChange] calls
    [updateVisibility], in the order of the calls. *)
Fixpoint reconcile_ids (es : list IStatusbarViewModelEntry)
    (changed : list string) : list string :=
  match es with
  | [] => []
  | entry :: es' =>
      if JsSet.has changed (e_id entry)
      then e_id entry :: reconcile_ids es' (JsSet.delete changed (e_id entry))
      else reconcile_ids es' changed
  end.

(** The elements of the entries that have the identifier [i]. *)
Definition containers_of (i : string) (vm : StatusbarViewModel) : list nat :=
  e_container <$> filter (λ e, e_id e = i) (entries vm).

(** The invariant of the data model: an entry is visible exactly when its
    identifier is not hidden. *)
Definition visibility_invariant (vm : StatusbarViewModel) : Prop :=
  Forall (λ e, displayed (dom vm) (e_container e)
               = negb (isHidden (e_id e) vm)) (entries vm).

(** The storage holds what [saveState] writes for the hidden set. *)
Definition storage_in_sync `{JSON} (vm : StatusbarViewModel) : Prop :=
  storage_get HIDDEN_ENTRIES_KEY GLOBAL (storageService vm)
  = if decide (hidden vm = []) then None
    else Some (JSON_stringify (JsSet.values (hidden vm))).

(** The claim C3 as the specification states it, for a state [vm] and an
    identifier [i]: [hide] followed by [show] restores the visibility of the
    entries of [i] and leaves the persisted set as it was. *)
Definition hide_show_restores `{JSON} (vm : StatusbarViewModel) (i : string)
    : Prop :=
  let vm' := show i (hide i vm) in
  (∀ e, e ∈ entries vm → e_id e = i →
        displayed (dom vm') (e_container e) = displayed (dom vm) (e_container e))
  ∧ storage_get HIDDEN_ENTRIES_KEY GLOBAL (storageService vm')
    = storage_get HIDDEN_ENTRIES_KEY GLOBAL (storageService vm).

(** The fields of the part that the queue of pending entries lives in. *)
Definition queue_state (p : StatusbarPart)
    : option nat * list nat * gmap nat IPendingStatusbarEntry :=
  (element p, pendingEntries p, objects p).

(** The pending entry [r] exists. *)
Definition allocated (r : nat) (p : StatusbarPart) : Prop :=
  (r < next_ref p)%nat ∧ is_Some (objects p !! r).

(** While the container does not exist, the pending entry [r] has no
    accessor. *)
Definition pending_inv (r : nat) (p : StatusbarPart) : Prop :=
  (r < next_ref p)%nat
  ∧ ∃ pending, objects p !! r = Some pending
               ∧ (element p = None → p_accessor pending = None).

(** The pending entry [r] is out of the queue and has no accessor. *)
Definition disposed_inv (r : nat) (p : StatusbarPart) : Prop :=
  (r < next_ref p)%nat
  ∧ r ∉ pendingEntries p
  ∧ ∃ pending, objects p !! r = Some pending ∧ p_accessor pending = None.

(** Every accessor that a pending entry holds is an accessor of
    [doAddEntry]. *)
Definition forwards_to_entries (p : StatusbarPart) : Prop :=
  ∀ r pending a,
    objects p !! r = Some pending → p_accessor pending = Some a →
    ∃ viewModelEntry, a = EntryAccessor viewModelEntry.

(** ** The vocabulary of the further properties *)

(** [run] of the action that toggles the entries of an identifier, up to
    the promise it returns. *)
Definition ToggleStatusbarEntryVisibilityAction_run `{JSON} (i : string)
    (vm : StatusbarViewModel) : StatusbarViewModel :=
  if isHidden i vm then show i vm else hide i vm.

(** [run] of the action that hides the entries of an identifier. *)
Definition HideStatusbarEntryAction_run `{JSON} (i : string)
    (vm : StatusbarViewModel) : StatusbarViewModel :=
  hide i vm.

(** A write to the key of the hidden entries, in the global scope. *)
Definition own_write (w : storage_write) : Prop :=
  match w with
  | StoreCall key _ scope | RemoveCall key scope =>
      key = HIDDEN_ENTRIES_KEY ∧ scope = GLOBAL
  end.

(** What a method may do to the storage: at most one write, to its own key;
    every other key of the two stores is as before. *)
Definition writes_own_key (before after : IStorageService) : Prop :=
  ∃ ws, writes after = writes before ++ ws
        ∧ (length ws ≤ 1)%nat
        ∧ Forall own_write ws
        ∧ workspace_store after = workspace_store before
        ∧ ∀ key, key ≠ HIDDEN_ENTRIES_KEY →
                 global_store after !! key = global_store before !! key.

(** The storage holds no hidden set that [restoreState] can read: the key is
    absent, its value is the empty string, or [JSON.parse] throws. *)
Definition unreadable `{JSON} (storage : IStorageService) : Prop :=
  match storage_get HIDDEN_ENTRIES_KEY GLOBAL storage with
  | None => True
  | Some hiddenRaw => hiddenRaw = EmptyString ∨ JSON_parse hiddenRaw = None
  end.

(** The toggle action that the context menu builds for an entry. *)
Definition toggle_action_of `{JSON} (vm : StatusbarViewModel)
    (entry : IStatusbarViewModelEntry) : IAction :=
  ToggleStatusbarEntryVisibilityAction (e_id entry) (e_name entry)
    (negb (isHidden (e_id entry) vm)).

(** The elements of the entries that a run adds. *)
Definition added_containers (ops : list vm_op) : list nat :=
  omap (λ op, match op with
              | OpAdd entry => Some (e_container entry)
              | _ => None
              end) ops.

(** The entries of an alignment that are visible, in the order of the
    array. *)
Definition visible_entries `{JSON} (a : StatusbarAlignment)
    (vm : StatusbarViewModel) : list IStatusbarViewModelEntry :=
  filter (λ e, isHidden (e_id e) vm = false) (getEntries a vm).

(** The two edge classes are where they belong: an element has the class
    [first-visible-item] exactly when its entry is the first visible one of
    its alignment, and [last-visible-item] when it is the last. *)
Definition marks_first_last `{JSON} (vm : StatusbarViewModel) : Prop :=
  ∀ e, e ∈ entries vm →
    (e_container e ∈ first_visible_item (dom vm)
     ↔ head (visible_entries (e_alignment e) vm) = Some e)
    ∧ (e_container e ∈ last_visible_item (dom vm)
       ↔ last (visible_entries (e_alignment e) vm) = Some e).

(** The identifiers that [onDidStorageChange] collects: those of the old
    hidden set that the new one lacks, then those of the new set that the
    old one lacks. *)
Definition changed_ids (currentlyHidden new_hidden : list string)
    : list string :=
  foldl (λ changed i,
           if negb (JsSet.has currentlyHidden i) then JsSet.add changed i
           else changed)
        (foldl (λ changed i,
                  if negb (JsSet.has new_hidden i) then JsSet.add changed i
                  else changed) [] currentlyHidden)
        new_hidden.

(** The entry of the view model that [doAddEntry] and the loop over the
    registry build around a new element. *)
Definition viewModelEntry_of (itemContainer : nat) (i name : string)
    (alignment : StatusbarAlignment) (priority : Z) : IStatusbarViewModelEntry :=
  {| e_ref := itemContainer; e_id := i; e_name := name;
     e_alignment := alignment; e_priority := priority;
     e_container := itemContainer |}.

(** What an entry of the view model, and what a pending entry, shows of the
    item it stands for. *)
Definition descriptor_of_entry (e : IStatusbarViewModelEntry)
    : IStatusbarItemDescriptor :=
  {| r_id := e_id e; r_name := e_name e; r_alignment := e_alignment e;
     r_priority := e_priority e |}.

Definition descriptor_of_pending (pending : IPendingStatusbarEntry)
    : IStatusbarItemDescriptor :=
  {| r_id := p_id pending; r_name := p_name pending;
     r_alignment := p_alignment pending; r_priority := p_priority pending |}.

(** The pending entries in the queue, first to last. *)
Definition queued (p : StatusbarPart) : list IPendingStatusbarEntry :=
  omap (λ pendingEntry, objects p !! pendingEntry) (pendingEntries p).

(** The view model is well formed up to the reference [n]: every entry has
    an element of its own, created before [n]; the array is sorted; the
    elements are displayed and marked as the hidden set says. *)
Definition vm_wf `{JSON} (n : nat) (vm : StatusbarViewModel) : Prop :=
  NoDup (e_container <$> entries vm)
  ∧ (∀ e, e ∈ entries vm → (e_container e < n)%nat)
  ∧ StronglySorted (λ x y, compareEntries x y ≤ 0) (entries vm)
  ∧ visibility_invariant vm
  ∧ marks_first_last vm.

(** The queue holds each pending entry once, and each of them exists. *)
Definition queue_wf (p : StatusbarPart) : Prop :=
  NoDup (pendingEntries p) ∧ ∀ r, r ∈ pendingEntries p → allocated r p.

(** The invariant of the part. *)
Definition part_wf `{JSON} (p : StatusbarPart) : Prop :=
  queue_wf p ∧ vm_wf (next_ref p) (viewModel p).

(** The pending entry [r] has been realized as the entry [viewModelEntry]
    of the view model, whose element is a child of the part and renders
    [entry]. *)
Definition realized_as (r : nat) (viewModelEntry : IStatusbarViewModelEntry)
    (entry : IStatusbarEntry) (p : StatusbarPart) : Prop :=
  (∃ pending, objects p !! r = Some pending
              ∧ p_accessor pending = Some (EntryAccessor viewModelEntry))
  ∧ viewModelEntry ∈ entries (viewModel p)
  ∧ items p !! e_container viewModelEntry = Some entry
  ∧ e_container viewModelEntry ∈ children p
  ∧ (e_container viewModelEntry < next_ref p)%nat.

(** The children of the part that are elements of LEFT entries, in document
    order. *)
Definition left_children `{JSON} (p : StatusbarPart) : list nat :=
  filter (λ c, c ∈ e_container <$> getEntries LEFT (viewModel p)) (children p).

(** The elements of the LEFT entries stand in the document in the order of
    the view model. *)
Definition dom_matches_left `{JSON} (p : StatusbarPart) : Prop :=
  left_children p = e_container <$> getEntries LEFT (viewModel p).

(** Every child of the part is an element that exists. *)
Definition children_allocated (p : StatusbarPart) : Prop :=
  ∀ c, c ∈ children p → (c < next_ref p)%nat.

(** The operations of a client that disposes of no entry. *)
Definition disposes_nothing (op : part_op) : bool :=
  match op with
  | PDispose _ => false
  | _ => true
  end.

(** The part after creation: the view model is well formed, the children
    exist, the LEFT elements stand in the order of the view model. *)
Definition dom_wf `{JSON} (p : StatusbarPart) : Prop :=
  vm_wf (next_ref p) (viewModel p)
  ∧ children_allocated p
  ∧ dom_matches_left p.

(** The characters of a string. *)
Definition chars (s : string) : list ascii := String.list_ascii_of_string s.

(** [lines.join('\n')] *)
Definition join_lines (lines : list string) : string :=
  String.concat (String LF EmptyString) lines.

(** The range of the marker is not empty: its start is not after its end. *)
Definition valid_range (marker : IMarker) : Prop :=
  startLineNumber marker < endLineNumber marker
  ∨ (startLineNumber marker = endLineNumber marker
     ∧ startColumn marker ≤ endColumn marker).

(** Nothing is in the bar: the view model has no entry and the part has no
    child. *)
Definition empty_view (p : StatusbarPart) : Prop :=
  entries (viewModel p) = [] ∧ children p = [].

(** The children of the part are the elements of the entries of the view
    model, and no others. *)
Definition children_are_elements (p : StatusbarPart) : Prop :=
  ∀ c, c ∈ children p ↔ c ∈ e_container <$> entries (viewModel p).

(** ** Sample states *)

Module Sample.

Definition no_storage : IStorageService :=
  {| global_store := ∅; workspace_store := ∅; writes := [] |}.

(** A storage in which the hidden set [h] has been saved. *)
Definition saved (h : list string) : IStorageService :=
  {| global_store := {[HIDDEN_ENTRIES_KEY := Codec.stringify_array h]};
     workspace_store := ∅; writes := [] |}.

Definition blank : Dom :=
  {| display_none := ∅; first_visible_item := ∅; last_visible_item := ∅;
     visibility_calls := [] |}.

Definition left_entry (c : nat) (i : string) (priority : Z)
    : IStatusbarViewModelEntry :=
  {| e_ref := c; e_id := i; e_name := i; e_alignment := LEFT;
     e_priority := priority; e_container := c |}.

Definition right_entry (c : nat) (i : string) (priority : Z)
    : IStatusbarViewModelEntry :=
  {| e_ref := c; e_id := i; e_name := i; e_alignment := RIGHT;
     e_priority := priority; e_container := c |}.

(** Two entries of two contributors that share the identifier [x]. *)
Definition two_x : StatusbarViewModel :=
  vm_run [OpAdd (left_entry 1 "x" 0); OpAdd (left_entry 2 "x" 5)]
         (new_StatusbarViewModel no_storage blank).

(** One entry, [a], which a former session has hidden. *)
Definition hidden_a : StatusbarViewModel :=
  vm_run [OpAdd (left_entry 1 "a" 0)]
         (new_StatusbarViewModel (saved ["a"]) blank).

(** Entries [A], [B] and [C]; [A] and [B] are hidden. *)
Definition hidden_A_B : StatusbarViewModel :=
  vm_run [OpAdd (left_entry 1 "A" 0); OpAdd (left_entry 2 "B" 0);
          OpAdd (left_entry 3 "C" 0); OpHide "A"; OpHide "B"]
         (new_StatusbarViewModel no_storage blank).

(** Entries [x] and [y]; [y] is hidden. *)
Definition shown_x : StatusbarViewModel :=
  vm_run [OpAdd (left_entry 1 "x" 0); OpAdd (left_entry 2 "y" 0); OpHide "y"]
         (new_StatusbarViewModel no_storage blank).

Definition some_entry (t : string) : IStatusbarEntry :=
  {| text := t; tooltip := None; color := None; backgroundColor := None;
     command := None; showBeak := false |}.

Definition marker_of (msg : string) (rel : option (list IRelatedInformation))
    : IMarker :=
  {| severity := SeverityError; message := msg; source := None; code := None;
     relatedInformation := rel; startLineNumber := 1; startColumn := 1;
     endLineNumber := 1; endColumn := 5 |}.

(** [n + 1] lines, each an [x]. *)
Fixpoint lines_of_x (n : nat) : string :=
  match n with
  | O => "x"
  | S n' => String "x" (String LF (lines_of_x n'))
  end.

(** A storage whose value for the key of the hidden entries is no JSON. *)
Definition unparsable : IStorageService :=
  {| global_store := {[HIDDEN_ENTRIES_KEY := "oops"]};
     workspace_store := ∅; writes := [] |}.

(** An editor whose cursor is on line 7. *)
Definition editor_on_line_7 : ICodeEditor :=
  {| editor_position := Some {| lineNumber := 7; column := 1 |};
     editor_model := None; accessibilitySupport_enabled := false |}.

End Sample.

(** * Properties *)

(** ** Filters *)

Lemma filter_none {A} (P : A → Prop) `{!∀ x, Decision (P x)} (l : list A) :
  (∀ x, x ∈ l → ¬ P x) → filter P l = [].
Proof.
  induction l as [|x l IH]; intros Hl; [done|].
  rewrite filter_cons_False; [|apply Hl; by left].
  apply IH. intros z Hz. apply Hl. by right.
Qed.

Lemma filter_iff_elem {A} (P1 P2 : A → Prop)
    `{!∀ x, Decision (P1 x), !∀ x, Decision (P2 x)} (l : list A) :
  (∀ x, x ∈ l → (P1 x ↔ P2 x)) → filter P1 l = filter P2 l.
Proof.
  induction l as [|x l IH]; intros Hl; [done|].
  rewrite !filter_cons, IH; [|intros z Hz; apply Hl; by right].
  destruct (decide (P1 x)) as [H1|H1], (decide (P2 x)) as [H2|H2];
    try done; exfalso; apply (Hl x) in H1 || apply (Hl x) in H2;
    done || by left.
Qed.

(** ** The stable sort *)

Section array_sort_facts.
  Context {A : Type} (cmp : A → A → Z).
  Hypothesis cmp_trans : ∀ x y z, cmp x y ≤ 0 → cmp y z ≤ 0 → cmp x z ≤ 0.
  Hypothesis cmp_total : ∀ x y, 0 < cmp y x → cmp x y ≤ 0.

  Local Abbreviation le := (λ x y, cmp x y ≤ 0).

Lemma sorted_insert_Permutation x l : sorted_insert cmp x l ≡ₚ x :: l.
Proof.
  induction l as [|y l IH]; simpl; [done|].
  case_decide; [done|]. rewrite IH. apply Permutation_swap.
Qed.

Lemma sorted_insert_sorted x l :
  StronglySorted le l → StronglySorted le (sorted_insert cmp x l).
Proof.
  induction l as [|y l IH]; simpl; intros Hs.
  - repeat constructor.
  - apply StronglySorted_cons in Hs as [Hy Hl]. case_decide as Hc.
    + constructor; [by constructor|].
      constructor; [by apply cmp_total|].
      eapply Forall_impl; [exact Hy|]. intros z Hz. simpl in *.
      eapply cmp_trans; [by apply cmp_total|done].
    + constructor; [by apply IH|].
      rewrite sorted_insert_Permutation. constructor; [lia|done].
Qed.

Lemma sorted_insert_last x l :
  Forall (λ y, cmp y x ≤ 0) l → sorted_insert cmp x l = l ++ [x].
Proof.
  induction 1 as [|y l Hy _ IH]; simpl; [done|].
  case_decide; [lia|]. by rewrite IH.
Qed.

Lemma Array_sort_snoc l x :
  Array_sort cmp (l ++ [x]) = sorted_insert cmp x (Array_sort cmp l).
Proof. unfold Array_sort. by rewrite foldl_snoc. Qed.

Lemma Array_sort_sorted l : StronglySorted le l → Array_sort cmp l = l.
Proof.
  induction l as [|x l IH] using rev_ind; [done|].
  intros Hs. apply StronglySorted_app in Hs as (Hlx & Hl & _).
  rewrite Array_sort_snoc, IH by done.
  apply sorted_insert_last, Forall_forall. intros y Hy.
  apply Hlx; [done|]. apply list_elem_of_singleton. done.
Qed.

(** An element goes behind the elements of its class: a class is a set of
    elements none of which comes after another. *)
Lemma filter_sorted_insert (K : A → Prop) `{!∀ x, Decision (K x)} x l :
  (∀ y z, K y → K z → cmp y z ≤ 0) →
  StronglySorted le l →
  filter K (sorted_insert cmp x l)
  = filter K l ++ (if decide (K x) then [x] else []).
Proof.
  intros HK. induction l as [|y l IH]; cbn [sorted_insert]; intros Hs.
  - rewrite filter_cons, filter_nil. by case_decide.
  - apply StronglySorted_cons in Hs as [Hy Hl].
    destruct (decide (0 < cmp y x)) as [Hc|Hc].
    + rewrite (filter_cons _ x). destruct (decide (K x)) as [Hx|Hx];
        [|by rewrite app_nil_r].
      assert (filter K (y :: l) = []) as ->; [|done].
      apply filter_none. intros z Hz HKz.
      assert (cmp y x ≤ 0); [|lia].
      apply elem_of_cons in Hz as [->|Hz]; [by apply HK|].
      eapply cmp_trans; [|by apply (HK z x)].
      rewrite Forall_forall in Hy. by apply Hy.
    + rewrite !(filter_cons _ y), IH by done. by destruct (decide (K y)).
Qed.
End array_sort_facts.

(** ** Taking out the first occurrence *)

Section remove_first_facts.
  Context {A : Type} `{EqDecision A}.
  Implicit Types (x : A) (l : list A).

Lemma remove_first_not_elem x l : x ∉ l → remove_first x l = l.
Proof.
  induction l as [|y l IH]; simpl; [done|].
  intros Hx. apply not_elem_of_cons in Hx as [? ?].
  case_decide; [congruence|]. by rewrite IH.
Qed.

Lemma remove_first_elem_Permutation x l : x ∈ l → l ≡ₚ x :: remove_first x l.
Proof.
  induction l as [|y l IH]; simpl; [by intros ?%elem_of_nil|].
  intros Hx. case_decide as Hy; [by subst|].
  apply elem_of_cons in Hx as [->|Hx]; [done|].
  rewrite (IH Hx) at 1. apply Permutation_swap.
Qed.

Lemma remove_first_Permutation x l1 l2 :
  l1 ≡ₚ l2 → remove_first x l1 ≡ₚ remove_first x l2.
Proof.
  intros Hp. destruct (decide (x ∈ l1)) as [Hx|Hx].
  - apply (Permutation_cons_inv (a := x)).
    rewrite <- !remove_first_elem_Permutation; [done|by rewrite <- Hp|done].
  - rewrite !remove_first_not_elem; [done|by rewrite <- Hp|done].
Qed.

Lemma remove_first_sublist x l : remove_first x l `sublist_of` l.
Proof.
  induction l as [|y l IH]; simpl; [done|].
  case_decide; [by apply sublist_cons|by apply sublist_skip].
Qed.

Lemma filter_remove_first (K : A → Prop) `{!∀ x, Decision (K x)} x l :
  filter K (remove_first x l)
  = if decide (K x) then remove_first x (filter K l) else filter K l.
Proof.
  induction l as [|y l IH]; simpl; [by case_decide|].
  destruct (decide (y = x)) as [->|Hy].
  - rewrite filter_cons. destruct (decide (K x)); simpl; [|done].
    by rewrite decide_True.
  - rewrite !(filter_cons _ y), IH.
    destruct (decide (K x)), (decide (K y)); simpl; try done.
    by rewrite decide_False.
Qed.
End remove_first_facts.

Lemma StronglySorted_sublist {A} (R : relation A) (l k : list A) :
  l `sublist_of` k → StronglySorted R k → StronglySorted R l.
Proof.
  induction 1 as [|x l k Hlk IH|x l k Hlk IH]; intros Hs; [done|..].
  - apply StronglySorted_cons in Hs as [Hx Hk].
    apply StronglySorted_cons. split; [|by apply IH].
    rewrite Forall_forall in Hx |- *. intros z Hz.
    apply Hx. by eapply elem_of_sublist.
  - apply StronglySorted_cons in Hs as [_ Hk]. by apply IH.
Qed.

(** ** What the methods of the view model leave alone *)

Section view_model_facts.
  Context `{JSON}.
  Implicit Types (vm : StatusbarViewModel) (i : string)
    (entry : IStatusbarViewModelEntry).

Lemma doMarkFirstLastVisibleStatusbarItem_frame es vm :
  ∃ d, doMarkFirstLastVisibleStatusbarItem es vm = set_dom d vm
       ∧ display_none d = display_none (dom vm)
       ∧ visibility_calls d = visibility_calls (dom vm).
Proof.
  unfold doMarkFirstLastVisibleStatusbarItem.
  set (f := λ '(d, first, last) entry, _).
  assert (∀ acc, display_none (foldl f acc es).1.1 = display_none acc.1.1
                 ∧ visibility_calls (foldl f acc es).1.1
                   = visibility_calls acc.1.1) as Hf.
  { induction es as [|e es IH]; intros acc; [done|]. simpl.
    destruct (IH (f acc e)) as [-> ->].
    destruct acc as [[d first] last]. simpl.
    by destruct (negb (isHidden (e_id e) vm)). }
  specialize (Hf (dom vm, None, None)).
  destruct (foldl f (dom vm, None, None) es) as [[d first] last].
  simpl in Hf. destruct Hf as [Hd Hc].
  eexists. split; [done|].
  by destruct first, last.
Qed.

Lemma markFirstLastVisibleEntry_frame vm :
  ∃ d, markFirstLastVisibleEntry vm = set_dom d vm
       ∧ display_none d = display_none (dom vm)
       ∧ visibility_calls d = visibility_calls (dom vm).
Proof.
  unfold markFirstLastVisibleEntry.
  destruct (doMarkFirstLastVisibleStatusbarItem_frame (getEntries LEFT vm) vm)
    as (d1 & -> & Hd1 & Hc1).
  destruct (doMarkFirstLastVisibleStatusbarItem_frame
              (getEntries RIGHT (set_dom d1 vm)) (set_dom d1 vm))
    as (d2 & -> & Hd2 & Hc2).
  exists d2. simpl in *. split; [done|]. split; congruence.
Qed.

Lemma updateVisibility_entry_frame entry vm :
  ∃ d, updateVisibility_entry entry vm = set_dom d vm
       ∧ display_none d
         = (if isHidden (e_id entry) vm
            then {[e_container entry]} ∪ display_none (dom vm)
            else display_none (dom vm) ∖ {[e_container entry]})
       ∧ visibility_calls d
         = visibility_calls (dom vm)
             ++ [visibility_call (isHidden (e_id entry) vm) entry].
Proof.
  unfold updateVisibility_entry.
  destruct (isHidden (e_id entry) vm);
    match goal with |- context [markFirstLastVisibleEntry ?v] =>
      destruct (markFirstLastVisibleEntry_frame v) as (d & -> & Hd & Hc)
    end; exists d; simpl in *; by rewrite Hd, Hc.
Qed.

Lemma updateVisibility_id_frame i vm :
  let touched := filter (λ entry, e_id entry = i) (entries vm) in
  ∃ d, updateVisibility_id i vm = set_dom d vm
       ∧ display_none d
         = (if isHidden i vm
            then list_to_set (e_container <$> touched) ∪ display_none (dom vm)
            else display_none (dom vm) ∖ list_to_set (e_container <$> touched))
       ∧ visibility_calls d
         = visibility_calls (dom vm)
             ++ (visibility_call (isHidden i vm) <$> touched).
Proof.
  unfold updateVisibility_id. generalize (entries vm) as es.
  intros es. revert vm. induction es as [|e es IH]; intros vm; cbn [foldl].
  - exists (dom vm). rewrite filter_nil, !fmap_nil, app_nil_r.
    split; [by destruct vm|]. split; [|done].
    destruct (isHidden _ _); set_solver.
  - rewrite filter_cons. destruct (decide (e_id e ≠ i)) as [Hne|Heq].
    + rewrite decide_False by done. apply IH.
    + apply dec_stable in Heq. rewrite decide_True by done.
      destruct (updateVisibility_entry_frame e vm) as (d1 & -> & Hd1 & Hc1).
      destruct (IH (set_dom d1 vm)) as (d2 & -> & Hd2 & Hc2).
      exists d2. split; [done|].
      change (isHidden i (set_dom d1 vm)) with (isHidden i vm) in *.
      change (dom (set_dom d1 vm)) with d1 in *.
      rewrite Heq in *. rewrite Hd2, Hc2, Hd1, Hc1, fmap_cons.
      split; [|by rewrite <- app_assoc].
      destruct (isHidden i vm); rewrite list_to_set_cons; set_solver.
Qed.

Lemma saveState_frame vm :
  entries (saveState vm) = entries vm ∧ hidden (saveState vm) = hidden vm
  ∧ dom (saveState vm) = dom vm.
Proof. unfold saveState. by case_decide. Qed.

Lemma entries_markFirstLastVisibleEntry vm :
  entries (markFirstLastVisibleEntry vm) = entries vm.
Proof. by destruct (markFirstLastVisibleEntry_frame vm) as (d & -> & _). Qed.

Lemma entries_updateVisibility_entry entry vm :
  entries (updateVisibility_entry entry vm) = entries vm.
Proof. by destruct (updateVisibility_entry_frame entry vm) as (d & -> & _). Qed.

Lemma entries_add entry vm :
  entries (add entry vm) = Array_sort compareEntries (entries vm ++ [entry]).
Proof.
  unfold add, sort.
  by rewrite entries_markFirstLastVisibleEntry; simpl;
    rewrite entries_updateVisibility_entry.
Qed.

Lemma entries_remove entry vm :
  entries (remove entry vm) = remove_first entry (entries vm).
Proof.
  unfold remove. case_decide.
  - by rewrite entries_markFirstLastVisibleEntry.
  - by rewrite remove_first_not_elem.
Qed.

Lemma entries_hide i vm : entries (hide i vm) = entries vm.
Proof.
  unfold hide. destruct (negb _); [|done].
  destruct (saveState_frame (updateVisibility_id i
              (set_hidden (JsSet.add (hidden vm) i) vm))) as [-> _].
  by destruct (updateVisibility_id_frame i
                 (set_hidden (JsSet.add (hidden vm) i) vm)) as (d & -> & _).
Qed.

Lemma entries_show i vm : entries (show i vm) = entries vm.
Proof.
  unfold show. destruct (JsSet.has _ _); [|done].
  destruct (saveState_frame (updateVisibility_id i
              (set_hidden (JsSet.delete (hidden vm) i) vm))) as [-> _].
  by destruct (updateVisibility_id_frame i
                 (set_hidden (JsSet.delete (hidden vm) i) vm)) as (d & -> & _).
Qed.
End view_model_facts.

(** ** C1: the order of the entries *)

Lemma compareEntries_trans x y z :
  compareEntries x y ≤ 0 → compareEntries y z ≤ 0 → compareEntries x z ≤ 0.
Proof.
  unfold compareEntries.
  destruct (e_alignment x), (e_alignment y), (e_alignment z);
    repeat case_decide; try done; lia.
Qed.

Lemma compareEntries_total x y :
  0 < compareEntries y x → compareEntries x y ≤ 0.
Proof.
  unfold compareEntries.
  destruct (e_alignment x), (e_alignment y); repeat case_decide; try done; lia.
Qed.

Lemma compareEntries_class a p y z :
  e_alignment y = a ∧ e_priority y = p →
  e_alignment z = a ∧ e_priority z = p →
  compareEntries y z ≤ 0.
Proof.
  intros [Hy1 Hy2] [Hz1 Hz2]. unfold compareEntries.
  rewrite decide_True by congruence. lia.
Qed.

Lemma ordered_nil : ordered [] [].
Proof. repeat split; constructor. Qed.

Lemma ordered_add es order entry :
  ordered es order →
  ordered (Array_sort compareEntries (es ++ [entry])) (order ++ [entry]).
Proof.
  intros (Hp & Hs & Hc).
  rewrite Array_sort_snoc, Array_sort_sorted by done.
  split; [|split].
  - rewrite sorted_insert_Permutation, Hp. apply Permutation_cons_append.
  - by apply sorted_insert_sorted;
      [apply compareEntries_trans|apply compareEntries_total|].
  - intros a p.
    rewrite (filter_sorted_insert _ compareEntries_trans);
      [|apply compareEntries_class|done].
    by rewrite filter_app, Hc, filter_cons, filter_nil.
Qed.

Lemma ordered_remove es order entry :
  ordered es order →
  ordered (remove_first entry es) (remove_first entry order).
Proof.
  intros (Hp & Hs & Hc). split; [|split].
  - by apply remove_first_Permutation.
  - eapply StronglySorted_sublist; [apply remove_first_sublist|done].
  - intros a p. rewrite !filter_remove_first, Hc. done.
Qed.

(** ** Sets *)

Section js_set_facts.
  Context {A : Type} `{EqDecision A}.
  Implicit Types (s l : list A) (x y : A).

Lemma has_true s x : JsSet.has s x = true ↔ x ∈ s.
Proof. unfold JsSet.has. by rewrite bool_decide_eq_true. Qed.

Lemma has_false s x : JsSet.has s x = false ↔ x ∉ s.
Proof. unfold JsSet.has. by rewrite bool_decide_eq_false. Qed.

Lemma elem_of_add s x y : y ∈ JsSet.add s x ↔ y ∈ s ∨ y = x.
Proof.
  unfold JsSet.add. destruct (JsSet.has s x) eqn:Hx.
  - apply has_true in Hx. naive_solver.
  - rewrite elem_of_app, list_elem_of_singleton. done.
Qed.

Lemma elem_of_delete s x y : y ∈ JsSet.delete s x ↔ y ∈ s ∧ y ≠ x.
Proof. unfold JsSet.delete. rewrite list_elem_of_filter. naive_solver. Qed.

Lemma add_fresh s x : x ∉ s → JsSet.add s x = s ++ [x].
Proof. intros Hx. unfold JsSet.add. by apply has_false in Hx as ->. Qed.

Lemma delete_fresh s x : x ∉ s → JsSet.delete s x = s.
Proof.
  intros Hx. unfold JsSet.delete. induction s as [|y s IH]; [done|].
  apply not_elem_of_cons in Hx as [? ?].
  rewrite filter_cons_True by done. by rewrite IH.
Qed.

Lemma delete_add_fresh s x : x ∉ s → JsSet.delete (JsSet.add s x) x = s.
Proof.
  intros Hx. rewrite add_fresh by done. unfold JsSet.delete.
  rewrite filter_app, filter_cons_False, filter_nil, app_nil_r by naive_solver.
  by apply delete_fresh.
Qed.

Lemma elem_of_of_list l x : x ∈ JsSet.of_list l ↔ x ∈ l.
Proof.
  unfold JsSet.of_list.
  assert (∀ s, x ∈ foldl JsSet.add s l ↔ x ∈ s ∨ x ∈ l) as Hf.
  { induction l as [|y l IH]; intros s; simpl.
    - rewrite elem_of_nil. naive_solver.
    - rewrite IH, elem_of_add, elem_of_cons. naive_solver. }
  rewrite Hf, elem_of_nil. naive_solver.
Qed.

(** The two loops of [onDidStorageChange] that collect the identifiers
    whose membership has changed. *)
Lemma elem_of_collect (keep : A → bool) l s x :
  x ∈ foldl (λ changed i, if keep i then JsSet.add changed i else changed) s l
  ↔ x ∈ s ∨ (x ∈ l ∧ keep x = true).
Proof.
  revert s. induction l as [|y l IH]; intros s; simpl.
  - rewrite elem_of_nil. naive_solver.
  - rewrite IH, elem_of_cons. destruct (keep y) eqn:Hy.
    + rewrite elem_of_add. naive_solver.
    + split; [naive_solver|].
      intros [?|[[->|?] ?]]; [by left|congruence|by right].
Qed.
End js_set_facts.

(** ** C4: reconciliation with the storage *)

Lemma elem_of_reconcile_ids es changed i :
  i ∈ reconcile_ids es changed ↔ i ∈ changed ∧ ∃ e, e ∈ es ∧ e_id e = i.
Proof.
  revert changed. induction es as [|e es IH]; intros changed; simpl.
  - rewrite elem_of_nil. split; [done|]. by intros (_ & e & ?%elem_of_nil & _).
  - destruct (JsSet.has changed (e_id e)) eqn:He.
    + apply has_true in He. rewrite elem_of_cons, IH, elem_of_delete.
      setoid_rewrite elem_of_cons. split.
      * intros [->|((? & ?) & e' & ? & ?)]; naive_solver.
      * intros (? & e' & [->|?] & <-); [by left|].
        destruct (decide (e_id e' = e_id e)); [by left|]. right. naive_solver.
    + apply has_false in He. rewrite IH. setoid_rewrite elem_of_cons.
      split; [naive_solver|].
      intros (? & e' & [->|?] & <-); [done|]. naive_solver.
Qed.

Lemma NoDup_reconcile_ids es changed : NoDup (reconcile_ids es changed).
Proof.
  revert changed. induction es as [|e es IH]; intros changed; simpl.
  - constructor.
  - destruct (JsSet.has changed (e_id e)); [|done].
    apply NoDup_cons. split; [|done].
    rewrite elem_of_reconcile_ids, elem_of_delete. naive_solver.
Qed.

Lemma bind_filter_Permutation {A B K} `{EqDecision K} (f : A → B)
    (key : A → K) (ids : list K) (l : list A) :
  NoDup ids →
  (ids ≫= λ i, f <$> filter (λ e, key e = i) l)
  ≡ₚ f <$> filter (λ e, key e ∈ ids) l.
Proof.
  induction 1 as [|i ids Hi Hnd IH]; simpl.
  - rewrite filter_none; [done|]. intros x _ ?%elem_of_nil. done.
  - rewrite IH, <- fmap_app. apply fmap_Permutation.
    clear IH. induction l as [|x l IHl]; [done|].
    rewrite !(filter_cons _ x).
    destruct (decide (key x ∈ i :: ids)) as [Hx|Hx];
      rewrite elem_of_cons in Hx;
      destruct (decide (key x = i)) as [Hi'|Hi'];
      destruct (decide (key x ∈ ids)) as [Hx'|Hx'];
      try (exfalso; naive_solver).
    + simpl. by rewrite IHl.
    + rewrite <- Permutation_middle. by rewrite IHl.
    + done.
Qed.

Section storage_change.
  Context `{JSON}.
  Implicit Types (vm : StatusbarViewModel) (i : string).

Lemma calls_of_id vm i :
  visibility_call (isHidden i vm) <$> filter (λ e, e_id e = i) (entries vm)
  = call_for vm <$> filter (λ e, e_id e = i) (entries vm).
Proof.
  apply list_fmap_ext. intros k e Hk.
  apply list_elem_of_lookup_2, list_elem_of_filter in Hk as [<- _]. done.
Qed.

Lemma reconcile_loop es vm changed :
  ∃ d,
    (foldl (λ '(vm, changed) entry,
              if JsSet.has changed (e_id entry) then
                (updateVisibility_id (e_id entry) vm,
                 JsSet.delete changed (e_id entry))
              else (vm, changed))
           (vm, changed) es).1 = set_dom d vm
    ∧ visibility_calls d
      = visibility_calls (dom vm)
          ++ (reconcile_ids es changed ≫= λ i,
                call_for vm <$> filter (λ e, e_id e = i) (entries vm)).
Proof.
  revert vm changed. induction es as [|e es IH]; intros vm changed.
  - exists (dom vm). simpl. rewrite app_nil_r. by destruct vm.
  - cbn [foldl reconcile_ids]. destruct (JsSet.has changed (e_id e)).
    + destruct (updateVisibility_id_frame (e_id e) vm) as (d1 & -> & _ & Hc1).
      destruct (IH (set_dom d1 vm) (JsSet.delete changed (e_id e)))
        as (d2 & -> & Hc2).
      exists d2. split; [done|].
      change (dom (set_dom d1 vm)) with d1 in Hc2.
      rewrite Hc2, Hc1, calls_of_id, bind_cons, <- app_assoc. done.
    + apply IH.
Qed.

Lemma onDidStorageChange_spec vm :
  let new_hidden := restoreState (storageService vm) (Some []) in
  let vm1 := set_hidden new_hidden vm in
  ∃ d calls,
    onDidStorageChange the_event vm = set_dom d vm1
    ∧ visibility_calls d = visibility_calls (dom vm) ++ calls
    ∧ calls ≡ₚ call_for vm1
               <$> filter (λ e, xorb (isHidden (e_id e) vm)
                                     (isHidden (e_id e) vm1) = true)
                          (entries vm).
Proof.
  intros new_hidden vm1. unfold onDidStorageChange.
  rewrite decide_True by done. cbv zeta.
  change (set_hidden (restoreState _ _) _) with vm1.
  change (hidden vm1) with new_hidden.
  set (changed := foldl _ (foldl _ _ _) _).
  assert (∀ i, i ∈ changed
               ↔ xorb (isHidden i vm) (isHidden i vm1) = true) as Hchanged.
  { intros i. unfold changed.
    rewrite !elem_of_collect, elem_of_nil, !negb_true_iff, !has_false,
      !elem_of_of_list.
    unfold isHidden. change (hidden vm1) with new_hidden.
    destruct (JsSet.has (hidden vm) i) eqn:Ho,
             (JsSet.has new_hidden i) eqn:Hn; simpl;
      [apply has_true in Ho, Hn
      |apply has_true in Ho; apply has_false in Hn
      |apply has_false in Ho; apply has_true in Hn
      |apply has_false in Ho, Hn];
      (split; [intros [[[]|[? ?]]|[? ?]]; done|]); try done; intros _.
    - left. right. by split.
    - right. by split. }
  assert (filter (λ e, e_id e ∈ reconcile_ids (entries vm) changed) (entries vm)
          = filter (λ e, xorb (isHidden (e_id e) vm)
                              (isHidden (e_id e) vm1) = true) (entries vm))
    as Hfilter.
  { apply filter_iff_elem. intros e He.
    rewrite elem_of_reconcile_ids, Hchanged. naive_solver. }
  case_decide as Hsize.
  - destruct (reconcile_loop (entries vm) vm1 changed) as (d & Hd & Hc).
    change (entries vm1) with (entries vm) in *.
    exists d, (reconcile_ids (entries vm) changed ≫= λ i,
                 call_for vm1 <$> filter (λ e, e_id e = i) (entries vm)).
    split; [exact Hd|]. split; [exact Hc|].
    rewrite <- Hfilter.
    apply (bind_filter_Permutation (call_for vm1) e_id), NoDup_reconcile_ids.
  - exists (dom vm), []. split; [done|]. split; [by rewrite app_nil_r|].
    rewrite filter_none; [done|]. intros e _ He.
    apply Hchanged in He. destruct changed; [by apply elem_of_nil in He|].
    unfold JsSet.size in Hsize. simpl in Hsize. lia.
Qed.

Lemma onDidStorageChange_other event vm :
  ¬ (event_key event = HIDDEN_ENTRIES_KEY ∧ event_scope event = GLOBAL) →
  onDidStorageChange event vm = vm.
Proof. intros He. unfold onDidStorageChange. by rewrite decide_False. Qed.

Lemma entries_onDidStorageChange event vm :
  entries (onDidStorageChange event vm) = entries vm.
Proof.
  destruct (decide (event_key event = HIDDEN_ENTRIES_KEY
                    ∧ event_scope event = GLOBAL)) as [[Hk Hs]|Hne].
  - destruct event as [k s]. simpl in *. subst. fold the_event.
    by destruct (onDidStorageChange_spec vm) as (d & calls & -> & _).
  - by rewrite onDidStorageChange_other.
Qed.
End storage_change.

Lemma StronglySorted_impl_elem {A} (R R' : relation A) (l : list A) :
  (∀ x y, x ∈ l → y ∈ l → R x y → R' x y) →
  StronglySorted R l → StronglySorted R' l.
Proof.
  induction l as [|x l IH]; intros HR Hs; [constructor|].
  apply StronglySorted_cons in Hs as [Hx Hl].
  apply StronglySorted_cons. split.
  - rewrite Forall_forall in Hx |- *. intros y Hy.
    apply HR; [by left|by right|by apply Hx].
  - apply IH; [|done]. intros y z Hy Hz. apply HR; by right.
Qed.

Lemma entries_vm_step `{JSON} vm op order :
  ordered (entries vm) order →
  ordered (entries (vm_step vm op))
          (match op with
           | OpAdd entry => order ++ [entry]
           | OpDispose entry => remove_first entry order
           | _ => order
           end).
Proof.
  intros Ho. destruct op as [e|e|i|i|storage' event]; simpl.
  - rewrite entries_add. by apply ordered_add.
  - rewrite entries_remove. by apply ordered_remove.
  - by rewrite entries_hide.
  - by rewrite entries_show.
  - by rewrite entries_onDidStorageChange.
Qed.

Lemma entries_vm_run `{JSON} storage d ops :
  ordered (entries (vm_run ops (new_StatusbarViewModel storage d)))
          (insertion_order ops).
Proof.
  induction ops as [|op ops IH] using rev_ind.
  - apply ordered_nil.
  - unfold vm_run, insertion_order in *. rewrite !foldl_snoc.
    by apply entries_vm_step.
Qed.

(** C1.  After every sequence of operations on a view model,
    [getEntries(alignment)] returns exactly the registered entries of that
    alignment, by descending priority, and the entries of one priority stand
    in the order in which they were added. *)
Theorem getEntries_by_priority_then_insertion `{JSON}
    (storage : IStorageService) (d : Dom) (ops : list vm_op)
    (a : StatusbarAlignment) :
  let vm := vm_run ops (new_StatusbarViewModel storage d) in
  let added := filter (λ e, e_alignment e = a) (insertion_order ops) in
  getEntries a vm ≡ₚ added
  ∧ StronglySorted (λ x y, e_priority y ≤ e_priority x) (getEntries a vm)
  ∧ ∀ p, filter (λ e, e_priority e = p) (getEntries a vm)
         = filter (λ e, e_priority e = p) added.
Proof.
  intros vm added. unfold getEntries, added.
  destruct (entries_vm_run storage d ops) as (Hp & Hs & Hc).
  fold vm in Hp, Hs, Hc. split; [|split].
  - by rewrite Hp.
  - eapply StronglySorted_impl_elem;
      [|eapply StronglySorted_sublist; [apply sublist_filter|exact Hs]].
    intros x y [Hx _]%list_elem_of_filter [Hy _]%list_elem_of_filter.
    unfold compareEntries. rewrite decide_True by congruence. lia.
  - intros p. rewrite !list_filter_filter.
    rewrite (list_filter_iff _ (λ e, e_alignment e = a ∧ e_priority e = p))
      by naive_solver.
    rewrite Hc. apply list_filter_iff. naive_solver.
Qed.

(** What [restoreState] loads when the storage holds a JSON text under the
    key. *)
Lemma hidden_reloaded_from_storage `{JSON} (vm : StatusbarViewModel)
    (hiddenRaw : string) (hiddenArray : list string) :
  storage_get HIDDEN_ENTRIES_KEY GLOBAL (storageService vm) = Some hiddenRaw →
  hiddenRaw ≠ EmptyString →
  JSON_parse hiddenRaw = Some hiddenArray →
  restoreState (storageService vm) (Some []) = JsSet.of_list hiddenArray.
Proof.
  intros Hget Hne Hparse. unfold restoreState.
  by rewrite Hget, decide_False, Hparse.
Qed.

(** The calls for the entries whose identifier has entered or left the
    set, when the set goes from [A] and [B] to [B] and [C]. *)
Lemma calls_of_A_B_to_B_C `{JSON} (vm vm' : StatusbarViewModel)
    (A B C : string) :
  A ≠ B → A ≠ C → B ≠ C →
  (∀ i, i ∈ hidden vm ↔ i = A ∨ i = B) →
  (∀ i, i ∈ hidden vm' ↔ i = B ∨ i = C) →
  call_for vm'
    <$> filter (λ e, xorb (isHidden (e_id e) vm) (isHidden (e_id e) vm') = true)
               (entries vm)
  ≡ₚ (DomShow ∘ e_container <$> filter (λ e, e_id e = A) (entries vm))
     ++ (DomHide ∘ e_container <$> filter (λ e, e_id e = C) (entries vm)).
Proof.
  intros HAB HAC HBC Hold Hnew.
  assert (∀ i, xorb (isHidden i vm) (isHidden i vm') = true ↔ i ∈ [A; C])
    as Hch.
  { intros i. unfold isHidden. rewrite !elem_of_cons, elem_of_nil.
    pose proof (Hold i) as Ho'. pose proof (Hnew i) as Hn'.
    destruct (JsSet.has (hidden vm) i) eqn:Ho,
             (JsSet.has (hidden vm') i) eqn:Hn; simpl;
      [apply has_true in Ho, Hn
      |apply has_true in Ho; apply has_false in Hn
      |apply has_false in Ho; apply has_true in Hn
      |apply has_false in Ho, Hn];
      intuition congruence. }
  rewrite (list_filter_iff _ (λ e, e_id e ∈ [A; C])) by (intros e; apply Hch).
  rewrite <- (bind_filter_Permutation (call_for vm') e_id [A; C]).
  2:{ apply NoDup_cons. split; [|apply NoDup_singleton].
      by intros ->%list_elem_of_singleton. }
  simpl. rewrite app_nil_r. f_equiv; apply Permutation_refl', list_fmap_ext;
    intros k e [He _]%list_elem_of_lookup_2%list_elem_of_filter;
    unfold call_for, visibility_call, isHidden; rewrite He; simpl.
  - rewrite (proj2 (has_false _ _)); [done|]. rewrite Hnew. intuition congruence.
  - rewrite (proj2 (has_true _ _)); [done|]. rewrite Hnew. by right.
Qed.

(** C4.  When the notification for the persisted key arrives, the view
    model reloads the hidden set from the storage: if the storage holds
    under the key a text, not empty, that [JSON.parse] reads as an array, the
    hidden set becomes the set of the strings of that array, and it becomes
    empty if the storage holds nothing that can be read.  The view model
    then calls [hide] or [show] once for every entry whose identifier has
    entered or left the set, and for no other entry.  With [A] and [B]
    hidden in memory and [B] and [C] hidden in the storage, the hidden set
    becomes [B] and [C], the entries of [A] are shown, those of [C] are
    hidden, and no call is made for [B]. *)
Theorem storage_change_updates_changed_ids `{JSON} (vm : StatusbarViewModel) :
  let vm' := onDidStorageChange the_event vm in
  let changed i := xorb (isHidden i vm) (isHidden i vm') in
  let persisted := storage_get HIDDEN_ENTRIES_KEY GLOBAL (storageService vm) in
  hidden vm' = restoreState (storageService vm) (Some [])
  ∧ (∀ hiddenRaw hiddenArray,
       persisted = Some hiddenRaw → hiddenRaw ≠ EmptyString →
       JSON_parse hiddenRaw = Some hiddenArray →
       hidden vm' = JsSet.of_list hiddenArray
       ∧ ∀ i, isHidden i vm' = true ↔ i ∈ hiddenArray)
  ∧ (unreadable (storageService vm) → hidden vm' = [])
  ∧ visibility_calls (dom vm') = visibility_calls (dom vm) ++ new_calls vm vm'
  ∧ new_calls vm vm'
    ≡ₚ call_for vm' <$> filter (λ e, changed (e_id e) = true) (entries vm)
  ∧ (∀ A B C : string,
       A ≠ B → A ≠ C → B ≠ C →
       hidden vm = [A; B] → hidden vm' = [B; C] →
       new_calls vm vm'
       ≡ₚ (DomShow ∘ e_container <$> filter (λ e, e_id e = A) (entries vm))
          ++ (DomHide ∘ e_container <$> filter (λ e, e_id e = C) (entries vm)))
  ∧ ∀ (A B C hiddenRaw : string) (hiddenArray : list string),
      A ≠ B → A ≠ C → B ≠ C →
      (∀ i, i ∈ hidden vm ↔ i = A ∨ i = B) →
      persisted = Some hiddenRaw → hiddenRaw ≠ EmptyString →
      JSON_parse hiddenRaw = Some hiddenArray →
      (∀ i, i ∈ hiddenArray ↔ i = B ∨ i = C) →
      (∀ i, isHidden i vm' = true ↔ i = B ∨ i = C)
      ∧ new_calls vm vm'
        ≡ₚ (DomShow ∘ e_container <$> filter (λ e, e_id e = A) (entries vm))
           ++ (DomHide ∘ e_container <$> filter (λ e, e_id e = C) (entries vm)).
Proof.
  intros vm' changed persisted.
  destruct (onDidStorageChange_spec vm) as (d & calls & Hvm' & Hcalls & Hperm).
  fold vm' in Hvm'.
  assert (new_calls vm vm' = calls) as Hnew.
  { unfold new_calls. rewrite Hvm'. simpl. rewrite Hcalls.
    apply drop_app_length. }
  assert (hidden vm' = restoreState (storageService vm) (Some [])) as Hh
    by by rewrite Hvm'.
  assert (∀ i, isHidden i vm'
               = isHidden i (set_hidden
                               (restoreState (storageService vm) (Some [])) vm))
    as His by (intros i; unfold isHidden; by rewrite Hh).
  assert (new_calls vm vm'
          ≡ₚ call_for vm' <$> filter (λ e, changed (e_id e) = true) (entries vm))
    as Hall.
  { rewrite Hnew, Hperm. unfold changed.
    erewrite (list_filter_iff _ (λ e, xorb _ (isHidden (e_id e) vm') = true));
      [|intros e; by rewrite His].
    apply Permutation_refl'. apply list_fmap_ext. intros k e _.
    unfold call_for. by rewrite His. }
  assert (∀ hiddenRaw hiddenArray,
            persisted = Some hiddenRaw → hiddenRaw ≠ EmptyString →
            JSON_parse hiddenRaw = Some hiddenArray →
            hidden vm' = JsSet.of_list hiddenArray
            ∧ ∀ i, isHidden i vm' = true ↔ i ∈ hiddenArray) as Hload.
  { intros raw arr Hget Hne Hparse.
    assert (hidden vm' = JsSet.of_list arr) as Heq
      by by rewrite Hh, (hidden_reloaded_from_storage vm raw arr).
    split; [done|]. intros i. unfold isHidden.
    by rewrite Heq, has_true, elem_of_of_list. }
  split; [done|]. split; [done|].
  split.
  { intros Hu. rewrite Hh. unfold unreadable in Hu. unfold restoreState.
    destruct (storage_get HIDDEN_ENTRIES_KEY GLOBAL (storageService vm))
      as [raw|]; [|done].
    destruct Hu as [->|Hp]; [done|].
    destruct (decide (raw = EmptyString)); [done|]. by rewrite Hp. }
  split; [by rewrite Hnew, Hvm'|]. split; [done|]. split.
  - intros A B C HAB HAC HBC Hold Hnew'. rewrite Hall.
    apply (calls_of_A_B_to_B_C vm vm' A B C); try done.
    + intros i. rewrite Hold, !elem_of_cons, elem_of_nil. tauto.
    + intros i. rewrite Hnew', !elem_of_cons, elem_of_nil. tauto.
  - intros A B C raw arr HAB HAC HBC Hold Hget Hne Hparse Harr.
    destruct (Hload raw arr Hget Hne Hparse) as [Heq Hmem].
    assert (∀ i, isHidden i vm' = true ↔ i = B ∨ i = C) as Hnow
      by (intros i; by rewrite Hmem).
    split; [done|]. rewrite Hall.
    apply (calls_of_A_B_to_B_C vm vm' A B C); try done.
    intros i. rewrite <- Hnow. symmetry. apply has_true.
Qed.

(** ** Hiding and showing *)

Section hide_show.
  Context `{JSON}.
  Implicit Types (vm : StatusbarViewModel) (i : string).

Lemma hide_effective vm i :
  isHidden i vm = false →
  ∃ d, hide i vm = saveState (set_dom d (set_hidden (hidden vm ++ [i]) vm))
       ∧ display_none d = list_to_set (containers_of i vm) ∪ display_none (dom vm)
       ∧ visibility_calls d
         = visibility_calls (dom vm) ++ (DomHide <$> containers_of i vm).
Proof.
  intros Hi. unfold hide. unfold isHidden in Hi. rewrite Hi. simpl.
  apply has_false in Hi. rewrite add_fresh by done.
  destruct (updateVisibility_id_frame i (set_hidden (hidden vm ++ [i]) vm))
    as (d & -> & Hd & Hc).
  exists d. split; [done|].
  assert (isHidden i (set_hidden (hidden vm ++ [i]) vm) = true) as Hnow.
  { apply has_true. simpl. rewrite elem_of_app, list_elem_of_singleton. by right. }
  rewrite Hnow in Hd, Hc. unfold containers_of. split; [done|].
  rewrite Hc. simpl. by rewrite <- list_fmap_compose.
Qed.

Lemma show_effective vm i :
  isHidden i vm = true →
  ∃ d, show i vm
       = saveState (set_dom d (set_hidden (JsSet.delete (hidden vm) i) vm))
       ∧ display_none d = display_none (dom vm) ∖ list_to_set (containers_of i vm)
       ∧ visibility_calls d
         = visibility_calls (dom vm) ++ (DomShow <$> containers_of i vm).
Proof.
  intros Hi. unfold show. unfold isHidden in Hi. rewrite Hi.
  destruct (updateVisibility_id_frame i
              (set_hidden (JsSet.delete (hidden vm) i) vm))
    as (d & -> & Hd & Hc).
  exists d. split; [done|].
  assert (isHidden i (set_hidden (JsSet.delete (hidden vm) i) vm) = false)
    as Hnow.
  { apply has_false. simpl. rewrite elem_of_delete. naive_solver. }
  rewrite Hnow in Hd, Hc. unfold containers_of. split; [done|].
  rewrite Hc. simpl. by rewrite <- list_fmap_compose.
Qed.

Lemma hide_noop vm i : isHidden i vm = true → hide i vm = vm.
Proof. intros Hi. unfold hide. unfold isHidden in Hi. by rewrite Hi. Qed.

Lemma show_noop vm i : isHidden i vm = false → show i vm = vm.
Proof. intros Hi. unfold show. unfold isHidden in Hi. by rewrite Hi. Qed.

Lemma isHidden_hide vm i : isHidden i (hide i vm) = true.
Proof.
  destruct (isHidden i vm) eqn:Hi; [by rewrite hide_noop|].
  destruct (hide_effective vm i Hi) as (d & -> & _).
  unfold isHidden. destruct (saveState_frame
    (set_dom d (set_hidden (hidden vm ++ [i]) vm))) as (_ & -> & _).
  apply has_true. simpl. rewrite elem_of_app, list_elem_of_singleton. by right.
Qed.

Lemma isHidden_show vm i : isHidden i (show i vm) = false.
Proof.
  destruct (isHidden i vm) eqn:Hi; [|by rewrite show_noop].
  destruct (show_effective vm i Hi) as (d & -> & _).
  unfold isHidden. destruct (saveState_frame
    (set_dom d (set_hidden (JsSet.delete (hidden vm) i) vm))) as (_ & -> & _).
  apply has_false. simpl. rewrite elem_of_delete. naive_solver.
Qed.

(** C10.  [hide] of an identifier that is hidden and [show] of one that is
    not leave the view model as it is: the hidden set, the storage and the
    record of its writes, and the elements with the record of the calls made
    on them.  Hence [hide] and [show] are idempotent. *)
Theorem hide_show_noop_and_idempotent vm i :
  (isHidden i vm = true → hide i vm = vm)
  ∧ (isHidden i vm = false → show i vm = vm)
  ∧ hide i (hide i vm) = hide i vm
  ∧ show i (show i vm) = show i vm.
Proof.
  split; [apply hide_noop|]. split; [apply show_noop|]. split.
  - apply hide_noop, isHidden_hide.
  - apply show_noop, isHidden_show.
Qed.

(** C6.  Whatever number of entries share an identifier: once the identifier
    has been hidden, one call of [show] makes the element of every one of
    them visible, and the identifier is no longer hidden. *)
Theorem show_reveals_every_entry_of_id vm i (e : IStatusbarViewModelEntry) :
  e ∈ entries vm → e_id e = i →
  let vm' := show i (hide i vm) in
  e ∈ entries vm'
  ∧ displayed (dom vm') (e_container e) = true
  ∧ isHidden i vm' = false.
Proof.
  intros He Hi vm'. unfold vm'.
  split; [by rewrite entries_show, entries_hide|].
  split; [|apply isHidden_show].
  destruct (show_effective (hide i vm) i (isHidden_hide vm i))
    as (d & -> & Hd & _).
  destruct (saveState_frame
    (set_dom d (set_hidden (JsSet.delete (hidden (hide i vm)) i) (hide i vm))))
    as (_ & _ & ->).
  unfold displayed. apply bool_decide_eq_true. simpl. rewrite Hd.
  apply not_elem_of_difference. right.
  apply elem_of_list_to_set. unfold containers_of.
  apply list_elem_of_fmap_2, list_elem_of_filter.
  by rewrite entries_hide.
Qed.
End hide_show.

(** ** Persistence *)

Section persistence.
  Context `{JSON}.
  Implicit Types (vm : StatusbarViewModel) (i : string).

Lemma size_pos (h : list string) : JsSet.size h > 0 ↔ h ≠ [].
Proof. unfold JsSet.size. destruct h; simpl; [|split; [done|lia]]. split; [lia|done]. Qed.

Lemma storageService_saveState vm :
  storageService (saveState vm)
  = if decide (hidden vm = [])
    then storage_remove HIDDEN_ENTRIES_KEY GLOBAL (storageService vm)
    else storage_store HIDDEN_ENTRIES_KEY (JSON_stringify (hidden vm)) GLOBAL
           (storageService vm).
Proof.
  unfold saveState. destruct (decide (JsSet.size (hidden vm) > 0)) as [Hs|Hs];
    rewrite size_pos in Hs.
  - by rewrite decide_False.
  - apply dec_stable in Hs. by rewrite decide_True.
Qed.

(** C7.  Persisting an empty hidden set removes the key from the storage:
    the only call is [remove], nothing is stored under the key.  Persisting
    a set that has members stores the JSON text of the list of its members.
    This is what an effective [hide] or [show] leaves in the storage. *)
Theorem saveState_removes_key_when_empty vm :
  let persisted (vm' : StatusbarViewModel) :=
    storage_get HIDDEN_ENTRIES_KEY GLOBAL (storageService vm') in
  (hidden vm = [] →
     persisted (saveState vm) = None
     ∧ writes (storageService (saveState vm))
       = writes (storageService vm) ++ [RemoveCall HIDDEN_ENTRIES_KEY GLOBAL])
  ∧ (hidden vm ≠ [] →
     persisted (saveState vm) = Some (JSON_stringify (hidden vm))
     ∧ writes (storageService (saveState vm))
       = writes (storageService vm)
           ++ [StoreCall HIDDEN_ENTRIES_KEY (JSON_stringify (hidden vm)) GLOBAL])
  ∧ (∀ i, isHidden i vm = true →
     persisted (show i vm)
     = if decide (hidden (show i vm) = []) then None
       else Some (JSON_stringify (hidden (show i vm))))
  ∧ (∀ i, isHidden i vm = false →
     persisted (hide i vm) = Some (JSON_stringify (hidden (hide i vm)))).
Proof.
  intros persisted. unfold persisted.
  assert (∀ vm0,
    storage_get HIDDEN_ENTRIES_KEY GLOBAL (storageService (saveState vm0))
    = if decide (hidden vm0 = []) then None
      else Some (JSON_stringify (hidden vm0))) as Hget.
  { intros vm0. rewrite storageService_saveState. case_decide; simpl.
    - apply lookup_delete_eq.
    - apply lookup_insert_eq. }
  split; [|split; [|split]].
  - intros Hh. rewrite Hget, storageService_saveState, !decide_True by done.
    done.
  - intros Hh. rewrite Hget, storageService_saveState, !decide_False by done.
    done.
  - intros i Hi. destruct (show_effective vm i Hi) as (d & -> & _).
    rewrite Hget.
    by destruct (saveState_frame (set_dom d
         (set_hidden (JsSet.delete (hidden vm) i) vm))) as (_ & -> & _).
  - intros i Hi. destruct (hide_effective vm i Hi) as (d & -> & _).
    rewrite Hget.
    destruct (saveState_frame (set_dom d
         (set_hidden (hidden vm ++ [i]) vm))) as (_ & -> & _).
    simpl. rewrite decide_False; [done|]. by destruct (hidden vm).
Qed.

(** C3, amended.  For an identifier that is not hidden, in a state where
    the visible entries are those that are not hidden and the storage holds
    the hidden set, [hide] followed by [show] gives back the hidden set, the
    visibility of every element and the content of the storage. *)
Theorem hide_then_show_restores vm i :
  isHidden i vm = false →
  visibility_invariant vm →
  storage_in_sync vm →
  let vm' := show i (hide i vm) in
  hidden vm' = hidden vm
  ∧ entries vm' = entries vm
  ∧ display_none (dom vm') = display_none (dom vm)
  ∧ global_store (storageService vm') = global_store (storageService vm)
  ∧ workspace_store (storageService vm') = workspace_store (storageService vm)
  ∧ hide_show_restores vm i.
Proof.
  intros Hi Hvis Hsync vm'.
  assert (hidden vm' = hidden vm ∧ entries vm' = entries vm
          ∧ display_none (dom vm') = display_none (dom vm)
          ∧ global_store (storageService vm') = global_store (storageService vm)
          ∧ workspace_store (storageService vm')
            = workspace_store (storageService vm)) as Hall.
  { unfold vm'.
    destruct (show_effective (hide i vm) i (isHidden_hide vm i))
      as (d2 & -> & Hd2 & _).
    destruct (hide_effective vm i Hi) as (d1 & Hhide & Hd1 & _).
    rewrite Hhide in *. clear Hhide.
    set (vm1 := set_dom d1 (set_hidden (hidden vm ++ [i]) vm)) in *.
    destruct (saveState_frame vm1) as (He1 & Hh1 & Hdom1).
    rewrite Hh1. rewrite Hdom1 in Hd2.
    unfold containers_of in Hd2. rewrite He1 in Hd2.
    change (hidden vm1) with (hidden vm ++ [i]) in *.
    change (entries vm1) with (entries vm) in *.
    change (dom vm1) with d1 in *.
    assert (i ∉ hidden vm) as Hfresh by by apply has_false.
    assert (JsSet.delete (hidden vm ++ [i]) i = hidden vm) as Hdel.
    { rewrite <- (add_fresh _ _ Hfresh). by apply delete_add_fresh. }
    rewrite Hdel.
    set (vm2 := set_dom d2 (set_hidden (hidden vm) (saveState vm1))).
    destruct (saveState_frame vm2) as (He2 & Hh2 & Hdom2).
    rewrite He2, Hh2, Hdom2, !storageService_saveState.
    change (hidden vm2) with (hidden vm).
    change (entries vm2) with (entries (saveState vm1)).
    change (dom vm2) with d2.
    change (storageService vm2) with (storageService (saveState vm1)).
    rewrite storageService_saveState.
    change (hidden vm1) with (hidden vm ++ [i]).
    change (storageService vm1) with (storageService vm).
    rewrite (decide_False (P := hidden vm ++ [i] = []))
      by by destruct (hidden vm).
    split; [done|]. split; [done|]. split.
    - rewrite Hd2, Hd1. fold (containers_of i vm).
      assert (∀ c, c ∈ containers_of i vm → c ∉ display_none (dom vm)) as Hc.
      { intros c (e & -> & [He Hin]%list_elem_of_filter)%list_elem_of_fmap.
        unfold visibility_invariant in Hvis. rewrite Forall_forall in Hvis.
        specialize (Hvis e Hin). simpl in Hvis. rewrite He, Hi in Hvis.
        unfold displayed in Hvis. by apply bool_decide_eq_true in Hvis. }
      apply set_eq. intros c.
      rewrite elem_of_difference, elem_of_union, elem_of_list_to_set.
      naive_solver.
    - unfold storage_in_sync in Hsync. simpl in Hsync.
      destruct (decide (hidden vm = [])); simpl.
      + split; [|done]. rewrite delete_insert_eq. by apply delete_id.
      + split; [|done]. rewrite insert_insert_eq. by apply insert_id. }
  destruct Hall as (Hh & He & Hd & Hg & Hw). repeat (split; [done|]).
  split.
  - intros e _ _. unfold displayed. fold vm'. by rewrite Hd.
  - simpl. fold vm'. by rewrite Hg.
Qed.
End persistence.

(** ** C2: the context menu *)

Lemma toggle_ids_app (l k : list IAction) :
  toggle_ids (l ++ k) = toggle_ids l ++ toggle_ids k.
Proof. unfold toggle_ids. apply omap_app. Qed.

(** The loop over the entries never adds to [handledEntries]: the menu gets
    one toggle action for every entry. *)
Lemma toggle_ids_getContextMenuActions `{JSON} target_chain vm :
  toggle_ids (getContextMenuActions target_chain vm) = e_id <$> entries vm.
Proof.
  unfold getContextMenuActions.
  set (f := λ '(actions, handledEntries) entry, _).
  assert (∀ es actions,
    foldl f (actions, []) es
    = (actions ++ ((λ entry, ToggleStatusbarEntryVisibilityAction
                               (e_id entry) (e_name entry)
                               (negb (isHidden (e_id entry) vm))) <$> es),
       [])) as Hf.
  { induction es as [|e es IH]; intros actions; simpl.
    - by rewrite app_nil_r.
    - rewrite IH, <- app_assoc. done. }
  rewrite Hf, !toggle_ids_app.
  assert (toggle_ids
            match entryUnderMouse target_chain vm with
            | Some statusEntryUnderMouse =>
                [HideStatusbarEntryAction (e_id statusEntryUnderMouse); Separator]
            | None => []
            end = []) as -> by by destruct (entryUnderMouse _ _).
  simpl. rewrite app_nil_r.
  generalize (entries vm). intros es. induction es as [|e es IH]; [done|].
  rewrite !fmap_cons.
  change (toggle_ids (?a :: ?l)) with (e_id e :: toggle_ids l).
  by rewrite IH.
Qed.

(** ** C5 and C9: the marker navigation widget *)

Lemma length_split_lines s :
  length (split_lines s) = S (count_terminators s).
Proof.
  assert (∀ n s, (String.length s ≤ n)%nat →
                 length (split_lines s) = S (count_terminators s)) as Hn.
  { clear s. induction n as [|n IH]; intros s Hs.
    - destruct s; [done|simpl in Hs; lia].
    - destruct s as [|c s]; [done|]. simpl in Hs.
      cbn [split_lines count_terminators].
      destruct (decide (c = CR)).
      + destruct s as [|c' s]; [done|]. simpl in Hs.
        destruct (decide (c' = LF)); cbn [length]; f_equal; apply IH;
          simpl; lia.
      + destruct (decide (c = LF)); [cbn [length]; f_equal; apply IH; lia|].
        specialize (IH s ltac:(lia)).
        destruct (split_lines s); simpl in *; [done|lia]. }
  by apply (Hn (String.length s)).
Qed.

Lemma lines_of_update marker w :
  _lines (MessageWidget_update marker w) = numberOfMessageLines marker.
Proof.
  unfold MessageWidget_update, numberOfMessageLines. simpl.
  rewrite length_split_lines.
  assert (∀ (rel : list IRelatedInformation) n,
            foldl (λ n _, n + 1) n rel = n + Z.of_nat (length rel)) as Hf.
  { induction rel as [|r rel IH]; intros n; simpl; [lia|]. rewrite IH. lia. }
  destruct (relatedInformation marker) as [[|r rel]|]; simpl; try lia.
  rewrite Hf. lia.
Qed.

(** C5.  After the widget has taken up a marker, the height it asks for is
    three lines more than the number of message lines, of which it counts
    seventeen at most: four lines for a message of one line without related
    information, twenty lines for a message of twenty lines.  [showAtMarker]
    shows the widget with that height. *)
Theorem required_height_is_capped (marker : IMarker) (w : MarkerNavigationWidget) :
  computeRequiredHeight (updateMarker marker w)
  = 3 + Z.min 17 (numberOfMessageLines marker)
  ∧ (∀ markerIdx markerCount editor w',
       showAtMarker marker markerIdx markerCount editor w = Ok w' →
       computeRequiredHeight w' = 3 + Z.min 17 (numberOfMessageLines marker)
       ∧ ∃ position, shown w' = Some (position, computeRequiredHeight w'))
  ∧ (count_terminators (message marker) = 0%nat →
     isNonEmptyArray (relatedInformation marker) = false →
     computeRequiredHeight (updateMarker marker w) = 4)
  ∧ (count_terminators (message marker) = 19%nat →
     computeRequiredHeight (updateMarker marker w) = 20).
Proof.
  assert (computeRequiredHeight (updateMarker marker w)
          = 3 + Z.min 17 (numberOfMessageLines marker)) as Hheight.
  { unfold computeRequiredHeight, getHeightInLines.
    cbn -[MessageWidget_update Z.min Z.add].
    by rewrite lines_of_update. }
  split; [done|]. split; [|split].
  - intros markerIdx markerCount editor w' [= <-].
    unfold computeRequiredHeight, getHeightInLines.
    cbn -[MessageWidget_update Z.min Z.add].
    rewrite lines_of_update. split; [done|]. by eexists.
  - intros Hone Hrel. rewrite Hheight. unfold numberOfMessageLines.
    rewrite Hone. destruct (relatedInformation marker) as [[|r rel]|]; done.
  - intros Htwenty. rewrite Hheight. unfold numberOfMessageLines.
    rewrite Htwenty. destruct (relatedInformation marker) as [[|r rel]|];
      simpl; lia.
Qed.

(** C9.  The entry point [show] of the marker widget throws for every
    position and every height, and so shows nothing; [showAtMarker] returns
    and shows the widget. *)
Theorem generic_show_throws (where_ : Position) (heightInLines : Z)
    (w : MarkerNavigationWidget) :
  MarkerNavigationWidget_show where_ heightInLines w = Throw "call showAtMarker"
  ∧ ∀ marker markerIdx markerCount editor,
      ∃ w' position,
        showAtMarker marker markerIdx markerCount editor w = Ok w'
        ∧ shown w' = Some (position, computeRequiredHeight w').
Proof.
  split; [done|]. intros marker markerIdx markerCount editor.
  eexists _, _. split; [reflexivity|]. done.
Qed.

(** ** C8: pending entries *)

Section pending.
  Context `{JSON}.
  Implicit Types (p : StatusbarPart) (r : nat).

Lemma queue_state_inv p p' :
  queue_state p' = queue_state p →
  element p' = element p ∧ pendingEntries p' = pendingEntries p
  ∧ objects p' = objects p.
Proof. unfold queue_state. by intros [= -> -> ->]. Qed.

Lemma doAddEntry_frame entry i name alignment priority p :
  queue_state (doAddEntry entry i name alignment priority p).2 = queue_state p
  ∧ next_ref (doAddEntry entry i name alignment priority p).2 = S (next_ref p).
Proof.
  unfold doAddEntry, doCreateStatusItem, appendOneStatusbarEntry. simpl.
  destruct (showBeak entry); simpl;
    match goal with
    | |- context [list_find ?P ?l] => destruct (list_find P l) as [[? ?]|]
    end; done.
Qed.

Lemma entry_update_frame e entry p :
  queue_state (entry_update e entry p) = queue_state p
  ∧ next_ref (entry_update e entry p) = next_ref p.
Proof. unfold entry_update. by destruct (showBeak entry). Qed.

Lemma entry_dispose_frame e p :
  queue_state (entry_dispose e p) = queue_state p
  ∧ next_ref (entry_dispose e p) = next_ref p.
Proof. done. Qed.

Lemma appendAllStatusbarEntries_frame p :
  queue_state (appendAllStatusbarEntries p) = queue_state p
  ∧ next_ref (appendAllStatusbarEntries p) = next_ref p.
Proof.
  unfold appendAllStatusbarEntries.
  generalize (getEntries LEFT (viewModel p)
                ++ reverse (getEntries RIGHT (viewModel p))).
  intros es. revert p. induction es as [|e es IH]; intros p; [done|].
  simpl. by destruct (IH (set_children
    (filter (λ c, c ≠ e_container e) (children p) ++ [e_container e]) p))
    as [-> ->].
Qed.

Lemma registry_loop_frame (registry_items : list IStatusbarItemDescriptor) p :
  queue_state (foldl createRegistryItem p registry_items) = queue_state p
  ∧ (next_ref p ≤ next_ref (foldl createRegistryItem p registry_items))%nat.
Proof.
  revert p. induction registry_items as [|item items IH]; intros p; [done|].
  cbn [foldl]. destruct (IH (createRegistryItem p item)) as [-> Hn].
  split; [done|].
  change (next_ref (createRegistryItem p item)) with (S (next_ref p)) in Hn.
  lia.
Qed.

Lemma pending_inv_frame r p p' :
  queue_state p' = queue_state p → (next_ref p ≤ next_ref p')%nat →
  pending_inv r p → pending_inv r p'.
Proof.
  intros (He & Hq & Ho)%queue_state_inv Hn (Hr & pending & Hp & Ha).
  split; [lia|]. exists pending. by rewrite Ho, He.
Qed.

Lemma disposed_inv_frame r p p' :
  queue_state p' = queue_state p → (next_ref p ≤ next_ref p')%nat →
  disposed_inv r p → disposed_inv r p'.
Proof.
  intros (He & Hq & Ho)%queue_state_inv Hn (Hr & Hnin & pending & Hp & Ha).
  split; [lia|]. split; [by rewrite Hq|]. exists pending. by rewrite Ho.
Qed.

Lemma addEntry_pending entry i name alignment priority p :
  element p = None →
  addEntry entry i name alignment priority p
  = (PendingAccessor (next_ref p),
     set_pendingEntries (pendingEntries p ++ [next_ref p])
       (set_objects
          (<[next_ref p :=
              {| p_id := i; p_name := name; p_entry := entry;
                 p_alignment := alignment; p_priority := priority;
                 p_accessor := None |}]> (objects p))
          (fresh p).2)).
Proof. intros He. unfold addEntry. by rewrite decide_True. Qed.

Lemma addEntry_pending_inv r entry i name alignment priority p :
  pending_inv r p →
  pending_inv r (addEntry entry i name alignment priority p).2.
Proof.
  intros Hinv. destruct (element p) eqn:He.
  - unfold addEntry. rewrite decide_False by by rewrite He.
    destruct (doAddEntry_frame entry i name alignment priority p) as [Hq Hn].
    eapply pending_inv_frame; [exact Hq|lia|done].
  - rewrite addEntry_pending by done.
    destruct Hinv as (Hr & pending & Hp & Ha).
    split; [simpl; lia|]. exists pending. simpl.
    rewrite lookup_insert_ne by lia. done.
Qed.

Lemma addEntry_disposed_inv r entry i name alignment priority p :
  disposed_inv r p →
  disposed_inv r (addEntry entry i name alignment priority p).2.
Proof.
  intros Hinv. destruct (element p) eqn:He.
  - unfold addEntry. rewrite decide_False by by rewrite He.
    destruct (doAddEntry_frame entry i name alignment priority p) as [Hq Hn].
    eapply disposed_inv_frame; [exact Hq|lia|done].
  - rewrite addEntry_pending by done.
    destruct Hinv as (Hr & Hnin & pending & Hp & Ha).
    split; [simpl; lia|]. simpl. split.
    + rewrite not_elem_of_app, list_elem_of_singleton. split; [done|lia].
    + exists pending. rewrite lookup_insert_ne by lia. done.
Qed.

Lemma element_addEntry entry i name alignment priority p :
  element (addEntry entry i name alignment priority p).2 = element p.
Proof.
  destruct (element p) eqn:He.
  - unfold addEntry. rewrite decide_False by by rewrite He.
    destruct (doAddEntry_frame entry i name alignment priority p) as [Hq _].
    by apply queue_state_inv in Hq as (-> & _).
  - by rewrite addEntry_pending.
Qed.

Lemma accessor_update_pending_inv r a entry p :
  pending_inv r p → pending_inv r (accessor_update a entry p).
Proof.
  intros Hinv. destruct a as [r'|e]; simpl.
  - destruct (objects p !! r') as [pending'|] eqn:Hr'; [|done].
    destruct (p_accessor pending') as [[?|e]|] eqn:Ha'; [done| |].
    + destruct (entry_update_frame e entry p) as [Hq Hn].
      eapply pending_inv_frame; [exact Hq|lia|done].
    + destruct Hinv as (Hr & pending & Hp & Ha). split; [done|]. simpl.
      destruct (decide (r' = r)) as [->|Hne].
      * rewrite lookup_insert_eq. by eexists.
      * rewrite lookup_insert_ne by done. by exists pending.
  - destruct (entry_update_frame e entry p) as [Hq Hn].
    eapply pending_inv_frame; [exact Hq|lia|done].
Qed.

Lemma accessor_update_disposed_inv r a entry p :
  disposed_inv r p → disposed_inv r (accessor_update a entry p).
Proof.
  intros Hinv. destruct a as [r'|e]; simpl.
  - destruct (objects p !! r') as [pending'|] eqn:Hr'; [|done].
    destruct (p_accessor pending') as [[?|e]|] eqn:Ha'; [done| |].
    + destruct (entry_update_frame e entry p) as [Hq Hn].
      eapply disposed_inv_frame; [exact Hq|lia|done].
    + destruct Hinv as (Hr & Hnin & pending & Hp & Ha).
      split; [done|]. split; [done|]. simpl.
      destruct (decide (r' = r)) as [->|Hne].
      * rewrite lookup_insert_eq. by eexists.
      * rewrite lookup_insert_ne by done. by exists pending.
  - destruct (entry_update_frame e entry p) as [Hq Hn].
    eapply disposed_inv_frame; [exact Hq|lia|done].
Qed.

Lemma accessor_dispose_pending_inv r a p :
  pending_inv r p → pending_inv r (accessor_dispose a p).
Proof.
  intros Hinv. destruct a as [r'|e]; simpl; [|done].
  destruct (objects p !! r') as [pending'|]; [|done].
  by destruct (p_accessor pending') as [[?|e]|].
Qed.

Lemma accessor_dispose_disposed_inv r a p :
  disposed_inv r p → disposed_inv r (accessor_dispose a p).
Proof.
  intros Hinv. destruct a as [r'|e]; simpl; [|done].
  destruct (objects p !! r') as [pending'|]; [|done].
  destruct (p_accessor pending') as [[?|e]|]; [done..|].
  destruct Hinv as (Hr & Hnin & Hp). split; [done|]. split; [|done].
  simpl. rewrite list_elem_of_filter. naive_solver.
Qed.

Lemma element_fillPendingEntries fuel p :
  element (fillPendingEntries fuel p) = element p.
Proof.
  revert p. induction fuel as [|fuel IH]; intros p; [done|]. simpl.
  destruct (pendingEntries p) as [|r0 rest]; [done|].
  destruct (objects p !! r0) as [pending0|]; [|by rewrite IH].
  destruct (addEntry _ _ _ _ _ _) as [accessor p2] eqn:Hadd.
  rewrite IH. simpl.
  change p2 with (accessor, p2).2. rewrite <- Hadd.
  by rewrite element_addEntry.
Qed.

(** The loop runs until the queue is empty: the fuel it is given suffices. *)
Lemma fillPendingEntries_empties fuel p :
  element p ≠ None → (length (pendingEntries p) ≤ fuel)%nat →
  pendingEntries (fillPendingEntries fuel p) = [].
Proof.
  revert p. induction fuel as [|fuel IH]; intros p He Hlen.
  - simpl. destruct (pendingEntries p); [done|simpl in Hlen; lia].
  - simpl. destruct (pendingEntries p) as [|r0 rest] eqn:Hq; [done|].
    simpl in Hlen.
    destruct (objects p !! r0) as [pending0|]; [|by apply IH; [|simpl; lia]].
    unfold addEntry. rewrite decide_False by done.
    destruct (doAddEntry _ _ _ _ _ _) as [accessor p2] eqn:Hadd.
    pose proof (doAddEntry_frame (p_entry pending0) (p_id pending0)
                  (p_name pending0) (p_alignment pending0)
                  (p_priority pending0) (set_pendingEntries rest p)) as [Hf _].
    rewrite Hadd in Hf. apply queue_state_inv in Hf as (He2 & Hq2 & _).
    simpl in He2, Hq2.
    apply IH; simpl; [by rewrite He2|rewrite Hq2; lia].
Qed.

Lemma addEntry_allocated r entry i name alignment priority p :
  allocated r p → allocated r (addEntry entry i name alignment priority p).2.
Proof.
  intros [Hr Ho]. destruct (element p) eqn:He.
  - unfold addEntry. rewrite decide_False by by rewrite He.
    destruct (doAddEntry_frame entry i name alignment priority p) as [Hq Hn].
    apply queue_state_inv in Hq as (_ & _ & Hobj).
    split; [lia|by rewrite Hobj].
  - rewrite addEntry_pending by done. split; [simpl; lia|]. simpl.
    by rewrite lookup_insert_ne by lia.
Qed.

Lemma fillPendingEntries_allocated r fuel p :
  allocated r p → allocated r (fillPendingEntries fuel p).
Proof.
  revert p. induction fuel as [|fuel IH]; intros p Ha; [done|]. simpl.
  destruct (pendingEntries p) as [|r0 rest]; [done|].
  destruct (objects p !! r0) as [pending0|] eqn:H0; [|by apply IH].
  destruct (addEntry _ _ _ _ _ _) as [accessor p2] eqn:Hadd.
  assert (allocated r p2) as [Hr2 Ho2].
  { change p2 with (accessor, p2).2. rewrite <- Hadd.
    by apply addEntry_allocated. }
  apply IH. split; [done|]. simpl.
  destruct (decide (r0 = r)) as [->|Hne].
  - by rewrite lookup_insert_eq.
  - by rewrite lookup_insert_ne.
Qed.

Lemma fillPendingEntries_disposed_inv r fuel p :
  disposed_inv r p → disposed_inv r (fillPendingEntries fuel p).
Proof.
  revert p. induction fuel as [|fuel IH]; intros p Hinv; [done|]. simpl.
  destruct (pendingEntries p) as [|r0 rest] eqn:Hq; [done|].
  assert (r0 ≠ r ∧ disposed_inv r (set_pendingEntries rest p)) as [Hne Hinv1].
  { destruct Hinv as (Hr & Hnin & Hp). rewrite Hq in Hnin.
    apply not_elem_of_cons in Hnin as [? ?]. by repeat split. }
  destruct (objects p !! r0) as [pending0|]; [|by apply IH].
  destruct (addEntry _ _ _ _ _ _) as [accessor p2] eqn:Hadd.
  assert (disposed_inv r p2) as (Hr2 & Hnin2 & pending2 & Hp2 & Ha2).
  { change p2 with (accessor, p2).2. rewrite <- Hadd.
    by apply addEntry_disposed_inv. }
  apply IH. split; [done|]. split; [done|]. exists pending2. simpl.
  by rewrite lookup_insert_ne.
Qed.

Lemma createContentArea_pending_inv r parent registry_items p :
  pending_inv r p → pending_inv r (createContentArea parent registry_items p).
Proof.
  intros (Hr & pending & Hp & _).
  unfold createContentArea, createInitialStatusbarEntries.
  set (p1 := appendAllStatusbarEntries _).
  assert (queue_state p1 = queue_state (set_element (Some parent) p)
          ∧ (next_ref p ≤ next_ref p1)%nat) as [Hq Hn].
  { unfold p1. destruct (appendAllStatusbarEntries_frame
      (foldl createRegistryItem (set_element (Some parent) p) registry_items))
      as [-> ->].
    destruct (registry_loop_frame registry_items (set_element (Some parent) p))
      as [Hq2 Hn2].
    split; [exact Hq2|exact Hn2]. }
  apply queue_state_inv in Hq as (He & _ & Ho).
  destruct (fillPendingEntries_allocated r (length (pendingEntries p1)) p1)
    as [Hr' [pending' Hp']].
  { split; [lia|]. rewrite Ho. by eexists. }
  split; [done|]. exists pending'. split; [done|].
  rewrite element_fillPendingEntries, He. done.
Qed.

Lemma createContentArea_disposed_inv r parent registry_items p :
  disposed_inv r p → disposed_inv r (createContentArea parent registry_items p).
Proof.
  intros Hinv. unfold createContentArea, createInitialStatusbarEntries.
  apply fillPendingEntries_disposed_inv.
  destruct (appendAllStatusbarEntries_frame
      (foldl createRegistryItem (set_element (Some parent) p) registry_items))
      as [Hq1 Hn1].
  destruct (registry_loop_frame registry_items (set_element (Some parent) p))
    as [Hq2 Hn2].
  eapply disposed_inv_frame; [exact Hq1|lia|].
  eapply disposed_inv_frame; [exact Hq2|lia|].
  destruct Hinv as (Hr & Hnin & Hp). by repeat split.
Qed.

Lemma createContentArea_empties parent registry_items p :
  pendingEntries (createContentArea parent registry_items p) = [].
Proof.
  unfold createContentArea, createInitialStatusbarEntries.
  apply fillPendingEntries_empties; [|done].
  destruct (appendAllStatusbarEntries_frame
      (foldl createRegistryItem (set_element (Some parent) p) registry_items))
      as [Hq1 _].
  destruct (registry_loop_frame registry_items (set_element (Some parent) p))
    as [Hq2 _].
  apply queue_state_inv in Hq1 as (-> & _).
  apply queue_state_inv in Hq2 as (-> & _). done.
Qed.

Lemma updateEntryVisibility_frame i visible p :
  queue_state (updateEntryVisibility i visible p) = queue_state p
  ∧ next_ref (updateEntryVisibility i visible p) = next_ref p.
Proof. unfold updateEntryVisibility. by destruct visible. Qed.

Lemma part_step_pending_inv r p op :
  pending_inv r p → pending_inv r (part_step p op).
Proof.
  intros Hinv. destruct op as [entry i name al prio|a entry|a|i visible|parent items];
    simpl.
  - by apply addEntry_pending_inv.
  - by apply accessor_update_pending_inv.
  - by apply accessor_dispose_pending_inv.
  - destruct (updateEntryVisibility_frame i visible p) as [Hq Hn].
    eapply pending_inv_frame; [exact Hq|lia|done].
  - by apply createContentArea_pending_inv.
Qed.

Lemma part_step_disposed_inv r p op :
  disposed_inv r p → disposed_inv r (part_step p op).
Proof.
  intros Hinv. destruct op as [entry i name al prio|a entry|a|i visible|parent items];
    simpl.
  - by apply addEntry_disposed_inv.
  - by apply accessor_update_disposed_inv.
  - by apply accessor_dispose_disposed_inv.
  - destruct (updateEntryVisibility_frame i visible p) as [Hq Hn].
    eapply disposed_inv_frame; [exact Hq|lia|done].
  - by apply createContentArea_disposed_inv.
Qed.

Lemma part_run_pending_inv r ops p :
  pending_inv r p → pending_inv r (part_run ops p).
Proof.
  revert p. induction ops as [|op ops IH]; intros p Hinv; [done|].
  apply IH. by apply part_step_pending_inv.
Qed.

Lemma part_run_disposed_inv r ops p :
  disposed_inv r p → disposed_inv r (part_run ops p).
Proof.
  revert p. induction ops as [|op ops IH]; intros p Hinv; [done|].
  apply IH. by apply part_step_disposed_inv.
Qed.

Lemma disposed_inv_not_realized r p :
  disposed_inv r p → r ∉ pendingEntries p ∧ ¬ realized r p.
Proof.
  intros (_ & Hnin & pending & Hp & Ha). split; [done|].
  intros (pending' & Hp' & [a Ha']). congruence.
Qed.
End pending.

(** *** What the queue becomes when the container is created *)

Section realization.
  Context `{JSON}.
  Implicit Types (p : StatusbarPart) (r : nat).

Lemma forwards_to_entries_frame p p' :
  queue_state p' = queue_state p → forwards_to_entries p →
  forwards_to_entries p'.
Proof.
  intros (_ & _ & Ho)%queue_state_inv Hf r pending a. rewrite Ho. apply Hf.
Qed.

Lemma doAddEntry_accessor entry i name alignment priority p :
  ∃ viewModelEntry,
    (doAddEntry entry i name alignment priority p).1
    = EntryAccessor viewModelEntry.
Proof. unfold doAddEntry, doCreateStatusItem. simpl. by eexists. Qed.

Lemma fillPendingEntries_forwards fuel p :
  element p ≠ None → forwards_to_entries p →
  forwards_to_entries (fillPendingEntries fuel p).
Proof.
  revert p. induction fuel as [|fuel IH]; intros p He Hf; [done|]. simpl.
  destruct (pendingEntries p) as [|r0 rest]; [done|].
  destruct (objects p !! r0) as [pending0|] eqn:H0; [|by apply IH].
  unfold addEntry. rewrite decide_False by done.
  destruct (doAddEntry_accessor (p_entry pending0) (p_id pending0)
              (p_name pending0) (p_alignment pending0) (p_priority pending0)
              (set_pendingEntries rest p)) as [e He'].
  destruct (doAddEntry_frame (p_entry pending0) (p_id pending0)
              (p_name pending0) (p_alignment pending0) (p_priority pending0)
              (set_pendingEntries rest p)) as [Hq _].
  destruct (doAddEntry _ _ _ _ _ _) as [accessor p2]. simpl in He', Hq.
  apply queue_state_inv in Hq as (He2 & _ & Ho2). simpl in He2, Ho2.
  apply IH; [simpl; by rewrite He2|].
  intros r pending a. simpl. rewrite Ho2.
  destruct (decide (r0 = r)) as [->|Hne].
  - rewrite lookup_insert_eq. intros [= <-]. simpl. intros [= <-]. by exists e.
  - rewrite lookup_insert_ne by done. apply Hf.
Qed.

Lemma part_step_forwards p op :
  forwards_to_entries p → forwards_to_entries (part_step p op).
Proof.
  intros Hf. destruct op as [entry i name al prio|a entry|a|i visible|parent items];
    simpl.
  - destruct (element p) eqn:He.
    + unfold addEntry. rewrite decide_False by by rewrite He.
      destruct (doAddEntry_frame entry i name al prio p) as [Hq _].
      by eapply forwards_to_entries_frame.
    + rewrite addEntry_pending by done. intros r pending a. simpl.
      destruct (decide (next_ref p = r)) as [->|Hne].
      * rewrite lookup_insert_eq. by intros [= <-].
      * rewrite lookup_insert_ne by done. apply Hf.
  - destruct a as [r'|e]; simpl.
    + destruct (objects p !! r') as [pending'|] eqn:Hr'; [|done].
      destruct (p_accessor pending') as [[?|e]|] eqn:Ha'; [done| |].
      * destruct (entry_update_frame e entry p) as [Hq _].
        by eapply forwards_to_entries_frame.
      * intros r pending a. simpl.
        destruct (decide (r' = r)) as [->|Hne].
        -- rewrite lookup_insert_eq. by intros [= <-].
        -- rewrite lookup_insert_ne by done. apply Hf.
    + destruct (entry_update_frame e entry p) as [Hq _].
      by eapply forwards_to_entries_frame.
  - destruct a as [r'|e]; simpl; [|done].
    destruct (objects p !! r') as [pending'|]; [|done].
    by destruct (p_accessor pending') as [[?|e]|].
  - destruct (updateEntryVisibility_frame i visible p) as [Hq _].
    by eapply forwards_to_entries_frame.
  - unfold createContentArea, createInitialStatusbarEntries.
    destruct (appendAllStatusbarEntries_frame
      (foldl createRegistryItem (set_element (Some parent) p) items))
      as [Hq1 _].
    destruct (registry_loop_frame items (set_element (Some parent) p))
      as [Hq2 _].
    apply fillPendingEntries_forwards.
    + apply queue_state_inv in Hq1 as (-> & _).
      apply queue_state_inv in Hq2 as (-> & _). done.
    + eapply forwards_to_entries_frame; [exact Hq1|].
      eapply forwards_to_entries_frame; [exact Hq2|]. done.
Qed.

(** In every state that the part reaches, the accessor of a pending entry
    forwards to an accessor of [doAddEntry]: the case that
    [accessor_update] and [accessor_dispose] leave out does not arise. *)
Lemma accessor_of_pending_is_entry storage d ops :
  forwards_to_entries (part_run ops (new_StatusbarPart storage d)).
Proof.
  assert (∀ p, forwards_to_entries p → forwards_to_entries (part_run ops p))
    as Hrun.
  { induction ops as [|op ops IH]; intros p Hf; [done|].
    apply IH. by apply part_step_forwards. }
  apply Hrun. intros r pending a. simpl. by rewrite lookup_empty.
Qed.

Lemma fillPendingEntries_realized r fuel p :
  element p ≠ None → realized r p → realized r (fillPendingEntries fuel p).
Proof.
  revert p. induction fuel as [|fuel IH]; intros p He Hr; [done|]. simpl.
  destruct (pendingEntries p) as [|r0 rest]; [done|].
  destruct (objects p !! r0) as [pending0|] eqn:H0; [|by apply IH].
  unfold addEntry. rewrite decide_False by done.
  destruct (doAddEntry_frame (p_entry pending0) (p_id pending0)
              (p_name pending0) (p_alignment pending0) (p_priority pending0)
              (set_pendingEntries rest p)) as [Hq _].
  destruct (doAddEntry _ _ _ _ _ _) as [accessor p2]. simpl in Hq.
  apply queue_state_inv in Hq as (He2 & _ & Ho2). simpl in He2, Ho2.
  apply IH; [simpl; by rewrite He2|].
  destruct Hr as (pending & Hp & Ha). unfold realized. simpl. rewrite Ho2.
  destruct (decide (r0 = r)) as [->|Hne].
  - rewrite lookup_insert_eq. eexists. split; [done|]. by eexists.
  - rewrite lookup_insert_ne by done. by exists pending.
Qed.

(** The entries that wait in the queue when the container is created are
    realized, every one of them. *)
Lemma fillPendingEntries_realizes r fuel p :
  element p ≠ None → (length (pendingEntries p) ≤ fuel)%nat →
  r ∈ pendingEntries p → is_Some (objects p !! r) →
  realized r (fillPendingEntries fuel p).
Proof.
  revert p. induction fuel as [|fuel IH]; intros p He Hlen Hin Ho.
  - destruct (pendingEntries p); [by apply elem_of_nil in Hin|simpl in Hlen; lia].
  - simpl. destruct (pendingEntries p) as [|r0 rest] eqn:Hq;
      [by apply elem_of_nil in Hin|]. simpl in Hlen.
    destruct (decide (r0 = r)) as [->|Hne].
    + destruct Ho as [pending Hp]. rewrite Hp.
      unfold addEntry. rewrite decide_False by done.
      destruct (doAddEntry_frame (p_entry pending) (p_id pending)
                  (p_name pending) (p_alignment pending) (p_priority pending)
                  (set_pendingEntries rest p)) as [Hf _].
      destruct (doAddEntry _ _ _ _ _ _) as [accessor p2]. simpl in Hf.
      apply queue_state_inv in Hf as (He2 & _ & Ho2). simpl in He2, Ho2.
      apply fillPendingEntries_realized; [simpl; by rewrite He2|].
      unfold realized. simpl. rewrite lookup_insert_eq.
      eexists. split; [done|]. by eexists.
    + apply elem_of_cons in Hin as [?|Hin]; [done|].
      destruct (objects p !! r0) as [pending0|] eqn:H0.
      * unfold addEntry. rewrite decide_False by done.
        destruct (doAddEntry_frame (p_entry pending0) (p_id pending0)
                    (p_name pending0) (p_alignment pending0)
                    (p_priority pending0) (set_pendingEntries rest p))
          as [Hf _].
        destruct (doAddEntry _ _ _ _ _ _) as [accessor p2]. simpl in Hf.
        apply queue_state_inv in Hf as (He2 & Hq2 & Ho2).
        simpl in He2, Hq2, Ho2.
        apply IH; simpl; [by rewrite He2|rewrite Hq2; lia|by rewrite Hq2|].
        rewrite Ho2, lookup_insert_ne by done. done.
      * apply IH; simpl; [done|lia|done|done].
Qed.

Lemma createContentArea_realizes r parent registry_items p :
  r ∈ pendingEntries p → is_Some (objects p !! r) →
  realized r (createContentArea parent registry_items p).
Proof.
  intros Hin Ho. unfold createContentArea, createInitialStatusbarEntries.
  destruct (appendAllStatusbarEntries_frame
    (foldl createRegistryItem (set_element (Some parent) p) registry_items))
    as [Hq1 _].
  destruct (registry_loop_frame registry_items (set_element (Some parent) p))
    as [Hq2 _].
  apply queue_state_inv in Hq1 as (He1 & Hp1 & Ho1).
  apply queue_state_inv in Hq2 as (He2 & Hp2 & Ho2).
  apply fillPendingEntries_realizes; [|done|..].
  - by rewrite He1, He2.
  - by rewrite Hp1, Hp2.
  - by rewrite Ho1, Ho2.
Qed.
End realization.

(** ** The codec reads what it writes *)

Section codec_facts.
  Import Codec.

Lemma string_app_cons x (a b : string) : String x a +:+ b = String x (a +:+ b).
Proof. reflexivity. Qed.

Lemma string_app_assoc (a b c : string) : (a +:+ b) +:+ c = a +:+ (b +:+ c).
Proof. induction a as [|x a IH]; [done|]. by rewrite !string_app_cons, IH. Qed.

Lemma string_length_app (a b : string) :
  String.length (a +:+ b) = (String.length a + String.length b)%nat.
Proof.
  induction a as [|x a IH]; [done|]. rewrite string_app_cons. simpl. by rewrite IH.
Qed.

Lemma parse_chars_quote_char c tail :
  parse_chars (quote_char c +:+ tail) = prepend c <$> parse_chars tail.
Proof. destruct c as [[] [] [] [] [] [] [] []]; reflexivity. Qed.

Lemma parse_chars_quote_chars s rest :
  parse_chars (quote_chars s +:+ String dq rest) = Some (s, rest).
Proof.
  induction s as [|c s IH]; [done|].
  cbn [quote_chars]. by rewrite string_app_assoc, parse_chars_quote_char, IH.
Qed.

Lemma quote_app s tail :
  quote s +:+ tail = String dq (quote_chars s +:+ String dq tail).
Proof. unfold quote. by rewrite string_app_cons, string_app_assoc. Qed.

Lemma parse_elements_join x l fuel :
  (length l < fuel)%nat →
  parse_elements fuel (join (quote <$> x :: l) +:+ "]") = Some (x :: l).
Proof.
  revert x fuel. induction l as [|y l IH]; intros x [|fuel] Hfuel; try lia.
  - cbn [fmap list_fmap join]. rewrite quote_app. cbn [parse_elements skip_ws].
    change (is_ws dq) with false. cbn iota.
    destruct (decide (dq = dq)) as [_|?]; [|done].
    rewrite parse_chars_quote_chars. done.
  - change (join (quote <$> x :: y :: l))
      with (quote x +:+ "," +:+ join (quote <$> y :: l)).
    rewrite string_app_assoc, quote_app. cbn [parse_elements skip_ws].
    change (is_ws dq) with false. cbn iota.
    destruct (decide (dq = dq)) as [_|?]; [|done].
    rewrite parse_chars_quote_chars.
    change (("," +:+ join (quote <$> y :: l)) +:+ "]")
      with (String "," (join (quote <$> y :: l) +:+ "]")).
    cbn [skip_ws]. change (is_ws ",") with false. cbn iota.
    destruct (decide (","%char = ","%char)) as [_|?]; [|done].
    rewrite IH by (simpl in Hfuel; lia). done.
Qed.

Lemma length_join_quote l :
  (length l ≤ String.length (join (quote <$> l)))%nat.
Proof.
  induction l as [|x [|y l] IH]; [done|simpl; lia|].
  change (join (quote <$> x :: y :: l))
    with (quote x +:+ "," +:+ join (quote <$> y :: l)).
  rewrite !string_length_app. simpl in *. lia.
Qed.

(** [JSON.parse(JSON.stringify(array))] is the array. *)
Lemma parse_stringify (l : list string) :
  JSON_parse (JSON_stringify l) = Some l.
Proof.
  simpl. unfold parse_array, stringify_array.
  change ("[" +:+ join (quote <$> l) +:+ "]")
    with (String "[" (join (quote <$> l) +:+ "]")).
  cbn [skip_ws]. change (is_ws "[") with false. cbn iota.
  destruct (decide ("["%char = "["%char)) as [_|?]; [|done].
  destruct l as [|x l]; [done|].
  assert (∃ tail, join (quote <$> x :: l) +:+ "]" = String dq tail) as [tail Ht].
  { destruct l; cbn [fmap list_fmap join]; rewrite quote_app; by eexists. }
  rewrite Ht. cbn [skip_ws]. change (is_ws dq) with false. cbn iota.
  destruct (decide (dq = "]"%char)) as [?|_]; [done|]. rewrite <- Ht.
  apply parse_elements_join.
  pose proof (length_join_quote (x :: l)) as Hlen.
  cbn [String.length]. rewrite string_length_app. simpl in *. lia.
Qed.
End codec_facts.

(** ** The hidden set survives a restart *)

Section restart.
  Context `{JSON}.
  Hypothesis parse_stringify_id :
    ∀ l : list string, JSON_parse (JSON_stringify l) = Some l.
  Hypothesis stringify_not_empty :
    ∀ l : list string, JSON_stringify l ≠ EmptyString.

Lemma of_list_NoDup {A} `{EqDecision A} (l : list A) :
  NoDup l → JsSet.of_list l = l.
Proof.
  unfold JsSet.of_list.
  assert (∀ s, NoDup (s ++ l) → foldl JsSet.add s l = s ++ l) as Hf.
  { induction l as [|x l IH]; intros s Hnd; simpl; [by rewrite app_nil_r|].
    rewrite add_fresh.
    - rewrite IH, <- app_assoc; [done|]. by rewrite <- app_assoc.
    - apply NoDup_app in Hnd as (_ & Hnd & _). intros Hx.
      apply (Hnd x Hx). by left. }
  intros Hnd. by apply (Hf []).
Qed.

(** A view model that is built over the storage which [saveState] has left
    starts with the hidden set that was saved, and the storage holds it. *)
Lemma restoreState_saveState (vm : StatusbarViewModel) (d : Dom) :
  NoDup (hidden vm) →
  let vm' := new_StatusbarViewModel (storageService (saveState vm)) d in
  hidden vm' = hidden vm ∧ storage_in_sync vm'.
Proof.
  intros Hnd vm'.
  assert (hidden vm' = hidden vm) as Hh.
  { unfold vm', new_StatusbarViewModel, restoreState. simpl.
    rewrite storageService_saveState.
    destruct (decide (hidden vm = [])) as [Hnil|Hne]; simpl.
    - by rewrite lookup_delete_eq.
    - rewrite lookup_insert_eq, decide_False by apply stringify_not_empty.
      rewrite parse_stringify_id. by apply of_list_NoDup. }
  split; [done|]. unfold storage_in_sync. rewrite Hh.
  unfold vm'. simpl. rewrite storageService_saveState.
  destruct (decide (hidden vm = [])); simpl.
  - apply lookup_delete_eq.
  - apply lookup_insert_eq.
Qed.
End restart.

(** * Further properties of the view model *)

Section view_model_more.
  Context `{JSON}.
  Implicit Types (vm : StatusbarViewModel) (i : string)
    (entry : IStatusbarViewModelEntry).

Lemma storageService_markFirstLastVisibleEntry vm :
  storageService (markFirstLastVisibleEntry vm) = storageService vm
  ∧ hidden (markFirstLastVisibleEntry vm) = hidden vm.
Proof. by destruct (markFirstLastVisibleEntry_frame vm) as (d & -> & _). Qed.

Lemma storageService_updateVisibility_entry entry vm :
  storageService (updateVisibility_entry entry vm) = storageService vm
  ∧ hidden (updateVisibility_entry entry vm) = hidden vm.
Proof. by destruct (updateVisibility_entry_frame entry vm) as (d & -> & _). Qed.

Lemma storageService_add entry vm :
  storageService (add entry vm) = storageService vm
  ∧ hidden (add entry vm) = hidden vm.
Proof.
  unfold add, sort.
  destruct (storageService_markFirstLastVisibleEntry
    (set_entries (Array_sort compareEntries (entries (updateVisibility_entry
       entry (set_entries (entries vm ++ [entry]) vm))))
       (updateVisibility_entry entry (set_entries (entries vm ++ [entry]) vm))))
    as [-> ->]. simpl.
  by destruct (storageService_updateVisibility_entry entry
                 (set_entries (entries vm ++ [entry]) vm)) as [-> ->].
Qed.

Lemma storageService_remove entry vm :
  storageService (remove entry vm) = storageService vm
  ∧ hidden (remove entry vm) = hidden vm.
Proof.
  unfold remove. case_decide; [|done].
  by destruct (storageService_markFirstLastVisibleEntry
    (set_entries (remove_first entry (entries vm)) vm)) as [-> ->].
Qed.

Lemma storageService_onDidStorageChange event vm :
  storageService (onDidStorageChange event vm) = storageService vm.
Proof.
  destruct (decide (event_key event = HIDDEN_ENTRIES_KEY
                    ∧ event_scope event = GLOBAL)) as [[Hk Hs]|Hne].
  - destruct event as [k s]. simpl in *. subst. fold the_event.
    by destruct (onDidStorageChange_spec vm) as (d & calls & -> & _).
  - by rewrite onDidStorageChange_other.
Qed.

Lemma writes_own_key_refl s : writes_own_key s s.
Proof.
  exists []. rewrite app_nil_r. repeat split; [simpl; lia|constructor].
Qed.

Lemma writes_own_key_saveState vm :
  writes_own_key (storageService vm) (storageService (saveState vm)).
Proof.
  rewrite storageService_saveState. destruct (decide (hidden vm = [])); simpl.
  - exists [RemoveCall HIDDEN_ENTRIES_KEY GLOBAL].
    repeat split; [simpl; lia|by repeat constructor|].
    intros key Hk. simpl. by rewrite lookup_delete_ne.
  - exists [StoreCall HIDDEN_ENTRIES_KEY (JSON_stringify (hidden vm)) GLOBAL].
    repeat split; [simpl; lia|by repeat constructor|].
    intros key Hk. simpl. by rewrite lookup_insert_ne.
Qed.

Lemma writes_own_key_hide i vm :
  writes_own_key (storageService vm) (storageService (hide i vm)).
Proof.
  destruct (isHidden i vm) eqn:Hi.
  - rewrite hide_noop by done. apply writes_own_key_refl.
  - destruct (hide_effective vm i Hi) as (d & -> & _).
    apply (writes_own_key_saveState
             (set_dom d (set_hidden (hidden vm ++ [i]) vm))).
Qed.

Lemma writes_own_key_show i vm :
  writes_own_key (storageService vm) (storageService (show i vm)).
Proof.
  destruct (isHidden i vm) eqn:Hi.
  - destruct (show_effective vm i Hi) as (d & -> & _).
    apply (writes_own_key_saveState
             (set_dom d (set_hidden (JsSet.delete (hidden vm) i) vm))).
  - rewrite show_noop by done. apply writes_own_key_refl.
Qed.

(** X1.  The view model writes to the storage in [saveState] only:
    [add], the disposal of an entry and the handler of a storage change leave
    the storage service as it is, also the record of its writes; [hide] and
    [show] make at most one write, a [store] or a [remove] of the key of the
    hidden entries in the global scope, and change neither the workspace
    store nor any other key of the global store. *)
Theorem view_model_writes_only_its_key vm :
  (∀ entry, storageService (add entry vm) = storageService vm)
  ∧ (∀ entry, storageService (remove entry vm) = storageService vm)
  ∧ (∀ event, storageService (onDidStorageChange event vm) = storageService vm)
  ∧ (∀ i, writes_own_key (storageService vm) (storageService (hide i vm)))
  ∧ (∀ i, writes_own_key (storageService vm) (storageService (show i vm))).
Proof.
  split; [intros e; apply storageService_add|].
  split; [intros e; apply storageService_remove|].
  split; [intros e; apply storageService_onDidStorageChange|].
  split; intros i; [apply writes_own_key_hide|apply writes_own_key_show].
Qed.

Lemma restoreState_unreadable storage cur :
  unreadable storage → restoreState storage cur = default [] cur.
Proof.
  unfold unreadable, restoreState.
  destruct (storage_get HIDDEN_ENTRIES_KEY GLOBAL storage) as [raw|]; [|done].
  intros [->|Hp]; [done|].
  destruct (decide (raw = EmptyString)); [done|]. by rewrite Hp.
Qed.

(** X2.  When the storage holds no hidden set that can be read (the key is
    absent, its value is the empty string, or [JSON.parse] throws), a new
    view model starts with an empty hidden set; and a storage-change
    notification that finds the storage in that state empties the hidden set,
    keeps the entries, and calls [show], once, on the element of every entry
    that was hidden. *)
Theorem unreadable_storage_hides_nothing storage (d : Dom) vm :
  unreadable storage →
  hidden (new_StatusbarViewModel storage d) = []
  ∧ let vm0 := set_storageService storage vm in
    let vm' := onDidStorageChange the_event vm0 in
    hidden vm' = []
    ∧ entries vm' = entries vm
    ∧ new_calls vm0 vm'
      ≡ₚ DomShow ∘ e_container
           <$> filter (λ e, isHidden (e_id e) vm = true) (entries vm).
Proof.
  intros Hu. split; [by apply (restoreState_unreadable _ None)|].
  intros vm0 vm'.
  destruct (onDidStorageChange_spec vm0) as (d' & calls & Heq & Hc & Hp).
  fold vm' in Heq.
  change (storageService vm0) with storage in *.
  rewrite (restoreState_unreadable _ (Some [])) in * by done. simpl in *.
  rewrite Heq. split; [done|]. split; [done|].
  unfold new_calls. simpl. rewrite Hc, drop_app_length, Hp.
  assert (∀ i, isHidden i (set_hidden [] vm0) = false) as Hnone
    by (intros i; by apply has_false, not_elem_of_nil).
  rewrite (filter_iff_elem _ (λ e, isHidden (e_id e) vm = true))
    by (intros e _; by rewrite Hnone, xorb_false_r).
  erewrite list_fmap_ext; [done|].
  intros k e _. unfold call_for. by rewrite Hnone.
Qed.

Lemma filter_all {A} (P : A → Prop) `{!∀ x, Decision (P x)} (l : list A) :
  (∀ x, x ∈ l → P x) → filter P l = l.
Proof.
  induction l as [|x l IH]; intros HP; [done|].
  rewrite filter_cons, decide_True by (apply HP; by left).
  f_equal. apply IH. intros y Hy. apply HP. by right.
Qed.

Lemma sorted_left_then_right (es : list IStatusbarViewModelEntry) :
  StronglySorted (λ x y, compareEntries x y ≤ 0) es →
  es = filter (λ e, e_alignment e = LEFT) es
       ++ filter (λ e, e_alignment e = RIGHT) es.
Proof.
  induction es as [|x es IH]; intros Hs; [done|].
  apply StronglySorted_cons in Hs as [Hx Hes].
  rewrite !filter_cons. destruct (e_alignment x) eqn:Hax.
  - rewrite decide_True, decide_False by done. simpl. f_equal. by apply IH.
  - rewrite decide_False, decide_True by done.
    rewrite (filter_none (λ e, e_alignment e = LEFT)).
    + simpl. f_equal. symmetry. apply filter_all.
      rewrite Forall_forall in Hx. intros y Hy. specialize (Hx y Hy).
      unfold compareEntries in Hx. rewrite Hax in Hx.
      destruct (e_alignment y); [|done]. simpl in Hx.
      repeat case_decide; try done; lia.
    + rewrite Forall_forall in Hx. intros y Hy Hay. specialize (Hx y Hy).
      unfold compareEntries in Hx. rewrite Hax, Hay in Hx.
      repeat case_decide; try done; lia.
Qed.

(** X4.  In every state that a view model reaches, the array of entries
    consists of the LEFT entries followed by the RIGHT entries: it is
    [getEntries(LEFT)] followed by [getEntries(RIGHT)]. *)
Theorem entries_left_then_right storage (d : Dom) (ops : list vm_op) :
  let vm := vm_run ops (new_StatusbarViewModel storage d) in
  entries vm = getEntries LEFT vm ++ getEntries RIGHT vm.
Proof.
  intros vm. destruct (entries_vm_run storage d ops) as (_ & Hs & _).
  by apply sorted_left_then_right.
Qed.


Lemma remove_first_sorted_insert {A} `{EqDecision A} (cmp : A → A → Z) x
    (l : list A) :
  x ∉ l → remove_first x (sorted_insert cmp x l) = l.
Proof.
  induction l as [|y l IH]; intros Hx; simpl.
  - by rewrite decide_True.
  - apply not_elem_of_cons in Hx as [Hxy Hx].
    case_decide; simpl; [by rewrite decide_True|].
    rewrite decide_False by done. f_equal. by apply IH.
Qed.

Lemma findEntry_None c vm :
  findEntry c vm = None ↔ ∀ e, e ∈ entries vm → e_container e ≠ c.
Proof.
  unfold findEntry. rewrite fmap_None, list_find_None, Forall_forall. done.
Qed.

Lemma findEntry_Some c vm e :
  findEntry c vm = Some e → e ∈ entries vm ∧ e_container e = c.
Proof.
  unfold findEntry. intros ([k e'] & Hf & [= ->])%fmap_Some.
  apply list_find_Some in Hf as (Hk & Hc & _).
  split; [by eapply list_elem_of_lookup_2|done].
Qed.

Lemma findEntry_unique c vm e :
  e ∈ entries vm → e_container e = c →
  (∀ e', e' ∈ entries vm → e_container e' = c → e' = e) →
  findEntry c vm = Some e.
Proof.
  intros He Hc Hu.
  destruct (findEntry c vm) as [e'|] eqn:Hf.
  - apply findEntry_Some in Hf as [He' Hc']. f_equal. by apply Hu.
  - exfalso. by eapply findEntry_None in Hf.
Qed.

(** X5.  In a state that a view model has reached, let an entry be added
    whose element belongs to no registered entry.  Then [findEntry] of that
    element returns the entry; and after the handle that [add] returned is
    disposed of, the array of entries is what it was before the [add],
    [findEntry] of the element returns nothing, and the hidden set and the
    storage are untouched. *)
Theorem add_then_dispose_restores storage (d : Dom) (ops : list vm_op) entry :
  let vm := vm_run ops (new_StatusbarViewModel storage d) in
  (∀ e, e ∈ entries vm → e_container e ≠ e_container entry) →
  findEntry (e_container entry) (add entry vm) = Some entry
  ∧ entries (remove entry (add entry vm)) = entries vm
  ∧ findEntry (e_container entry) (remove entry (add entry vm)) = None
  ∧ hidden (remove entry (add entry vm)) = hidden vm
  ∧ storageService (remove entry (add entry vm)) = storageService vm.
Proof.
  intros vm Hfresh.
  destruct (entries_vm_run storage d ops) as (_ & Hs & _). fold vm in Hs.
  assert (entry ∉ entries vm) as Hnew by (intros He; by apply (Hfresh _ He)).
  assert (entries (add entry vm) = sorted_insert compareEntries entry (entries vm))
    as Hadd.
  { by rewrite entries_add, Array_sort_snoc, Array_sort_sorted. }
  assert (entries (remove entry (add entry vm)) = entries vm) as Hrem.
  { rewrite entries_remove, Hadd. by apply remove_first_sorted_insert. }
  split.
  { apply findEntry_unique; [|done|].
    - rewrite Hadd, sorted_insert_Permutation. by left.
    - intros e'. rewrite Hadd, sorted_insert_Permutation.
      intros [->|He']%elem_of_cons Hc; [done|]. by apply Hfresh in He'. }
  split; [done|].
  split; [apply findEntry_None; by rewrite Hrem|].
  destruct (storageService_remove entry (add entry vm)) as [-> ->].
  destruct (storageService_add entry vm) as [-> ->]. done.
Qed.

Lemma isHidden_hide_other vm i j :
  j ≠ i → isHidden j (hide i vm) = isHidden j vm.
Proof.
  intros Hne. destruct (isHidden i vm) eqn:Hi; [by rewrite hide_noop|].
  destruct (hide_effective vm i Hi) as (d & -> & _).
  unfold isHidden. destruct (saveState_frame
    (set_dom d (set_hidden (hidden vm ++ [i]) vm))) as (_ & -> & _). simpl.
  apply bool_decide_ext. rewrite elem_of_app, list_elem_of_singleton.
  intuition congruence.
Qed.

Lemma isHidden_show_other vm i j :
  j ≠ i → isHidden j (show i vm) = isHidden j vm.
Proof.
  intros Hne. destruct (isHidden i vm) eqn:Hi; [|by rewrite show_noop].
  destruct (show_effective vm i Hi) as (d & -> & _).
  unfold isHidden. destruct (saveState_frame
    (set_dom d (set_hidden (JsSet.delete (hidden vm) i) vm))) as (_ & -> & _).
  simpl. apply bool_decide_ext. rewrite elem_of_delete. intuition congruence.
Qed.

(** The menu: the action for the entry under the mouse, one toggle action
    for every entry, and the two actions that close it. *)
Lemma getContextMenuActions_eq target_chain vm :
  getContextMenuActions target_chain vm
  = match entryUnderMouse target_chain vm with
    | Some statusEntryUnderMouse =>
        [HideStatusbarEntryAction (e_id statusEntryUnderMouse); Separator]
    | None => []
    end
    ++ (toggle_action_of vm <$> entries vm)
    ++ [Separator; ToggleStatusbarVisibilityAction "Hide Status Bar"].
Proof.
  unfold getContextMenuActions.
  set (f := λ '(actions, handledEntries) entry, _).
  assert (∀ es actions,
    foldl f (actions, []) es
    = (actions ++ (toggle_action_of vm <$> es), [])) as Hf.
  { induction es as [|e es IH]; intros actions; simpl.
    - by rewrite app_nil_r.
    - rewrite IH, <- app_assoc. done. }
  by rewrite Hf, <- app_assoc.
Qed.

Lemma elem_of_getContextMenuActions_toggle target_chain vm i label checked :
  ToggleStatusbarEntryVisibilityAction i label checked
    ∈ getContextMenuActions target_chain vm
  ↔ ∃ e, e ∈ entries vm ∧ e_id e = i ∧ e_name e = label
         ∧ checked = negb (isHidden i vm).
Proof.
  rewrite getContextMenuActions_eq, !elem_of_app, list_elem_of_fmap. split.
  - intros [Hh|[(e & He & Hin)|Ht]].
    + destruct (entryUnderMouse _ _); [|by apply elem_of_nil in Hh].
      apply elem_of_cons in Hh as [?|Hh]; [done|].
      by apply list_elem_of_singleton in Hh.
    + injection He as -> -> ->. by exists e.
    + apply elem_of_cons in Ht as [?|Ht]; [done|].
      by apply list_elem_of_singleton in Ht.
  - intros (e & He & <- & <- & ->). right. left. by exists e.
Qed.

(** X6.  A toggle action of the context menu is checked exactly when its
    identifier is not hidden.  Running it flips that: afterwards the
    identifier is hidden if the action was checked and not hidden otherwise,
    no other identifier changes its state, the entries are the same, and the
    menu that is built next holds the action with the opposite check mark. *)
Theorem toggle_action_flips_its_identifier target_chain vm i label checked :
  ToggleStatusbarEntryVisibilityAction i label checked
    ∈ getContextMenuActions target_chain vm →
  let vm' := ToggleStatusbarEntryVisibilityAction_run i vm in
  checked = negb (isHidden i vm)
  ∧ isHidden i vm' = checked
  ∧ (∀ j, j ≠ i → isHidden j vm' = isHidden j vm)
  ∧ entries vm' = entries vm
  ∧ ToggleStatusbarEntryVisibilityAction i label (negb checked)
      ∈ getContextMenuActions target_chain vm'.
Proof.
  intros (e & He & Hi & Hl & ->)%elem_of_getContextMenuActions_toggle vm'.
  assert (isHidden i vm' = negb (isHidden i vm)) as Hflip.
  { unfold vm', ToggleStatusbarEntryVisibilityAction_run.
    destruct (isHidden i vm); [apply isHidden_show|apply isHidden_hide]. }
  assert (entries vm' = entries vm) as Hes.
  { unfold vm', ToggleStatusbarEntryVisibilityAction_run.
    destruct (isHidden i vm); [apply entries_show|apply entries_hide]. }
  split; [done|]. split; [done|]. split.
  { intros j Hj. unfold vm', ToggleStatusbarEntryVisibilityAction_run.
    destruct (isHidden i vm);
      [by apply isHidden_show_other|by apply isHidden_hide_other]. }
  split; [done|].
  apply elem_of_getContextMenuActions_toggle. exists e.
  rewrite Hes, Hflip. done.
Qed.

Lemma entryUnderMouse_Some target_chain vm e :
  entryUnderMouse target_chain vm = Some e →
  ∃ pre c post,
    target_chain = pre ++ c :: post
    ∧ (∀ c', c' ∈ pre → findEntry c' vm = None)
    ∧ findEntry c vm = Some e.
Proof.
  induction target_chain as [|c cs IH]; [done|]. simpl.
  destruct (findEntry c vm) as [e'|] eqn:Hc.
  - intros [= ->]. exists [], c, cs. split; [done|]. split; [|done].
    intros c' Hc'. by apply elem_of_nil in Hc'.
  - intros (pre & c0 & post & -> & Hpre & Hc0)%IH.
    exists (c :: pre), c0, post. split; [done|]. split; [|done].
    intros c' [->|Hc']%elem_of_cons; [done|by apply Hpre].
Qed.

Lemma entryUnderMouse_None target_chain vm :
  entryUnderMouse target_chain vm = None
  ↔ ∀ c, c ∈ target_chain → findEntry c vm = None.
Proof.
  induction target_chain as [|c cs IH]; simpl.
  - split; [|done]. intros _ c Hc. by apply elem_of_nil in Hc.
  - destruct (findEntry c vm) as [e'|] eqn:Hc.
    + split; [done|]. intros Hall. specialize (Hall c). rewrite Hc in Hall.
      apply Hall. by left.
    + rewrite IH. split.
      * intros Hall c' [->|Hc']%elem_of_cons; [done|by apply Hall].
      * intros Hall c' Hc'. apply Hall. by right.
Qed.

(** X7.  The context menu always ends with a separator and the action that
    hides the status bar.  If it holds an action Hide, this is its first
    action, running it leaves its identifier hidden, and the identifier is
    that of an entry whose element is the nearest one, from the target of the
    mouse event upwards, that belongs to an entry of the view model; and if
    some element on the way from the target to the root belongs to an entry,
    the menu starts with an action Hide. *)
Theorem hide_action_is_for_the_entry_under_the_mouse target_chain vm :
  (∃ actions,
     getContextMenuActions target_chain vm
     = actions ++ [Separator; ToggleStatusbarVisibilityAction "Hide Status Bar"])
  ∧ (∀ i, HideStatusbarEntryAction i ∈ getContextMenuActions target_chain vm →
       head (getContextMenuActions target_chain vm)
       = Some (HideStatusbarEntryAction i)
       ∧ isHidden i (HideStatusbarEntryAction_run i vm) = true
       ∧ ∃ pre c post e,
           target_chain = pre ++ c :: post
           ∧ (∀ c' e', c' ∈ pre → e' ∈ entries vm → e_container e' ≠ c')
           ∧ e ∈ entries vm ∧ e_container e = c ∧ e_id e = i)
  ∧ ((∃ c e, c ∈ target_chain ∧ e ∈ entries vm ∧ e_container e = c) →
     ∃ i, head (getContextMenuActions target_chain vm)
          = Some (HideStatusbarEntryAction i)).
Proof.
  rewrite getContextMenuActions_eq. split; [|split].
  - eexists. by rewrite app_assoc.
  - intros i. rewrite !elem_of_app, list_elem_of_fmap.
    intros [Hh|[(e & He & _)|Ht]].
    + destruct (entryUnderMouse target_chain vm) as [e|] eqn:Hu;
        [|by apply elem_of_nil in Hh].
      apply elem_of_cons in Hh as [[= ->]|Hh];
        [|by apply list_elem_of_singleton in Hh].
      split; [done|]. split; [apply isHidden_hide|].
      apply entryUnderMouse_Some in Hu as (pre & c & post & -> & Hpre & Hc).
      apply findEntry_Some in Hc as [He Hc].
      exists pre, c, post, e. repeat split; try done.
      intros c' e' Hc' He'.
      by apply (proj1 (findEntry_None c' vm) (Hpre c' Hc') e' He').
    + done.
    + apply elem_of_cons in Ht as [?|Ht]; [done|].
      by apply list_elem_of_singleton in Ht.
  - intros (c & e & Hc & He & Hce).
    destruct (entryUnderMouse target_chain vm) as [e'|] eqn:Hu.
    + by eexists.
    + exfalso. rewrite entryUnderMouse_None in Hu.
      by apply (proj1 (findEntry_None c vm) (Hu c Hc) e He).
Qed.


(** ** The hidden set holds no identifier twice *)

Lemma NoDup_add {A} `{EqDecision A} (s : list A) x :
  NoDup s → NoDup (JsSet.add s x).
Proof.
  intros Hnd. unfold JsSet.add. destruct (JsSet.has s x) eqn:Hx; [done|].
  apply has_false in Hx. apply NoDup_app. split; [done|].
  split; [|apply NoDup_singleton].
  by intros y Hy ->%list_elem_of_singleton.
Qed.

Lemma NoDup_of_list {A} `{EqDecision A} (l : list A) : NoDup (JsSet.of_list l).
Proof.
  unfold JsSet.of_list.
  assert (∀ s, NoDup s → NoDup (foldl JsSet.add s l)) as Hf.
  { induction l as [|x l IH]; intros s Hs; [done|]. simpl.
    by apply IH, NoDup_add. }
  apply Hf. constructor.
Qed.

Lemma NoDup_restoreState storage cur :
  (∀ h, cur = Some h → NoDup h) → NoDup (restoreState storage cur).
Proof.
  intros Hcur. unfold restoreState.
  assert (NoDup match cur with Some h => h | None => [] end) as Hdef.
  { destruct cur as [h|]; [by apply Hcur|constructor]. }
  destruct (storage_get HIDDEN_ENTRIES_KEY GLOBAL storage) as [raw|]; [|done].
  destruct (decide (raw = EmptyString)); [done|].
  destruct (JSON_parse raw); [apply NoDup_of_list|done].
Qed.

Lemma hidden_hide i vm : hidden (hide i vm) = JsSet.add (hidden vm) i.
Proof.
  unfold hide, JsSet.add. destruct (JsSet.has (hidden vm) i) eqn:Hi; [done|].
  cbn [negb].
  destruct (saveState_frame (updateVisibility_id i
              (set_hidden (hidden vm ++ [i]) vm))) as (_ & -> & _).
  by destruct (updateVisibility_id_frame i
                 (set_hidden (hidden vm ++ [i]) vm)) as (d & -> & _).
Qed.

Lemma hidden_show i vm : hidden (show i vm) = JsSet.delete (hidden vm) i.
Proof.
  unfold show. destruct (JsSet.has (hidden vm) i) eqn:Hi.
  - destruct (saveState_frame (updateVisibility_id i
                (set_hidden (JsSet.delete (hidden vm) i) vm))) as (_ & -> & _).
    by destruct (updateVisibility_id_frame i
                   (set_hidden (JsSet.delete (hidden vm) i) vm))
      as (d & -> & _).
  - apply has_false in Hi. by rewrite delete_fresh.
Qed.

Lemma hidden_onDidStorageChange event vm :
  hidden (onDidStorageChange event vm)
  = if decide (event_key event = HIDDEN_ENTRIES_KEY
               ∧ event_scope event = GLOBAL)
    then restoreState (storageService vm) (Some [])
    else hidden vm.
Proof.
  case_decide as He; [|by rewrite onDidStorageChange_other].
  destruct He as [Hk Hs]. destruct event as [k s]. simpl in *. subst.
  fold the_event.
  by destruct (onDidStorageChange_spec vm) as (d & calls & -> & _).
Qed.

Lemma NoDup_hidden_vm_step vm op :
  NoDup (hidden vm) → NoDup (hidden (vm_step vm op)).
Proof.
  intros Hnd. destruct op as [e|e|i|i|storage' event]; simpl.
  - by destruct (storageService_add e vm) as [_ ->].
  - by destruct (storageService_remove e vm) as [_ ->].
  - rewrite hidden_hide. by apply NoDup_add.
  - rewrite hidden_show. by apply NoDup_filter.
  - rewrite hidden_onDidStorageChange. case_decide; [|done].
    apply NoDup_restoreState. intros h [= <-]. constructor.
Qed.

Lemma NoDup_hidden_vm_run storage (d : Dom) ops :
  NoDup (hidden (vm_run ops (new_StatusbarViewModel storage d))).
Proof.
  induction ops as [|op ops IH] using rev_ind.
  - apply NoDup_restoreState. by intros h [=].
  - unfold vm_run in *. rewrite foldl_snoc. by apply NoDup_hidden_vm_step.
Qed.

(** X3.  If [JSON.parse] reads back what [JSON.stringify] writes for an
    array of strings, and [JSON.stringify] never returns the empty string,
    then in every state that a view model reaches, the hidden set holds no
    identifier twice, and a view model that is built over the storage which
    [saveState] leaves has the same hidden set, in the same order, and finds
    the storage in step with it. *)
Theorem hidden_set_survives_restart storage (d d' : Dom) (ops : list vm_op) :
  (∀ l : list string, JSON_parse (JSON_stringify l) = Some l) →
  (∀ l : list string, JSON_stringify l ≠ EmptyString) →
  let vm := vm_run ops (new_StatusbarViewModel storage d) in
  let vm' := new_StatusbarViewModel (storageService (saveState vm)) d' in
  NoDup (hidden vm)
  ∧ hidden vm' = hidden vm
  ∧ (∀ i, isHidden i vm' = isHidden i vm)
  ∧ storage_in_sync vm'.
Proof.
  intros Hps Hne vm vm'.
  pose proof (NoDup_hidden_vm_run storage d ops) as Hnd. fold vm in Hnd.
  destruct (restoreState_saveState Hps Hne vm d' Hnd) as [Hh Hs].
  fold vm' in Hh, Hs. split; [done|]. split; [done|]. split; [|done].
  intros i. unfold isHidden. by rewrite Hh.
Qed.

End view_model_more.

(** ** Visibility and the edge classes in the states that are reached *)

Lemma NoDup_fmap_elem_inj {A B} (f : A → B) (l : list A) x y :
  NoDup (f <$> l) → x ∈ l → y ∈ l → f x = f y → x = y.
Proof.
  induction l as [|z l IH]; intros Hnd Hx Hy Hf; [by apply elem_of_nil in Hx|].
  rewrite fmap_cons in Hnd. apply NoDup_cons in Hnd as [Hn Hnd].
  apply elem_of_cons in Hx as [->|Hx]; apply elem_of_cons in Hy as [->|Hy].
  - done.
  - exfalso. apply Hn. rewrite Hf. by apply list_elem_of_fmap_2.
  - exfalso. apply Hn. rewrite <- Hf. by apply list_elem_of_fmap_2.
  - by apply IH.
Qed.

Section marks.
  Context `{JSON}.
  Implicit Types (vm : StatusbarViewModel) (i : string)
    (entry : IStatusbarViewModelEntry).

(** *** The edge classes *)

Lemma doMarkFirstLastVisibleStatusbarItem_spec es vm :
  let visible := filter (λ e, isHidden (e_id e) vm = false) es in
  ∃ d, doMarkFirstLastVisibleStatusbarItem es vm = set_dom d vm
       ∧ first_visible_item d
         = (first_visible_item (dom vm) ∖ list_to_set (e_container <$> es))
           ∪ (if head visible is Some e then {[e_container e]} else ∅)
       ∧ last_visible_item d
         = (last_visible_item (dom vm) ∖ list_to_set (e_container <$> es))
           ∪ (if last visible is Some e then {[e_container e]} else ∅).
Proof.
  intros visible. unfold doMarkFirstLastVisibleStatusbarItem.
  set (f := λ '(d, first, last) entry, _).
  assert (∀ acc,
    first_visible_item (foldl f acc es).1.1
    = first_visible_item acc.1.1 ∖ list_to_set (e_container <$> es)
    ∧ last_visible_item (foldl f acc es).1.1
      = last_visible_item acc.1.1 ∖ list_to_set (e_container <$> es)
    ∧ (foldl f acc es).1.2
      = (if acc.1.2 is Some _ then acc.1.2 else head visible)
    ∧ (foldl f acc es).2
      = (if last visible is Some e then Some e else acc.2)) as Hf.
  { subst visible. induction es as [|e es IH]; intros acc.
    - simpl. repeat split; [set_solver|set_solver|by destruct (acc.1.2)].
    - cbn [foldl]. destruct acc as [[d0 f0] l0].
      rewrite filter_cons, fmap_cons, list_to_set_cons.
      destruct (isHidden (e_id e) vm) eqn:Hh.
      + assert (f (d0, f0, l0) e
                = (dom_removeClasses (e_container e) d0, f0, l0)) as ->
          by (simpl; by rewrite Hh).
        destruct (IH (dom_removeClasses (e_container e) d0, f0, l0))
          as (-> & -> & -> & ->).
        rewrite decide_False by done.
        cbn [dom_removeClasses first_visible_item last_visible_item fst snd].
        split; [set_solver|]. split; [set_solver|]. done.
      + assert (f (d0, f0, l0) e
                = (dom_removeClasses (e_container e) d0,
                   (if f0 is Some _ then f0 else Some e), Some e)) as ->
          by (simpl; by rewrite Hh).
        destruct (IH (dom_removeClasses (e_container e) d0,
                      (if f0 is Some _ then f0 else Some e), Some e))
          as (-> & -> & -> & ->).
        rewrite decide_True by done. rewrite last_cons.
        cbn [dom_removeClasses first_visible_item last_visible_item fst snd
             head].
        split; [set_solver|]. split; [set_solver|].
        split; [by destruct f0|]. by destruct (last _). }
  specialize (Hf (dom vm, None, None)).
  destruct (foldl f (dom vm, None, None) es) as [[d firstItem] lastItem].
  simpl in Hf. destruct Hf as (Hd1 & Hd2 & -> & ->).
  eexists. split; [done|].
  destruct (head visible) as [ef|], (last visible) as [el|];
    cbn [dom_addClass_first dom_addClass_last first_visible_item
         last_visible_item]; rewrite ?Hd1, ?Hd2; split; set_solver.
Qed.


Lemma marks_markFirstLastVisibleEntry vm :
  NoDup (e_container <$> entries vm) →
  marks_first_last (markFirstLastVisibleEntry vm).
Proof.
  intros Hnd. unfold markFirstLastVisibleEntry.
  destruct (doMarkFirstLastVisibleStatusbarItem_spec (getEntries LEFT vm) vm)
    as (d1 & -> & Hf1 & Hl1).
  destruct (doMarkFirstLastVisibleStatusbarItem_spec
              (getEntries RIGHT (set_dom d1 vm)) (set_dom d1 vm))
    as (d2 & -> & Hf2 & Hl2).
  intros e He. change (e ∈ entries vm) in He.
  change (dom (set_dom d2 (set_dom d1 vm))) with d2.
  change (dom (set_dom d1 vm)) with d1 in *.
  change (visible_entries (e_alignment e) (set_dom d2 (set_dom d1 vm)))
    with (visible_entries (e_alignment e) vm).
  change (getEntries RIGHT (set_dom d1 vm)) with (getEntries RIGHT vm) in *.
  change (filter (λ e, isHidden (e_id e) (set_dom d1 vm) = false)
            (getEntries RIGHT vm))
    with (visible_entries RIGHT vm) in *.
  change (filter (λ e, isHidden (e_id e) vm = false) (getEntries LEFT vm))
    with (visible_entries LEFT vm) in *.
  assert (∀ a x, x ∈ getEntries a vm ↔ x ∈ entries vm ∧ e_alignment x = a)
    as Hget.
  { intros a x. unfold getEntries. rewrite list_elem_of_filter. tauto. }
  assert (∀ a x, x ∈ visible_entries a vm → x ∈ getEntries a vm) as Hvis.
  { intros a x. unfold visible_entries. rewrite list_elem_of_filter. tauto. }
  assert (∀ a, e_container e
               ∈ list_to_set (C:=gset nat) (e_container <$> getEntries a vm)
               ↔ e_alignment e = a) as Hcs.
  { intros a. rewrite elem_of_list_to_set, list_elem_of_fmap. split.
    - intros (x & Hc & [Hx Ha]%Hget).
      by rewrite (NoDup_fmap_elem_inj e_container _ e x Hnd He Hx Hc).
    - intros Ha. exists e. split; [done|]. by apply Hget. }
  assert (∀ a (o : option IStatusbarViewModelEntry),
            (∀ x, o = Some x → x ∈ visible_entries a vm) →
            (e_container e
             ∈ (if o is Some x then {[e_container x]} else ∅ : gset nat)
             ↔ o = Some e)
            ∧ (o = Some e → e_alignment e = a)) as Hedge.
  { intros a o Ho. split; [split|].
    - destruct o as [x|]; [|set_solver].
      intros Hc%elem_of_singleton. f_equal. symmetry.
      apply (NoDup_fmap_elem_inj e_container _ e x Hnd He); [|done].
      by apply (Hget a), Hvis, Ho.
    - intros ->. set_solver.
    - intros Hoe. by apply (Hget a), Hvis, Ho. }
  destruct (Hedge LEFT (head (visible_entries LEFT vm)))
    as [HhL HhL']; [apply head_Some_elem_of|].
  destruct (Hedge RIGHT (head (visible_entries RIGHT vm)))
    as [HhR HhR']; [apply head_Some_elem_of|].
  destruct (Hedge LEFT (last (visible_entries LEFT vm)))
    as [HlL HlL']; [apply last_Some_elem_of|].
  destruct (Hedge RIGHT (last (visible_entries RIGHT vm)))
    as [HlR HlR']; [apply last_Some_elem_of|].
  pose proof (Hcs LEFT) as HcL. pose proof (Hcs RIGHT) as HcR.
  rewrite Hf2, Hf1, Hl2, Hl1.
  rewrite !elem_of_union, !elem_of_difference, !elem_of_union,
    !elem_of_difference.
  destruct (e_alignment e) eqn:Ha; intuition congruence.
Qed.

Lemma marks_ext vm vm' :
  entries vm' = entries vm →
  first_visible_item (dom vm') = first_visible_item (dom vm) →
  last_visible_item (dom vm') = last_visible_item (dom vm) →
  (∀ e, e ∈ entries vm → isHidden (e_id e) vm' = isHidden (e_id e) vm) →
  marks_first_last vm → marks_first_last vm'.
Proof.
  intros He Hf Hl Hh Hm e Hin. rewrite He in Hin.
  assert (∀ a, visible_entries a vm' = visible_entries a vm) as Hv.
  { intros a. unfold visible_entries, getEntries. rewrite He.
    apply filter_iff_elem. intros x [_ Hx]%list_elem_of_filter.
    by rewrite Hh. }
  rewrite Hf, Hl, Hv. by apply Hm.
Qed.

Lemma marks_updateVisibility_entry entry vm :
  NoDup (e_container <$> entries vm) →
  marks_first_last (updateVisibility_entry entry vm).
Proof.
  intros Hnd. unfold updateVisibility_entry.
  destruct (isHidden (e_id entry) vm);
    by apply marks_markFirstLastVisibleEntry.
Qed.

Lemma marks_updateVisibility_id i vm :
  NoDup (e_container <$> entries vm) →
  marks_first_last vm ∨ (∃ e, e ∈ entries vm ∧ e_id e = i) →
  marks_first_last (updateVisibility_id i vm).
Proof.
  unfold updateVisibility_id. generalize (entries vm) at 2 3 as es.
  intros es. revert vm. induction es as [|e es IH]; intros vm Hnd Hm.
  - destruct Hm as [Hm|(e & He & _)]; [done|by apply elem_of_nil in He].
  - cbn [foldl]. destruct (decide (e_id e ≠ i)) as [Hne|Heq].
    + apply IH; [done|]. destruct Hm as [Hm|(x & Hx & Hi)]; [by left|].
      right. exists x. apply elem_of_cons in Hx as [->|Hx]; done.
    + apply IH.
      * by rewrite entries_updateVisibility_entry.
      * left. by apply marks_updateVisibility_entry.
Qed.

(** *** Visibility *)

Lemma visibility_invariant_forall vm :
  visibility_invariant vm
  ↔ ∀ e, e ∈ entries vm →
         displayed (dom vm) (e_container e) = negb (isHidden (e_id e) vm).
Proof. unfold visibility_invariant. by rewrite Forall_forall. Qed.

Lemma displayed_updateVisibility_id i vm e :
  NoDup (e_container <$> entries vm) → e ∈ entries vm →
  displayed (dom (updateVisibility_id i vm)) (e_container e)
  = if decide (e_id e = i) then negb (isHidden i vm)
    else displayed (dom vm) (e_container e).
Proof.
  intros Hnd He.
  destruct (updateVisibility_id_frame i vm) as (d & -> & Hd & _).
  change (dom (set_dom d vm)) with d. unfold displayed. rewrite Hd.
  assert (e_container e
          ∈ list_to_set (C:=gset nat)
              (e_container <$> filter (λ x, e_id x = i) (entries vm))
          ↔ e_id e = i) as Hc.
  { rewrite elem_of_list_to_set, list_elem_of_fmap. split.
    - intros (x & Hcx & [Hx Hin]%list_elem_of_filter).
      by rewrite (NoDup_fmap_elem_inj e_container _ e x Hnd He Hin Hcx).
    - intros Hi. exists e. split; [done|]. by apply list_elem_of_filter. }
  destruct (decide (e_id e = i)) as [Hi|Hi], (isHidden i vm); simpl.
  - apply bool_decide_eq_false_2. rewrite elem_of_union. tauto.
  - apply bool_decide_eq_true_2. rewrite elem_of_difference. tauto.
  - apply bool_decide_ext. rewrite elem_of_union. tauto.
  - apply bool_decide_ext. rewrite elem_of_difference. tauto.
Qed.

Lemma visibility_updateVisibility_id i vm :
  NoDup (e_container <$> entries vm) →
  (∀ e, e ∈ entries vm → e_id e ≠ i →
        displayed (dom vm) (e_container e) = negb (isHidden (e_id e) vm)) →
  visibility_invariant (updateVisibility_id i vm).
Proof.
  intros Hnd Hv. apply visibility_invariant_forall. intros e He.
  assert (entries (updateVisibility_id i vm) = entries vm
          ∧ hidden (updateVisibility_id i vm) = hidden vm) as [Hes Hh]
    by by destruct (updateVisibility_id_frame i vm) as (d & -> & _).
  rewrite Hes in He. unfold isHidden. rewrite Hh.
  rewrite displayed_updateVisibility_id by done.
  destruct (decide (e_id e = i)) as [->|Hi]; [done|by apply Hv].
Qed.

Lemma Array_sort_Permutation {A} (cmp : A → A → Z) (l : list A) :
  Array_sort cmp l ≡ₚ l.
Proof.
  induction l as [|x l IH] using rev_ind; [done|].
  by rewrite Array_sort_snoc, sorted_insert_Permutation, IH,
    Permutation_cons_append.
Qed.

Lemma add_frame entry vm :
  ∃ d, add entry vm
       = set_dom d (set_entries (Array_sort compareEntries
                                   (entries vm ++ [entry])) vm)
       ∧ display_none d
         = (if isHidden (e_id entry) vm
            then {[e_container entry]} ∪ display_none (dom vm)
            else display_none (dom vm) ∖ {[e_container entry]}).
Proof.
  unfold add, sort.
  destruct (updateVisibility_entry_frame entry
              (set_entries (entries vm ++ [entry]) vm)) as (d1 & -> & Hd1 & _).
  match goal with |- context [markFirstLastVisibleEntry ?v] =>
    destruct (markFirstLastVisibleEntry_frame v) as (d2 & -> & Hd2 & _)
  end.
  exists d2. split; [done|]. by rewrite Hd2.
Qed.

Lemma remove_frame entry vm :
  ∃ d, remove entry vm
       = set_dom d (set_entries (remove_first entry (entries vm)) vm)
       ∧ display_none d = display_none (dom vm).
Proof.
  unfold remove. case_decide.
  - match goal with |- context [markFirstLastVisibleEntry ?v] =>
      destruct (markFirstLastVisibleEntry_frame v) as (d2 & -> & Hd2 & _)
    end. by exists d2.
  - exists (dom vm). rewrite remove_first_not_elem by done. by destruct vm.
Qed.

Lemma invariants_add entry vm :
  NoDup (e_container <$> entries (add entry vm)) →
  visibility_invariant vm →
  visibility_invariant (add entry vm) ∧ marks_first_last (add entry vm).
Proof.
  intros Hnd Hv. split.
  - rewrite visibility_invariant_forall in Hv |- *.
    destruct (add_frame entry vm) as (d & Heq & Hd). rewrite Heq in Hnd |- *.
    cbn [entries dom set_dom set_entries] in Hnd |- *.
    rewrite Array_sort_Permutation in Hnd.
    rewrite fmap_app in Hnd. apply NoDup_app in Hnd as (_ & Hfresh & _).
    intros e He0.
    rewrite Array_sort_Permutation, elem_of_app, list_elem_of_singleton in He0.
    change (isHidden (e_id e) (set_dom d (set_entries _ vm)))
      with (isHidden (e_id e) vm).
    unfold displayed. rewrite Hd. destruct He0 as [He| ->].
    + assert (e_container e ≠ e_container entry) as Hne.
      { intros Hc. apply (Hfresh (e_container e));
          [by apply list_elem_of_fmap_2|]. rewrite Hc. simpl. by left. }
      rewrite <- (Hv e He). unfold displayed.
      destruct (isHidden (e_id entry) vm); apply bool_decide_ext; set_solver.
    + destruct (isHidden (e_id entry) vm); simpl.
      * apply bool_decide_eq_false_2. set_solver.
      * apply bool_decide_eq_true_2. set_solver.
  - unfold add in *. rewrite entries_markFirstLastVisibleEntry in Hnd.
    by apply marks_markFirstLastVisibleEntry.
Qed.

Lemma invariants_remove entry vm :
  NoDup (e_container <$> entries vm) →
  visibility_invariant vm → marks_first_last vm →
  visibility_invariant (remove entry vm) ∧ marks_first_last (remove entry vm).
Proof.
  intros Hnd Hv Hm. split.
  - rewrite visibility_invariant_forall in Hv |- *.
    destruct (remove_frame entry vm) as (d & -> & Hd). simpl.
    intros e He. unfold displayed. rewrite Hd. apply Hv.
    by eapply elem_of_sublist; [|apply remove_first_sublist].
  - unfold remove. case_decide; [|done].
    apply marks_markFirstLastVisibleEntry. simpl.
    eapply sublist_NoDup; [exact Hnd|].
    apply fmap_sublist, remove_first_sublist.
Qed.

Lemma invariants_saveState vm :
  visibility_invariant vm ∧ marks_first_last vm →
  visibility_invariant (saveState vm) ∧ marks_first_last (saveState vm).
Proof. unfold saveState. by case_decide. Qed.

(** [updateVisibility(id)] after the membership of [i], and of no other
    identifier, has changed in the hidden set. *)
Lemma invariants_updateVisibility_id i vm h :
  NoDup (e_container <$> entries vm) →
  (∀ j, j ≠ i → JsSet.has h j = JsSet.has (hidden vm) j) →
  visibility_invariant vm → marks_first_last vm →
  visibility_invariant (updateVisibility_id i (set_hidden h vm))
  ∧ marks_first_last (updateVisibility_id i (set_hidden h vm)).
Proof.
  intros Hnd Hh Hv Hm. rewrite visibility_invariant_forall in Hv. split.
  - apply visibility_updateVisibility_id; [done|].
    intros e He Hi. unfold isHidden. simpl. rewrite Hh by done. by apply Hv.
  - apply marks_updateVisibility_id; [done|].
    destruct (decide (Exists (λ e, e_id e = i) (entries vm))) as [Hex|Hno].
    + right. by apply Exists_exists in Hex.
    + left. apply (marks_ext vm); try done.
      intros e He. unfold isHidden. simpl. apply Hh.
      intros Hi. apply Hno, Exists_exists. by exists e.
Qed.

Lemma invariants_hide i vm :
  NoDup (e_container <$> entries vm) →
  visibility_invariant vm → marks_first_last vm →
  visibility_invariant (hide i vm) ∧ marks_first_last (hide i vm).
Proof.
  intros Hnd Hv Hm. unfold hide. destruct (negb _); [|done].
  apply invariants_saveState, invariants_updateVisibility_id; try done.
  intros j Hj. apply bool_decide_ext. rewrite elem_of_add. naive_solver.
Qed.

Lemma invariants_show i vm :
  NoDup (e_container <$> entries vm) →
  visibility_invariant vm → marks_first_last vm →
  visibility_invariant (show i vm) ∧ marks_first_last (show i vm).
Proof.
  intros Hnd Hv Hm. unfold show. destruct (JsSet.has _ _); [|done].
  apply invariants_saveState, invariants_updateVisibility_id; try done.
  intros j Hj. apply bool_decide_ext. rewrite elem_of_delete. naive_solver.
Qed.

(** *** The notification of a storage change *)

Lemma elem_of_changed_ids currentlyHidden new_hidden i :
  i ∈ changed_ids currentlyHidden new_hidden
  ↔ (i ∈ currentlyHidden ∧ i ∉ new_hidden)
    ∨ (i ∈ new_hidden ∧ i ∉ currentlyHidden).
Proof.
  unfold changed_ids.
  rewrite !elem_of_collect, elem_of_nil, !negb_true_iff, !has_false.
  tauto.
Qed.

Lemma onDidStorageChange_unfold vm :
  onDidStorageChange the_event vm
  = let vm1 := set_hidden (restoreState (storageService vm) (Some [])) vm in
    let changed := changed_ids (JsSet.of_list (hidden vm)) (hidden vm1) in
    if decide (JsSet.size changed > 0) then
      fst (foldl (λ '(vm, changed) entry,
                    if JsSet.has changed (e_id entry) then
                      (updateVisibility_id (e_id entry) vm,
                       JsSet.delete changed (e_id entry))
                    else (vm, changed))
                 (vm1, changed) (entries vm))
    else vm1.
Proof. unfold onDidStorageChange. by rewrite decide_True. Qed.

Lemma reconcile_loop_invariants es vm changed :
  NoDup (e_container <$> entries vm) →
  (∀ e, e ∈ es → e ∈ entries vm) →
  let r := (foldl (λ '(vm, changed) entry,
                     if JsSet.has changed (e_id entry) then
                       (updateVisibility_id (e_id entry) vm,
                        JsSet.delete changed (e_id entry))
                     else (vm, changed))
                  (vm, changed) es).1 in
  entries r = entries vm ∧ hidden r = hidden vm
  ∧ (∀ e, e ∈ entries vm →
          displayed (dom r) (e_container e)
          = if bool_decide (e_id e ∈ reconcile_ids es changed)
            then negb (isHidden (e_id e) vm)
            else displayed (dom vm) (e_container e))
  ∧ (marks_first_last vm ∨ reconcile_ids es changed ≠ [] →
     marks_first_last r).
Proof.
  revert vm changed. induction es as [|e es IH]; intros vm changed Hnd Hes.
  - cbn [foldl reconcile_ids fst].
    split; [done|]. split; [done|]. split; [|by intros [?|?]].
    intros e He. by rewrite bool_decide_eq_false_2 by apply not_elem_of_nil.
  - cbn [foldl reconcile_ids]. destruct (JsSet.has changed (e_id e)) eqn:Hc.
    + assert (entries (updateVisibility_id (e_id e) vm) = entries vm
              ∧ hidden (updateVisibility_id (e_id e) vm) = hidden vm)
        as [Hes1 Hh1]
        by by destruct (updateVisibility_id_frame (e_id e) vm) as (d & -> & _).
      destruct (IH (updateVisibility_id (e_id e) vm)
                   (JsSet.delete changed (e_id e)))
        as (He & Hh & Hd & Hm).
      { by rewrite Hes1. }
      { intros x Hx. rewrite Hes1. apply Hes. by right. }
      rewrite Hes1 in He, Hd. rewrite Hh1 in Hh.
      split; [done|]. split; [done|]. split.
      * intros x Hx. rewrite (Hd x Hx).
        rewrite displayed_updateVisibility_id by done.
        unfold isHidden. rewrite Hh1.
        destruct (decide (e_id x = e_id e)) as [Heq|Hne].
        -- rewrite (bool_decide_eq_true_2 (e_id x ∈ e_id e :: _))
             by (rewrite Heq; by left).
           rewrite Heq. by case_bool_decide.
        -- assert (bool_decide
                     (e_id x ∈ e_id e
                        :: reconcile_ids es (JsSet.delete changed (e_id e)))
                   = bool_decide
                       (e_id x ∈ reconcile_ids es
                                   (JsSet.delete changed (e_id e)))) as ->
             by (apply bool_decide_ext; rewrite elem_of_cons; tauto).
           done.
      * intros _. apply Hm. left.
        apply marks_updateVisibility_id; [done|]. right. exists e.
        split; [|done]. apply Hes. by left.
    + destruct (IH vm changed Hnd) as (He & Hh & Hd & Hm).
      { intros x Hx. apply Hes. by right. }
      done.
Qed.

Lemma invariants_onDidStorageChange event vm :
  NoDup (e_container <$> entries vm) →
  visibility_invariant vm → marks_first_last vm →
  visibility_invariant (onDidStorageChange event vm)
  ∧ marks_first_last (onDidStorageChange event vm).
Proof.
  intros Hnd Hv Hm.
  destruct (decide (event_key event = HIDDEN_ENTRIES_KEY
                    ∧ event_scope event = GLOBAL)) as [[Hk Hs]|Hne];
    [|by rewrite onDidStorageChange_other].
  destruct event as [k s]. simpl in *. subst. fold the_event.
  rewrite onDidStorageChange_unfold. cbv zeta.
  set (vm1 := set_hidden _ vm). set (changed := changed_ids _ _).
  rewrite visibility_invariant_forall in Hv.
  assert (∀ e, e ∈ entries vm → e_id e ∉ changed →
               isHidden (e_id e) vm1 = isHidden (e_id e) vm) as Hsame.
  { intros e He Hc. unfold changed in Hc.
    rewrite elem_of_changed_ids, elem_of_of_list in Hc.
    apply bool_decide_ext.
    destruct (decide (e_id e ∈ hidden vm)), (decide (e_id e ∈ hidden vm1));
      tauto. }
  assert ((∀ e, e ∈ entries vm → e_id e ∉ changed) →
          visibility_invariant vm1 ∧ marks_first_last vm1) as Hbase.
  { intros Hno. split.
    - apply visibility_invariant_forall. intros e He.
      rewrite Hsame by auto. by apply Hv.
    - apply (marks_ext vm); try done. intros e He. apply Hsame; auto. }
  destruct (reconcile_loop_invariants (entries vm) vm1 changed Hnd
              (λ e He, He)) as (He & Hh & Hd & Hmk).
  change (entries vm1) with (entries vm) in *.
  case_decide as Hsize.
  - split.
    + apply visibility_invariant_forall. intros e. rewrite He. intros Hin.
      unfold isHidden. rewrite Hh, (Hd e Hin). case_bool_decide as Hr; [done|].
      change (dom vm1) with (dom vm). rewrite (Hv e Hin). f_equal. symmetry.
      apply Hsame; [done|]. intros Hc. apply Hr, elem_of_reconcile_ids.
      split; [done|]. by exists e.
    + apply Hmk.
      destruct (reconcile_ids (entries vm) changed) as [|i0 rids] eqn:Hr;
        [|by right].
      left. apply Hbase. intros e Hin Hc.
      assert (e_id e ∈ reconcile_ids (entries vm) changed) as Hi
        by (apply elem_of_reconcile_ids; split; [done|]; by exists e).
      rewrite Hr in Hi. by apply elem_of_nil in Hi.
  - apply Hbase. intros e Hin Hc. apply Hsize.
    destruct changed; [by apply elem_of_nil in Hc|].
    unfold JsSet.size. simpl. lia.
Qed.

Lemma vm_step_invariants vm op :
  NoDup (e_container <$> entries vm) →
  NoDup (e_container <$> entries (vm_step vm op)) →
  visibility_invariant vm → marks_first_last vm →
  visibility_invariant (vm_step vm op) ∧ marks_first_last (vm_step vm op).
Proof.
  intros Hnd Hnd' Hv Hm. destruct op as [e|e|i|i|storage' event]; simpl in *.
  - by apply invariants_add.
  - by apply invariants_remove.
  - by apply invariants_hide.
  - by apply invariants_show.
  - by apply invariants_onDidStorageChange.
Qed.

Lemma containers_insertion_order ops :
  NoDup (added_containers ops) →
  NoDup (e_container <$> insertion_order ops)
  ∧ ∀ c, c ∈ e_container <$> insertion_order ops → c ∈ added_containers ops.
Proof.
  induction ops as [|op ops IH] using rev_ind; intros Hnd.
  - split; [constructor|]. intros c Hc. by apply elem_of_nil in Hc.
  - unfold added_containers in *. rewrite omap_app in *.
    apply NoDup_app in Hnd as (Hnd1 & Hdis & _).
    destruct (IH Hnd1) as [Hn Hsub].
    unfold insertion_order. rewrite foldl_snoc. fold (insertion_order ops).
    destruct op as [e|e|i|i|storage' event]; simpl; rewrite ?app_nil_r;
      try done.
    + rewrite fmap_app. split.
      * apply NoDup_app. split; [done|]. split; [|apply NoDup_singleton].
        intros c Hc Hc'. by apply (Hdis c (Hsub c Hc)).
      * intros c [Hc|Hc]%elem_of_app; apply elem_of_app; [left; auto|by right].
    + split.
      * eapply sublist_NoDup; [exact Hn|].
        apply fmap_sublist, remove_first_sublist.
      * intros c Hc. apply Hsub.
        eapply elem_of_sublist; [exact Hc|].
        apply fmap_sublist, remove_first_sublist.
Qed.

Lemma NoDup_containers_run storage (d : Dom) ops :
  NoDup (added_containers ops) →
  NoDup (e_container
           <$> entries (vm_run ops (new_StatusbarViewModel storage d))).
Proof.
  intros Hnd. destruct (entries_vm_run storage d ops) as (Hp & _).
  rewrite Hp. by apply containers_insertion_order.
Qed.

Lemma vm_run_invariants storage (d : Dom) ops :
  NoDup (added_containers ops) →
  visibility_invariant (vm_run ops (new_StatusbarViewModel storage d))
  ∧ marks_first_last (vm_run ops (new_StatusbarViewModel storage d)).
Proof.
  induction ops as [|op ops IH] using rev_ind; intros Hnd.
  - split; [constructor|]. intros e He. by apply elem_of_nil in He.
  - pose proof (NoDup_containers_run storage d _ Hnd) as Hafter.
    unfold added_containers in Hnd. rewrite omap_app in Hnd.
    apply NoDup_app in Hnd as (Hnd & _).
    pose proof (NoDup_containers_run storage d _ Hnd) as Hbefore.
    destruct (IH Hnd) as [Hv Hm].
    unfold vm_run in *. rewrite foldl_snoc in *.
    by apply vm_step_invariants.
Qed.

(** X8.  If every entry that is added comes with an element of its own,
    then in every state that the view model reaches (by [add], disposal,
    [hide], [show] and storage-change notifications, whatever the storage
    holds) the element of an entry is displayed exactly when the identifier
    of the entry is not in the hidden set. *)
Theorem visibility_follows_the_hidden_set storage (d : Dom) (ops : list vm_op) :
  NoDup (added_containers ops) →
  let vm := vm_run ops (new_StatusbarViewModel storage d) in
  ∀ e, e ∈ entries vm →
       displayed (dom vm) (e_container e) = negb (isHidden (e_id e) vm).
Proof.
  intros Hnd vm. apply visibility_invariant_forall.
  by apply vm_run_invariants.
Qed.

(** X9.  If every entry that is added comes with an element of its own,
    then in every state that the view model reaches the element of an entry
    carries the class [first-visible-item] exactly when the entry is the
    first visible entry of its alignment, and the class [last-visible-item]
    exactly when it is the last one. *)
Theorem edge_classes_mark_first_and_last_visible storage (d : Dom)
    (ops : list vm_op) :
  NoDup (added_containers ops) →
  let vm := vm_run ops (new_StatusbarViewModel storage d) in
  ∀ e, e ∈ entries vm →
    (e_container e ∈ first_visible_item (dom vm)
     ↔ head (visible_entries (e_alignment e) vm) = Some e)
    ∧ (e_container e ∈ last_visible_item (dom vm)
       ↔ last (visible_entries (e_alignment e) vm) = Some e).
Proof.
  intros Hnd vm. by apply vm_run_invariants.
Qed.
End marks.

(** * Further properties of the part *)

Lemma elem_of_insertBefore node reference cs x :
  x ∈ insertBefore node reference cs ↔ x = node ∨ x ∈ cs.
Proof.
  induction cs as [|c cs IH]; simpl.
  - rewrite list_elem_of_singleton, elem_of_nil. tauto.
  - case_decide; rewrite !elem_of_cons, ?IH; tauto.
Qed.

Section part_more.
  Context `{JSON}.
  Implicit Types (p : StatusbarPart) (r : nat).

Lemma doAddEntry_spec entry i name alignment priority p :
  ∃ cs hb,
    doAddEntry entry i name alignment priority p
    = (EntryAccessor (viewModelEntry_of (next_ref p) i name alignment priority),
       {| element := element p; pendingEntries := pendingEntries p;
          objects := objects p;
          viewModel := add (viewModelEntry_of (next_ref p) i name alignment
                              priority) (viewModel p);
          children := cs;
          items := <[next_ref p := entry]> (items p);
          has_beak := hb; next_ref := S (next_ref p) |})
    ∧ ∀ x, x ∈ cs ↔ x = next_ref p ∨ x ∈ children p.
Proof.
  unfold doAddEntry, doCreateStatusItem, appendOneStatusbarEntry. simpl.
  destruct (showBeak entry); simpl;
    match goal with
    | |- context [list_find ?P ?l] => destruct (list_find P l) as [[? ?]|]
    end; simpl; eexists _, _; (split; [reflexivity|]); intros x; simpl;
    rewrite ?elem_of_insertBefore, ?elem_of_app, ?list_elem_of_singleton;
    tauto.
Qed.

Lemma createRegistryItem_spec p item :
  createRegistryItem p item
  = {| element := element p; pendingEntries := pendingEntries p;
       objects := objects p;
       viewModel := add (viewModelEntry_of (next_ref p) (r_id item)
                           (r_name item) (r_alignment item) (r_priority item))
                        (viewModel p);
       children := children p; items := items p; has_beak := has_beak p;
       next_ref := S (next_ref p) |}.
Proof. reflexivity. Qed.

Lemma appendAllStatusbarEntries_spec p :
  ∃ cs, appendAllStatusbarEntries p = set_children cs p.
Proof.
  unfold appendAllStatusbarEntries.
  generalize (getEntries LEFT (viewModel p)
                ++ reverse (getEntries RIGHT (viewModel p))) as es.
  intros es. revert p. induction es as [|e es IH]; intros p.
  - exists (children p). by destruct p.
  - cbn [foldl]. destruct (IH (set_children
      (filter (λ c, c ≠ e_container e) (children p) ++ [e_container e]) p))
      as [cs ->]. by exists cs.
Qed.

Lemma element_createContentArea parent registry_items p :
  element (createContentArea parent registry_items p) = Some parent.
Proof.
  unfold createContentArea, createInitialStatusbarEntries.
  rewrite element_fillPendingEntries.
  destruct (appendAllStatusbarEntries_frame
      (foldl createRegistryItem (set_element (Some parent) p) registry_items))
      as [Hq1 _].
  destruct (registry_loop_frame registry_items (set_element (Some parent) p))
    as [Hq2 _].
  apply queue_state_inv in Hq1 as (-> & _).
  apply queue_state_inv in Hq2 as (-> & _). done.
Qed.

Lemma part_step_created p op :
  element p ≠ None → pendingEntries p = [] →
  element (part_step p op) ≠ None ∧ pendingEntries (part_step p op) = [].
Proof.
  intros He Hq.
  assert (∀ p', queue_state p' = queue_state p →
                element p' ≠ None ∧ pendingEntries p' = []) as Hframe.
  { intros p' (-> & -> & _)%queue_state_inv. done. }
  destruct op as [entry i name al prio|a entry|a|i visible|parent items];
    simpl.
  - unfold addEntry. rewrite decide_False by done.
    apply Hframe, doAddEntry_frame.
  - destruct a as [r|e]; cbn [accessor_update];
      [|apply Hframe, entry_update_frame].
    destruct (objects p !! r) as [pending|]; [|done].
    destruct (p_accessor pending) as [[?|e]|]; [done| |done].
    apply Hframe, entry_update_frame.
  - destruct a as [r|e]; cbn [accessor_dispose];
      [|apply Hframe, entry_dispose_frame].
    destruct (objects p !! r) as [pending|]; [|done].
    destruct (p_accessor pending) as [[?|e]|]; [done| |].
    + apply Hframe, entry_dispose_frame.
    + simpl. by rewrite Hq.
  - apply Hframe, updateEntryVisibility_frame.
  - by rewrite element_createContentArea, createContentArea_empties.
Qed.

(** X10.  Once [createContentArea] has run, whatever is done to the part
    afterwards, the container stays set and the queue of pending entries
    stays empty; [addEntry] then returns an accessor of [doAddEntry]: the new
    entry is in the view model with the identifier, name, alignment and
    priority given, its element is a child of the part, and its item renders
    the entry given. *)
Theorem created_part_adds_entries_at_once (p0 : StatusbarPart) (parent : nat)
    (registry_items : list IStatusbarItemDescriptor) (ops : list part_op) :
  let p := part_run ops (createContentArea parent registry_items p0) in
  element p ≠ None
  ∧ pendingEntries p = []
  ∧ ∀ entry i name alignment priority,
      let viewModelEntry :=
        viewModelEntry_of (next_ref p) i name alignment priority in
      let p' := (addEntry entry i name alignment priority p).2 in
      (addEntry entry i name alignment priority p).1
      = EntryAccessor viewModelEntry
      ∧ viewModelEntry ∈ entries (viewModel p')
      ∧ items p' !! e_container viewModelEntry = Some entry
      ∧ e_container viewModelEntry ∈ children p'
      ∧ pendingEntries p' = [].
Proof.
  intros p.
  assert (element p ≠ None ∧ pendingEntries p = []) as [He Hq].
  { unfold p. induction ops as [|op ops IH] using rev_ind.
    - unfold part_run. cbn [foldl].
      by rewrite element_createContentArea, createContentArea_empties.
    - unfold part_run in *. rewrite foldl_snoc.
      destruct IH as [He Hq]. by apply part_step_created. }
  split; [done|]. split; [done|].
  intros entry i name alignment priority ve p'.
  unfold p', addEntry. rewrite decide_False by done.
  destruct (doAddEntry_spec entry i name alignment priority p)
    as (cs & hb & -> & Hcs).
  cbn [fst snd viewModel items children pendingEntries].
  split; [done|]. split.
  { rewrite entries_add, Array_sort_Permutation, elem_of_app,
      list_elem_of_singleton. by right. }
  split; [apply lookup_insert_eq|]. split; [|done].
  apply Hcs. by left.
Qed.


(** ** The invariant of the part *)

Lemma vm_wf_mono n m vm : (n ≤ m)%nat → vm_wf n vm → vm_wf m vm.
Proof.
  intros Hnm (Hnd & Hlt & Hrest). split; [done|]. split; [|done].
  intros e He. apply Hlt in He. lia.
Qed.

Lemma vm_wf_add n vm e :
  e_container e = n → vm_wf n vm → vm_wf (S n) (add e vm).
Proof.
  intros Hc (Hnd & Hlt & Hs & Hv & Hm).
  assert (entries (add e vm) = sorted_insert compareEntries e (entries vm))
    as Hes by by rewrite entries_add, Array_sort_snoc, Array_sort_sorted.
  assert (NoDup (e_container <$> entries (add e vm))) as Hnd'.
  { rewrite Hes, sorted_insert_Permutation, fmap_cons.
    apply NoDup_cons. split; [|done].
    intros (x & Hx & Hin)%list_elem_of_fmap. apply Hlt in Hin. lia. }
  split; [done|]. split.
  { intros x. rewrite Hes, sorted_insert_Permutation.
    intros [->|Hx]%elem_of_cons; [lia|]. apply Hlt in Hx. lia. }
  split.
  { rewrite Hes. apply sorted_insert_sorted;
      [apply compareEntries_trans|apply compareEntries_total|done]. }
  by apply invariants_add.
Qed.

Lemma vm_wf_remove n vm e : vm_wf n vm → vm_wf n (remove e vm).
Proof.
  intros (Hnd & Hlt & Hs & Hv & Hm).
  pose proof (remove_first_sublist e (entries vm)) as Hsub.
  rewrite <- entries_remove in Hsub.
  split; [|split; [|split]].
  - eapply sublist_NoDup; [exact Hnd|]. by apply fmap_sublist.
  - intros x Hx. apply Hlt. by eapply elem_of_sublist.
  - by eapply StronglySorted_sublist.
  - by apply invariants_remove.
Qed.

Lemma vm_wf_hide n vm i : vm_wf n vm → vm_wf n (hide i vm).
Proof.
  intros (Hnd & Hlt & Hs & Hv & Hm). unfold vm_wf.
  rewrite entries_hide. repeat (split; [done|]). by apply invariants_hide.
Qed.

Lemma vm_wf_show n vm i : vm_wf n vm → vm_wf n (show i vm).
Proof.
  intros (Hnd & Hlt & Hs & Hv & Hm). unfold vm_wf.
  rewrite entries_show. repeat (split; [done|]). by apply invariants_show.
Qed.

Lemma queue_wf_frame p p' :
  queue_state p' = queue_state p → (next_ref p ≤ next_ref p')%nat →
  queue_wf p → queue_wf p'.
Proof.
  intros (_ & Hq & Ho)%queue_state_inv Hn [Hnd Hall].
  unfold queue_wf, allocated. rewrite Hq, Ho. split; [done|].
  intros r Hr. destruct (Hall r Hr) as [Hlt Hsome]. split; [lia|done].
Qed.

Lemma part_wf_frame p p' :
  queue_state p' = queue_state p → next_ref p' = next_ref p →
  viewModel p' = viewModel p → part_wf p → part_wf p'.
Proof.
  intros Hq Hn Hvm [Hqw Hvw]. split.
  - eapply queue_wf_frame; [exact Hq|lia|done].
  - by rewrite Hn, Hvm.
Qed.

Lemma part_wf_doAddEntry entry i name alignment priority p :
  part_wf p → part_wf (doAddEntry entry i name alignment priority p).2.
Proof.
  intros [Hqw Hvw].
  destruct (doAddEntry_frame entry i name alignment priority p) as [Hq Hn].
  split; [eapply queue_wf_frame; [exact Hq|lia|done]|].
  destruct (doAddEntry_spec entry i name alignment priority p)
    as (cs & hb & -> & _). simpl. by apply vm_wf_add.
Qed.

Lemma part_wf_entry_dispose e p : part_wf p → part_wf (entry_dispose e p).
Proof.
  intros [Hqw Hvw]. split.
  - eapply queue_wf_frame; [apply entry_dispose_frame| |done].
    by destruct (entry_dispose_frame e p) as [_ ->].
  - simpl. by apply vm_wf_remove.
Qed.

Lemma part_wf_addEntry entry i name alignment priority p :
  part_wf p → part_wf (addEntry entry i name alignment priority p).2.
Proof.
  intros Hwf. destruct (element p) eqn:He.
  - unfold addEntry. rewrite decide_False by by rewrite He.
    by apply part_wf_doAddEntry.
  - rewrite addEntry_pending by done. destruct Hwf as [[Hnd Hall] Hvw].
    split; [split|].
    + simpl. apply NoDup_app. split; [done|]. split; [|apply NoDup_singleton].
      intros r Hr ->%list_elem_of_singleton.
      destruct (Hall _ Hr) as [Hlt _]. lia.
    + intros r. simpl. unfold allocated. simpl.
      intros [Hr| ->%list_elem_of_singleton]%elem_of_app.
      * destruct (Hall _ Hr) as [Hlt Hsome]. split; [lia|].
        by rewrite lookup_insert_ne by lia.
      * split; [lia|]. by rewrite lookup_insert_eq.
    + simpl. eapply vm_wf_mono; [|exact Hvw]. lia.
Qed.

Lemma part_wf_accessor_update a entry p :
  part_wf p → part_wf (accessor_update a entry p).
Proof.
  intros Hwf.
  assert (part_wf p → ∀ e, part_wf (entry_update e entry p)) as Hup.
  { intros _ e. eapply part_wf_frame; [apply entry_update_frame| | |done].
    - by destruct (entry_update_frame e entry p) as [_ ->].
    - unfold entry_update. by destruct (showBeak entry). }
  destruct a as [r|e]; cbn [accessor_update]; [|by apply Hup].
  destruct (objects p !! r) as [pending|] eqn:Hr; [|done].
  destruct (p_accessor pending) as [[?|e]|]; [done|by apply Hup|].
  destruct Hwf as [[Hnd Hall] Hvw]. split; [split; [done|]|done].
  intros r' Hr'. destruct (Hall r' Hr') as [Hlt Hsome]. split; [done|].
  simpl. destruct (decide (r = r')) as [->|Hne].
  - by rewrite lookup_insert_eq.
  - by rewrite lookup_insert_ne.
Qed.

Lemma part_wf_accessor_dispose a p :
  part_wf p → part_wf (accessor_dispose a p).
Proof.
  intros Hwf.
  destruct a as [r|e]; cbn [accessor_dispose]; [|by apply part_wf_entry_dispose].
  destruct (objects p !! r) as [pending|] eqn:Hr; [|done].
  destruct (p_accessor pending) as [[?|e]|];
    [done|by apply part_wf_entry_dispose|].
  destruct Hwf as [[Hnd Hall] Hvw]. split; [split|done].
  - simpl. by apply NoDup_filter.
  - intros r'. simpl. intros [_ Hr']%list_elem_of_filter.
    destruct (Hall r' Hr') as [Hlt Hsome]. by split.
Qed.

Lemma part_wf_updateEntryVisibility i visible p :
  part_wf p → part_wf (updateEntryVisibility i visible p).
Proof.
  intros [Hqw Hvw]. split.
  - eapply queue_wf_frame; [apply updateEntryVisibility_frame| |done].
    by destruct (updateEntryVisibility_frame i visible p) as [_ ->].
  - unfold updateEntryVisibility.
    destruct visible; simpl; [by apply vm_wf_show|by apply vm_wf_hide].
Qed.

Lemma part_wf_registry_loop (registry_items : list IStatusbarItemDescriptor) p :
  part_wf p → part_wf (foldl createRegistryItem p registry_items).
Proof.
  revert p. induction registry_items as [|item items IH]; intros p Hwf; [done|].
  cbn [foldl]. apply IH. rewrite createRegistryItem_spec.
  destruct Hwf as [Hqw Hvw]. split.
  - eapply queue_wf_frame; [|  |exact Hqw]; [done|simpl; lia].
  - simpl. by apply vm_wf_add.
Qed.

Lemma part_wf_fillPendingEntries fuel p :
  element p ≠ None → part_wf p → part_wf (fillPendingEntries fuel p).
Proof.
  revert p. induction fuel as [|fuel IH]; intros p He Hwf; [done|]. simpl.
  destruct (pendingEntries p) as [|r0 rest] eqn:Hq; [done|].
  assert (part_wf (set_pendingEntries rest p)) as Hwf1.
  { destruct Hwf as [[Hnd Hall] Hvw]. rewrite Hq in Hnd, Hall.
    apply NoDup_cons in Hnd as [_ Hnd]. split; [split; [done|]|done].
    intros r Hr. apply (Hall r). by right. }
  destruct (objects p !! r0) as [pending0|] eqn:H0; [|by apply IH].
  unfold addEntry. rewrite decide_False by done.
  pose proof (part_wf_doAddEntry (p_entry pending0) (p_id pending0)
                (p_name pending0) (p_alignment pending0) (p_priority pending0)
                (set_pendingEntries rest p) Hwf1) as Hwf2.
  destruct (doAddEntry_frame (p_entry pending0) (p_id pending0)
              (p_name pending0) (p_alignment pending0) (p_priority pending0)
              (set_pendingEntries rest p)) as [Hf _].
  destruct (doAddEntry _ _ _ _ _ _) as [accessor p2]. simpl in Hf, Hwf2.
  apply queue_state_inv in Hf as (He2 & Hq2 & Ho2). simpl in He2, Hq2, Ho2.
  apply IH; [simpl; by rewrite He2|].
  destruct Hwf2 as [[Hnd Hall] Hvw]. split; [split; [done|]|done].
  intros r Hr. destruct (Hall r Hr) as [Hlt Hsome]. split; [done|].
  simpl. destruct (decide (r0 = r)) as [->|Hne].
  - by rewrite lookup_insert_eq.
  - by rewrite lookup_insert_ne.
Qed.

Lemma part_wf_createContentArea parent registry_items p :
  part_wf p → part_wf (createContentArea parent registry_items p).
Proof.
  intros Hwf. unfold createContentArea, createInitialStatusbarEntries.
  set (p1 := foldl createRegistryItem (set_element (Some parent) p)
               registry_items).
  assert (part_wf p1) as Hwf1.
  { apply part_wf_registry_loop. by destruct Hwf. }
  destruct (appendAllStatusbarEntries_spec p1) as [cs Hcs].
  destruct (appendAllStatusbarEntries_frame p1) as [Hq1 Hn1].
  destruct (registry_loop_frame registry_items (set_element (Some parent) p))
    as [Hq2 _]. fold p1 in Hq2.
  apply part_wf_fillPendingEntries.
  - apply queue_state_inv in Hq1 as (-> & _).
    apply queue_state_inv in Hq2 as (-> & _). done.
  - eapply part_wf_frame; [exact Hq1|exact Hn1| |exact Hwf1].
    by rewrite Hcs.
Qed.

Lemma part_step_wf p op : part_wf p → part_wf (part_step p op).
Proof.
  intros Hwf.
  destruct op as [entry i name al prio|a entry|a|i visible|parent items];
    simpl.
  - by apply part_wf_addEntry.
  - by apply part_wf_accessor_update.
  - by apply part_wf_accessor_dispose.
  - by apply part_wf_updateEntryVisibility.
  - by apply part_wf_createContentArea.
Qed.

Lemma part_run_wf storage (d : Dom) ops :
  part_wf (part_run ops (new_StatusbarPart storage d)).
Proof.
  induction ops as [|op ops IH] using rev_ind.
  - split; [split; [constructor|]|].
    + intros r Hr. by apply elem_of_nil in Hr.
    + split; [constructor|]. split; [intros e He; by apply elem_of_nil in He|].
      split; [constructor|]. split; [constructor|].
      intros e He. by apply elem_of_nil in He.
  - unfold part_run in *. rewrite foldl_snoc. by apply part_step_wf.
Qed.

(** X11.  In every state that the part reaches from its construction, the
    entries of its view model have pairwise distinct elements, the array of
    entries is sorted by the comparator of [sort], the element of an entry is
    displayed exactly when its identifier is not hidden, and the two edge
    classes mark the first and the last visible entry of each alignment. *)
Theorem part_keeps_the_view_model_consistent storage (d : Dom)
    (ops : list part_op) :
  let vm := viewModel (part_run ops (new_StatusbarPart storage d)) in
  NoDup (e_container <$> entries vm)
  ∧ StronglySorted (λ x y, compareEntries x y ≤ 0) (entries vm)
  ∧ (∀ e, e ∈ entries vm →
          displayed (dom vm) (e_container e) = negb (isHidden (e_id e) vm))
  ∧ marks_first_last vm.
Proof.
  intros vm.
  destruct (part_run_wf storage d ops) as (_ & Hnd & _ & Hs & Hv & Hm).
  split; [done|]. split; [done|]. split; [|done].
  by apply visibility_invariant_forall.
Qed.


(** ** What [createContentArea] makes of the queue *)

Lemma descriptors_queued_insert r0 (x x' : IPendingStatusbarEntry)
    (o : gmap nat IPendingStatusbarEntry) (rest : list nat) :
  o !! r0 = Some x → descriptor_of_pending x' = descriptor_of_pending x →
  descriptor_of_pending <$> omap (λ r, <[r0 := x']> o !! r) rest
  = descriptor_of_pending <$> omap (λ r, o !! r) rest.
Proof.
  intros Hx Hd. induction rest as [|r rest IH]; [done|]. cbn [omap list_omap].
  destruct (decide (r0 = r)) as [<-|Hne].
  - rewrite lookup_insert_eq, Hx. cbn. by rewrite Hd, IH.
  - rewrite lookup_insert_ne by done. destruct (o !! r); cbn; by rewrite IH.
Qed.

Lemma fillPendingEntries_entries fuel p :
  element p ≠ None → (length (pendingEntries p) ≤ fuel)%nat →
  descriptor_of_entry <$> entries (viewModel (fillPendingEntries fuel p))
  ≡ₚ (descriptor_of_entry <$> entries (viewModel p))
     ++ (descriptor_of_pending <$> queued p).
Proof.
  revert p. induction fuel as [|fuel IH]; intros p He Hlen.
  - unfold queued. destruct (pendingEntries p); [|simpl in Hlen; lia].
    simpl. by rewrite app_nil_r.
  - simpl. unfold queued.
    destruct (pendingEntries p) as [|r0 rest] eqn:Hq;
      [simpl; by rewrite app_nil_r|]. simpl in Hlen. cbn [omap list_omap].
    destruct (objects p !! r0) as [pending0|] eqn:H0.
    + unfold addEntry. rewrite decide_False by done.
      destruct (doAddEntry_spec (p_entry pending0) (p_id pending0)
                  (p_name pending0) (p_alignment pending0)
                  (p_priority pending0) (set_pendingEntries rest p))
        as (cs & hb & -> & _).
      rewrite IH; [|done|simpl; lia]. unfold queued.
      cbn [viewModel objects pendingEntries set_objects set_pendingEntries].
      rewrite entries_add, Array_sort_Permutation, fmap_app, <- app_assoc.
      rewrite (descriptors_queued_insert r0 pending0) by done.
      done.
    + rewrite IH; [done|done|simpl; lia].
Qed.

Lemma registry_loop_entries (registry_items : list IStatusbarItemDescriptor) p :
  descriptor_of_entry
    <$> entries (viewModel (foldl createRegistryItem p registry_items))
  ≡ₚ (descriptor_of_entry <$> entries (viewModel p)) ++ registry_items.
Proof.
  revert p. induction registry_items as [|item items IH]; intros p.
  - simpl. by rewrite app_nil_r.
  - cbn [foldl]. rewrite IH, createRegistryItem_spec. cbn [viewModel].
    rewrite entries_add, Array_sort_Permutation, fmap_app, <- app_assoc.
    by destruct item.
Qed.

Lemma length_queued p : queue_wf p → length (queued p) = length (pendingEntries p).
Proof.
  intros [_ Hall]. unfold queued.
  induction (pendingEntries p) as [|r rest IH]; [done|]. cbn [omap list_omap].
  destruct (Hall r) as [_ [x ->]]; [by left|]. simpl. f_equal.
  apply IH. intros r' Hr'. apply Hall. by right.
Qed.

(** X12.  In every state that the part reaches, each pending entry of the
    queue exists; and [createContentArea] empties the queue and adds to the
    view model exactly one entry for each item of the registry and one for
    each pending entry of the queue, with its identifier, name, alignment and
    priority, and no other entry. *)
Theorem createContentArea_shows_registry_and_queue storage (d : Dom)
    (ops : list part_op) (parent : nat)
    (registry_items : list IStatusbarItemDescriptor) :
  let p := part_run ops (new_StatusbarPart storage d) in
  let p' := createContentArea parent registry_items p in
  length (queued p) = length (pendingEntries p)
  ∧ pendingEntries p' = []
  ∧ descriptor_of_entry <$> entries (viewModel p')
    ≡ₚ (descriptor_of_entry <$> entries (viewModel p))
       ++ registry_items ++ (descriptor_of_pending <$> queued p).
Proof.
  intros p p'. split; [apply length_queued, part_run_wf|].
  split; [apply createContentArea_empties|].
  unfold p', createContentArea, createInitialStatusbarEntries.
  set (p1 := foldl createRegistryItem (set_element (Some parent) p)
               registry_items).
  destruct (appendAllStatusbarEntries_spec p1) as [cs Hcs].
  destruct (registry_loop_frame registry_items (set_element (Some parent) p))
    as [Hq2 _]. fold p1 in Hq2.
  apply queue_state_inv in Hq2 as (He2 & Hp2 & Ho2).
  rewrite Hcs, fillPendingEntries_entries; [|simpl; by rewrite He2|done].
  unfold queued. simpl. rewrite Hp2, Ho2. unfold p1.
  rewrite registry_loop_entries. simpl. by rewrite <- app_assoc.
Qed.

Lemma realized_as_fillPendingEntries r ve entry fuel p :
  element p ≠ None → r ∉ pendingEntries p →
  realized_as r ve entry p → realized_as r ve entry (fillPendingEntries fuel p).
Proof.
  revert p. induction fuel as [|fuel IH]; intros p He Hr Hreal; [done|]. simpl.
  destruct (pendingEntries p) as [|r0 rest] eqn:Hq; [done|].
  apply not_elem_of_cons in Hr as [Hne Hr].
  assert (realized_as r ve entry (set_pendingEntries rest p)) as Hreal1 by done.
  destruct (objects p !! r0) as [pending0|] eqn:H0; [|by apply IH].
  unfold addEntry. rewrite decide_False by done.
  destruct (doAddEntry_spec (p_entry pending0) (p_id pending0)
              (p_name pending0) (p_alignment pending0)
              (p_priority pending0) (set_pendingEntries rest p))
    as (cs & hb & -> & Hcs).
  apply IH; [done|done|].
  destruct Hreal as ((pending & Hp & Ha) & Hin & Hit & Hch & Hlt).
  unfold realized_as. simpl in *.
  split; [exists pending; by rewrite lookup_insert_ne|].
  split.
  { rewrite entries_add, Array_sort_Permutation, elem_of_app. by left. }
  split; [by rewrite lookup_insert_ne by lia|].
  split; [apply Hcs; by right|lia].
Qed.

Lemma fillPendingEntries_realizes_as r pending fuel p :
  element p ≠ None → (length (pendingEntries p) ≤ fuel)%nat →
  NoDup (pendingEntries p) → r ∈ pendingEntries p →
  objects p !! r = Some pending →
  ∃ ve, realized_as r ve (p_entry pending) (fillPendingEntries fuel p)
        ∧ descriptor_of_entry ve = descriptor_of_pending pending.
Proof.
  revert p. induction fuel as [|fuel IH]; intros p He Hlen Hnd Hin Hp.
  - destruct (pendingEntries p); [by apply elem_of_nil in Hin|simpl in Hlen; lia].
  - simpl. destruct (pendingEntries p) as [|r0 rest] eqn:Hq;
      [by apply elem_of_nil in Hin|]. simpl in Hlen.
    apply NoDup_cons in Hnd as [Hr0 Hnd].
    destruct (decide (r0 = r)) as [->|Hne].
    + rewrite Hp. unfold addEntry. rewrite decide_False by done.
      destruct (doAddEntry_spec (p_entry pending) (p_id pending)
                  (p_name pending) (p_alignment pending)
                  (p_priority pending) (set_pendingEntries rest p))
        as (cs & hb & -> & Hcs).
      exists (viewModelEntry_of (next_ref p) (p_id pending) (p_name pending)
                (p_alignment pending) (p_priority pending)).
      split; [|reflexivity].
      apply realized_as_fillPendingEntries; [done|done|].
      unfold realized_as. simpl.
      split; [eexists; by rewrite lookup_insert_eq|].
      split.
      { rewrite entries_add, Array_sort_Permutation, elem_of_app,
          list_elem_of_singleton. by right. }
      split; [by rewrite lookup_insert_eq|].
      split; [apply Hcs; by left|lia].
    + apply elem_of_cons in Hin as [?|Hin]; [done|].
      destruct (objects p !! r0) as [pending0|] eqn:H0.
      * unfold addEntry. rewrite decide_False by done.
        destruct (doAddEntry_spec (p_entry pending0) (p_id pending0)
                    (p_name pending0) (p_alignment pending0)
                    (p_priority pending0) (set_pendingEntries rest p))
          as (cs & hb & -> & Hcs).
        apply IH; simpl; [done|lia|done|done|].
        by rewrite lookup_insert_ne.
      * apply IH; simpl; [done|lia|done|done|done].
Qed.

Lemma createContentArea_realizes_as r pending parent registry_items p :
  NoDup (pendingEntries p) → r ∈ pendingEntries p →
  objects p !! r = Some pending →
  ∃ ve, realized_as r ve (p_entry pending)
          (createContentArea parent registry_items p)
        ∧ descriptor_of_entry ve = descriptor_of_pending pending.
Proof.
  intros Hnd Hin Hp. unfold createContentArea, createInitialStatusbarEntries.
  destruct (appendAllStatusbarEntries_frame
    (foldl createRegistryItem (set_element (Some parent) p) registry_items))
    as [Hq1 _].
  destruct (registry_loop_frame registry_items (set_element (Some parent) p))
    as [Hq2 _].
  apply queue_state_inv in Hq1 as (He1 & Hp1 & Ho1).
  apply queue_state_inv in Hq2 as (He2 & Hp2 & Ho2).
  apply fillPendingEntries_realizes_as.
  - by rewrite He1, He2.
  - done.
  - by rewrite Hp1, Hp2.
  - by rewrite Hp1, Hp2.
  - by rewrite Ho1, Ho2.
Qed.

(** While the container does not exist, no pending entry has an accessor. *)
Lemma part_step_unrealized p op :
  (element p = None →
   ∀ r pending, objects p !! r = Some pending → p_accessor pending = None) →
  element (part_step p op) = None →
  ∀ r pending, objects (part_step p op) !! r = Some pending →
               p_accessor pending = None.
Proof.
  intros Hinv.
  destruct op as [entry i name al prio|a entry|a|i visible|parent items];
    simpl.
  - rewrite element_addEntry. intros He. rewrite addEntry_pending by done.
    intros r pending. simpl. destruct (decide (next_ref p = r)) as [->|Hne].
    + rewrite lookup_insert_eq. by intros [= <-].
    + rewrite lookup_insert_ne by done. by apply Hinv.
  - destruct a as [r'|e]; cbn [accessor_update].
    + destruct (objects p !! r') as [pending'|] eqn:Hr'; [|done].
      destruct (p_accessor pending') as [[?|e]|] eqn:Ha'; [done| |].
      * intros He. destruct (entry_update_frame e entry p) as [Hq _].
        apply queue_state_inv in Hq as (Hel & _ & Ho).
        rewrite Hel in He. rewrite Ho. by apply Hinv.
      * simpl. intros He r pending.
        destruct (decide (r' = r)) as [->|Hne].
        -- rewrite lookup_insert_eq. by intros [= <-].
        -- rewrite lookup_insert_ne by done. by apply Hinv.
    + intros He. destruct (entry_update_frame e entry p) as [Hq _].
      apply queue_state_inv in Hq as (Hel & _ & Ho).
      rewrite Hel in He. rewrite Ho. by apply Hinv.
  - destruct a as [r'|e]; cbn [accessor_dispose].
    + destruct (objects p !! r') as [pending'|] eqn:Hr'; [|done].
      destruct (p_accessor pending') as [[?|e]|] eqn:Ha'; [done| |done].
      intros He. destruct (entry_dispose_frame e p) as [Hq _].
      apply queue_state_inv in Hq as (Hel & _ & Ho).
      rewrite Hel in He. rewrite Ho. by apply Hinv.
    + intros He. destruct (entry_dispose_frame e p) as [Hq _].
      apply queue_state_inv in Hq as (Hel & _ & Ho).
      rewrite Hel in He. rewrite Ho. by apply Hinv.
  - intros He. destruct (updateEntryVisibility_frame i visible p) as [Hq _].
    apply queue_state_inv in Hq as (Hel & _ & Ho).
    rewrite Hel in He. rewrite Ho. by apply Hinv.
  - by rewrite element_createContentArea.
Qed.

Lemma part_run_unrealized storage (d : Dom) ops :
  let p := part_run ops (new_StatusbarPart storage d) in
  element p = None →
  ∀ r pending, objects p !! r = Some pending → p_accessor pending = None.
Proof.
  induction ops as [|op ops IH] using rev_ind.
  - intros p _ r pending. unfold p. simpl. by rewrite lookup_empty.
  - unfold part_run in *. rewrite foldl_snoc. by apply part_step_unrealized.
Qed.

Lemma remove_first_NoDup {A} `{EqDecision A} (x : A) (l : list A) :
  NoDup l → x ∉ remove_first x l.
Proof.
  induction l as [|y l IH]; intros Hnd; simpl; [apply not_elem_of_nil|].
  apply NoDup_cons in Hnd as [Hy Hnd]. case_decide as Hxy.
  - by subst.
  - apply not_elem_of_cons. split; [done|by apply IH].
Qed.

(** X13.  A pending entry that is in the queue while the container does not
    exist, and that is updated through its accessor, is realized by
    [createContentArea] with the entry of the update: the view model gets an
    entry with the identifier, name, alignment and priority of the pending
    entry, whose element is a child of the part and whose item renders the
    entry of the update.  From then on the accessor of the pending entry
    forwards: [update] changes what the item renders, [dispose] takes the
    entry out of the view model, its element out of the children, and its
    item away. *)
Theorem pending_accessor_forwards_to_the_realized_entry storage (d : Dom)
    (ops : list part_op) (r : nat) (entry2 : IStatusbarEntry) (parent : nat)
    (registry_items : list IStatusbarItemDescriptor) :
  let p := part_run ops (new_StatusbarPart storage d) in
  element p = None → r ∈ pendingEntries p →
  let p2 := accessor_update (PendingAccessor r) entry2 p in
  let p3 := createContentArea parent registry_items p2 in
  ∃ pending viewModelEntry,
    objects p !! r = Some pending
    ∧ descriptor_of_entry viewModelEntry = descriptor_of_pending pending
    ∧ realized_as r viewModelEntry entry2 p3
    ∧ (∀ entry3,
         items (accessor_update (PendingAccessor r) entry3 p3)
           !! e_container viewModelEntry = Some entry3)
    ∧ let p4 := accessor_dispose (PendingAccessor r) p3 in
      viewModelEntry ∉ entries (viewModel p4)
      ∧ e_container viewModelEntry ∉ children p4
      ∧ items p4 !! e_container viewModelEntry = None.
Proof.
  intros p He Hin p2 p3.
  pose proof (part_run_wf storage d ops) as Hwf. fold p in Hwf.
  destruct Hwf as [[Hnd Hall] Hvw].
  destruct (Hall r Hin) as [_ [pending Hp]].
  pose proof (part_run_unrealized storage d ops He r pending Hp) as Ha.
  fold p in Hp.
  set (pending2 := {| p_id := p_id pending; p_name := p_name pending;
                      p_entry := entry2; p_alignment := p_alignment pending;
                      p_priority := p_priority pending; p_accessor := None |}).
  assert (p2 = set_objects (<[r := pending2]> (objects p)) p) as Hp2.
  { unfold p2. cbn [accessor_update]. by rewrite Hp, Ha. }
  destruct (createContentArea_realizes_as r pending2 parent registry_items p2)
    as (ve & Hreal & Hdesc).
  { by rewrite Hp2. }
  { by rewrite Hp2. }
  { rewrite Hp2. simpl. by rewrite lookup_insert_eq. }
  fold p3 in Hreal. exists pending, ve.
  split; [done|]. split; [done|]. split; [done|].
  destruct Hreal as ((pending3 & Hp3 & Ha3) & Hve & Hit & Hch & Hlt).
  split.
  - intros entry3. cbn [accessor_update]. rewrite Hp3, Ha3.
    unfold entry_update. simpl. by rewrite lookup_insert_eq.
  - cbn [accessor_dispose]. rewrite Hp3, Ha3. unfold entry_dispose. simpl.
    assert (part_wf p3) as ((_ & _) & Hnd3 & _).
    { apply part_wf_createContentArea. unfold p2.
      apply part_wf_accessor_update, part_run_wf. }
    split; [|split].
    + rewrite entries_remove. apply remove_first_NoDup.
      by eapply NoDup_fmap_1.
    + rewrite list_elem_of_filter. by intros [? _].
    + by rewrite lookup_delete_eq.
Qed.

End part_more.

(** ** The order of the elements in the document *)

Lemma filter_insertBefore (P : nat → Prop) `{!∀ x, Decision (P x)}
    node reference cs :
  P node → P reference →
  filter P (insertBefore node reference cs)
  = insertBefore node reference (filter P cs).
Proof.
  intros Hn Hr. induction cs as [|c cs IH]; simpl.
  - by rewrite filter_cons, decide_True.
  - destruct (decide (c = reference)) as [->|Hne].
    + rewrite !filter_cons, !decide_True by done. simpl.
      by rewrite decide_True.
    + rewrite !filter_cons. destruct (decide (P c)); [|done].
      simpl. rewrite decide_False by done. by rewrite IH.
Qed.

Lemma filter_insertBefore_not (P : nat → Prop) `{!∀ x, Decision (P x)}
    node reference cs :
  ¬ P node →
  filter P (insertBefore node reference cs) = filter P cs.
Proof.
  intros Hn. induction cs as [|c cs IH]; simpl.
  - by rewrite filter_cons, decide_False.
  - destruct (decide (c = reference)) as [->|Hne].
    + by rewrite (filter_cons _ node), decide_False.
    + rewrite !filter_cons. destruct (decide (P c)); by rewrite IH.
Qed.

Lemma filter_sorted_insert_not {A} (cmp : A → A → Z) (P : A → Prop)
    `{!∀ x, Decision (P x)} x (l : list A) :
  ¬ P x → filter P (sorted_insert cmp x l) = filter P l.
Proof.
  intros Hx. induction l as [|y l IH]; simpl.
  - by rewrite filter_cons, decide_False.
  - case_decide.
    + by rewrite (filter_cons _ x), decide_False.
    + rewrite !filter_cons. destruct (decide (P y)); by rewrite IH.
Qed.

Lemma getEntries_sorted_insert_left ve (es : list IStatusbarViewModelEntry) :
  e_alignment ve = LEFT →
  StronglySorted (λ x y, compareEntries x y ≤ 0) es →
  filter (λ e, e_alignment e = LEFT) (sorted_insert compareEntries ve es)
  = sorted_insert compareEntries ve (filter (λ e, e_alignment e = LEFT) es).
Proof.
  intros Hve. induction es as [|y es IH]; intros Hs; simpl.
  - by rewrite filter_cons, decide_True.
  - apply StronglySorted_cons in Hs as [Hy Hs].
    destruct (decide (0 < compareEntries y ve)) as [Hlt|Hge].
    + rewrite (filter_cons _ ve), decide_True by done.
      destruct (e_alignment y) eqn:Hay.
      * rewrite filter_cons, decide_True by done. simpl.
        by rewrite decide_True.
      * rewrite (filter_none (λ e, e_alignment e = LEFT) (y :: es)); [done|].
        intros x [->|Hx]%elem_of_cons Hax; [congruence|].
        rewrite Forall_forall in Hy. specialize (Hy x Hx).
        unfold compareEntries in Hy. rewrite Hay, Hax in Hy.
        repeat case_decide; try done; lia.
    + assert (e_alignment y = LEFT) as Hay.
      { unfold compareEntries in Hge. rewrite Hve in Hge.
        destruct (e_alignment y); [done|].
        repeat case_decide; try done; lia. }
      rewrite !filter_cons, !decide_True by done. simpl.
      rewrite decide_False by done. by rewrite IH.
Qed.

Lemma containers_sorted_insert_left (L : list IStatusbarViewModelEntry) ve :
  e_alignment ve = LEFT →
  (∀ e, e ∈ L → e_alignment e = LEFT) →
  NoDup (e_container <$> L) →
  e_container <$> sorted_insert compareEntries ve L
  = match
      list_find (λ entry,
                   (LEFT = LEFT ∧ e_priority entry < e_priority ve) ∨
                   (LEFT = RIGHT ∧ e_priority entry > e_priority ve)) L
    with
    | Some (_, entry) =>
        insertBefore (e_container ve) (e_container entry) (e_container <$> L)
    | None => (e_container <$> L) ++ [e_container ve]
    end.
Proof.
  intros Hve HL Hnd. induction L as [|y L IH]; [done|].
  rewrite fmap_cons in Hnd. apply NoDup_cons in Hnd as [Hy Hnd].
  assert (e_alignment y = LEFT) as Hay by (apply HL; by left).
  assert (∀ e, e ∈ L → e_alignment e = LEFT) as HL'
    by (intros e He; apply HL; by right).
  specialize (IH HL' Hnd).
  cbn [sorted_insert list_find].
  assert (compareEntries y ve = e_priority ve - e_priority y) as Hcmp.
  { unfold compareEntries. by rewrite Hay, Hve, decide_True. }
  destruct (decide (0 < compareEntries y ve)) as [Hlt|Hge].
  - rewrite decide_True by (left; split; [done|lia]).
    simpl. by rewrite decide_True.
  - rewrite decide_False by (intros [[_ ?]|[? _]]; [lia|done]).
    rewrite fmap_cons, IH.
    destruct (list_find _ L) as [[k e]|] eqn:Hfind; simpl; [|done].
    rewrite decide_False; [done|].
    intros Hc. apply Hy. rewrite Hc. apply list_elem_of_fmap_2.
    apply list_find_Some in Hfind as (Hk & _).
    by eapply list_elem_of_lookup_2.
Qed.

Section dom_order.
  Context `{JSON}.
  Implicit Types (p : StatusbarPart).

Lemma doAddEntry_children entry i name alignment priority p :
  children (doAddEntry entry i name alignment priority p).2
  = match
      list_find (λ e,
                   (alignment = LEFT ∧ e_priority e < priority) ∨
                   (alignment = RIGHT ∧ e_priority e > priority))
                (if decide (alignment = RIGHT)
                 then reverse (getEntries alignment (viewModel p))
                 else getEntries alignment (viewModel p))
    with
    | Some (_, e) => insertBefore (next_ref p) (e_container e) (children p)
    | None => children p ++ [next_ref p]
    end.
Proof.
  unfold doAddEntry, doCreateStatusItem, appendOneStatusbarEntry.
  cbn [fresh fst snd]. destruct (showBeak entry); cbn;
    match goal with
    | |- context [list_find ?P ?l] => destruct (list_find P l) as [[? ?]|]
    end; done.
Qed.

Lemma dom_matches_left_doAddEntry entry i name alignment priority p :
  vm_wf (next_ref p) (viewModel p) → children_allocated p →
  dom_matches_left p →
  dom_matches_left (doAddEntry entry i name alignment priority p).2.
Proof.
  intros (Hnd & Hlt & Hs & _) Hch Hdom.
  unfold dom_matches_left, left_children in *.
  rewrite doAddEntry_children.
  destruct (doAddEntry_spec entry i name alignment priority p)
    as (cs & hb & -> & _). cbn [snd viewModel].
  set (ve := viewModelEntry_of (next_ref p) i name alignment priority).
  set (L := getEntries LEFT (viewModel p)) in *.
  assert (entries (add ve (viewModel p))
          = sorted_insert compareEntries ve (entries (viewModel p))) as Hes
    by by rewrite entries_add, Array_sort_snoc, Array_sort_sorted.
  assert (getEntries LEFT (add ve (viewModel p))
          = if decide (alignment = LEFT)
            then sorted_insert compareEntries ve L else L) as ->.
  { unfold getEntries. rewrite Hes. case_decide as Ha.
    - by apply getEntries_sorted_insert_left.
    - by apply filter_sorted_insert_not. }
  assert (next_ref p ∉ children p) as Hfresh.
  { intros Hc. apply Hch in Hc. lia. }
  assert (next_ref p ∉ e_container <$> L) as HfreshL.
  { intros (x & Hx & [_ Hin]%list_elem_of_filter)%list_elem_of_fmap.
    apply Hlt in Hin. lia. }
  assert (NoDup (e_container <$> L)) as HndL.
  { eapply sublist_NoDup; [exact Hnd|]. apply fmap_sublist, sublist_filter. }
  destruct alignment.
  - (* a LEFT entry *)
    rewrite (decide_True (P := LEFT = LEFT)) by done.
    rewrite (decide_False (P := LEFT = RIGHT)) by done.
    fold L. rewrite (containers_sorted_insert_left L ve); [|done| |done].
    2:{ by intros e [He _]%list_elem_of_filter. }
    change (e_priority ve) with priority.
    change (e_container ve) with (next_ref p).
    destruct (list_find _ L) as [[k e]|] eqn:Hfind.
    + assert (e ∈ L) as HeL.
      { apply list_find_Some in Hfind as (Hk & _).
        by eapply list_elem_of_lookup_2. }
      rewrite filter_insertBefore.
      * f_equal. etrans; [|exact Hdom]. apply filter_iff_elem. intros c Hc.
        rewrite elem_of_insertBefore. split; [|by right].
        intros [->|?]; done.
      * apply elem_of_insertBefore. by left.
      * apply elem_of_insertBefore. right. by apply list_elem_of_fmap_2.
    + rewrite filter_app, filter_cons, decide_True, filter_nil
        by (apply elem_of_app; right; by left).
      f_equal. etrans; [|exact Hdom]. apply filter_iff_elem. intros c Hc.
      rewrite elem_of_app, list_elem_of_singleton. split; [|by left].
      intros [?| ->]; done.
  - (* a RIGHT entry *)
    rewrite (decide_False (P := RIGHT = LEFT)) by done.
    destruct (list_find _ _) as [[k e]|].
    + rewrite filter_insertBefore_not by done. exact Hdom.
    + rewrite filter_app, filter_cons, decide_False, filter_nil by done.
      by rewrite app_nil_r.
Qed.


Lemma reappend (cs l : list nat) :
  NoDup l →
  foldl (λ cs c, filter (λ x, x ≠ c) cs ++ [c]) cs l
  = filter (λ x, x ∉ l) cs ++ l.
Proof.
  revert cs. induction l as [|c l IH]; intros cs Hnd; simpl.
  - rewrite app_nil_r. symmetry. apply filter_all.
    intros x _. apply not_elem_of_nil.
  - apply NoDup_cons in Hnd as [Hc Hnd]. rewrite IH by done.
    rewrite filter_app, filter_cons, decide_True, filter_nil by done.
    rewrite list_filter_filter, <- app_assoc. f_equal.
    apply filter_iff_elem. intros x _. rewrite not_elem_of_cons. tauto.
Qed.

Lemma appendAllStatusbarEntries_children p :
  children (appendAllStatusbarEntries p)
  = foldl (λ cs c, filter (λ x, x ≠ c) cs ++ [c]) (children p)
          (e_container <$> getEntries LEFT (viewModel p)
                             ++ reverse (getEntries RIGHT (viewModel p)))
  ∧ viewModel (appendAllStatusbarEntries p) = viewModel p
  ∧ next_ref (appendAllStatusbarEntries p) = next_ref p.
Proof.
  unfold appendAllStatusbarEntries.
  generalize (getEntries LEFT (viewModel p)
                ++ reverse (getEntries RIGHT (viewModel p))) as es.
  intros es. revert p. induction es as [|e es IH]; intros p; [done|].
  cbn [foldl]. rewrite fmap_cons. cbn [foldl].
  destruct (IH (set_children
      (filter (λ c, c ≠ e_container e) (children p) ++ [e_container e]) p))
    as (-> & -> & ->). done.
Qed.

Lemma NoDup_containers_in_order vm :
  NoDup (e_container <$> entries vm) →
  NoDup ((e_container <$> getEntries LEFT vm)
           ++ reverse (e_container <$> getEntries RIGHT vm)).
Proof.
  intros Hnd. apply NoDup_app. split; [|split].
  - eapply sublist_NoDup; [exact Hnd|]. apply fmap_sublist, sublist_filter.
  - intros c (x & -> & [Hx Hxin]%list_elem_of_filter)%list_elem_of_fmap.
    rewrite elem_of_reverse.
    intros (y & Hc & [Hy Hyin]%list_elem_of_filter)%list_elem_of_fmap.
    assert (x = y) by by eapply NoDup_fmap_elem_inj. congruence.
  - rewrite reverse_Permutation. eapply sublist_NoDup; [exact Hnd|].
    apply fmap_sublist, sublist_filter.
Qed.

Lemma children_appendAllStatusbarEntries p :
  NoDup (e_container <$> entries (viewModel p)) →
  children (appendAllStatusbarEntries p)
  = filter (λ c, c ∉ e_container <$> entries (viewModel p)) (children p)
    ++ (e_container <$> getEntries LEFT (viewModel p))
    ++ reverse (e_container <$> getEntries RIGHT (viewModel p)).
Proof.
  intros Hnd. destruct (appendAllStatusbarEntries_children p) as (-> & _).
  rewrite fmap_app, fmap_reverse.
  rewrite reappend by by apply NoDup_containers_in_order.
  f_equal. apply filter_iff_elem. intros c _.
  rewrite elem_of_app, elem_of_reverse, !list_elem_of_fmap.
  split.
  - intros Hno (x & -> & Hx). apply Hno.
    destruct (e_alignment x) eqn:Ha; [left|right]; exists x;
      (split; [done|]); by apply list_elem_of_filter.
  - intros Hno [(x & -> & [_ Hx]%list_elem_of_filter)
               |(x & -> & [_ Hx]%list_elem_of_filter)];
      apply Hno; by exists x.
Qed.

Lemma dom_matches_left_appendAllStatusbarEntries p :
  NoDup (e_container <$> entries (viewModel p)) →
  dom_matches_left (appendAllStatusbarEntries p).
Proof.
  intros Hnd. unfold dom_matches_left, left_children.
  rewrite children_appendAllStatusbarEntries by done.
  destruct (appendAllStatusbarEntries_children p) as (_ & -> & _).
  set (LC := e_container <$> getEntries LEFT (viewModel p)).
  rewrite !filter_app.
  rewrite (filter_none _ (filter _ (children p))).
  2:{ intros c [Hc _]%list_elem_of_filter Hin. apply Hc.
      apply list_elem_of_fmap in Hin as (x & -> & [_ Hx]%list_elem_of_filter).
      by apply list_elem_of_fmap_2. }
  rewrite (filter_all _ LC) by done.
  rewrite (filter_none _ (reverse _)); [by rewrite app_nil_r|].
  intros c Hc Hin.
  pose proof (NoDup_containers_in_order _ Hnd) as Hall.
  apply NoDup_app in Hall as (_ & Hdis & _). by apply (Hdis c).
Qed.

Lemma children_allocated_doAddEntry entry i name alignment priority p :
  children_allocated p →
  children_allocated (doAddEntry entry i name alignment priority p).2.
Proof.
  intros Hch.
  destruct (doAddEntry_spec entry i name alignment priority p)
    as (cs & hb & -> & Hcs). intros c. simpl.
  intros [->|Hc]%Hcs; [lia|]. apply Hch in Hc. lia.
Qed.

Lemma dom_wf_doAddEntry entry i name alignment priority p :
  dom_wf p → dom_wf (doAddEntry entry i name alignment priority p).2.
Proof.
  intros (Hvw & Hch & Hdom). split; [|split].
  - destruct (doAddEntry_spec entry i name alignment priority p)
      as (cs & hb & -> & _). simpl. by apply vm_wf_add.
  - by apply children_allocated_doAddEntry.
  - by apply dom_matches_left_doAddEntry.
Qed.

Lemma dom_wf_fillPendingEntries fuel p :
  element p ≠ None → dom_wf p → dom_wf (fillPendingEntries fuel p).
Proof.
  revert p. induction fuel as [|fuel IH]; intros p He Hwf; [done|]. simpl.
  destruct (pendingEntries p) as [|r0 rest] eqn:Hq; [done|].
  assert (dom_wf (set_pendingEntries rest p)) as Hwf1 by done.
  destruct (objects p !! r0) as [pending0|] eqn:H0; [|by apply IH].
  unfold addEntry. rewrite decide_False by done.
  pose proof (dom_wf_doAddEntry (p_entry pending0) (p_id pending0)
                (p_name pending0) (p_alignment pending0) (p_priority pending0)
                (set_pendingEntries rest p) Hwf1) as Hwf2.
  destruct (doAddEntry_frame (p_entry pending0) (p_id pending0)
              (p_name pending0) (p_alignment pending0) (p_priority pending0)
              (set_pendingEntries rest p)) as [Hf _].
  destruct (doAddEntry _ _ _ _ _ _) as [accessor p2]. simpl in Hf, Hwf2.
  apply queue_state_inv in Hf as (He2 & _). simpl in He2.
  apply IH; [simpl; by rewrite He2|done].
Qed.

Lemma vm_wf_registry_loop (registry_items : list IStatusbarItemDescriptor) p :
  vm_wf (next_ref p) (viewModel p) → children_allocated p →
  let p' := foldl createRegistryItem p registry_items in
  vm_wf (next_ref p') (viewModel p') ∧ children_allocated p'.
Proof.
  revert p. induction registry_items as [|item items IH]; intros p Hvw Hch;
    [done|].
  cbn [foldl]. apply IH; rewrite createRegistryItem_spec.
  - simpl. by apply vm_wf_add.
  - intros c Hc. simpl in *. apply Hch in Hc. lia.
Qed.

Lemma dom_wf_createContentArea parent registry_items p :
  vm_wf (next_ref p) (viewModel p) → children_allocated p →
  dom_wf (createContentArea parent registry_items p).
Proof.
  intros Hvw Hch. unfold createContentArea, createInitialStatusbarEntries.
  set (p1 := foldl createRegistryItem (set_element (Some parent) p)
               registry_items).
  destruct (vm_wf_registry_loop registry_items (set_element (Some parent) p))
    as [Hvw1 Hch1]; [done|done|]. fold p1 in Hvw1, Hch1.
  destruct (appendAllStatusbarEntries_children p1) as (Hc & Hv & Hn).
  destruct (appendAllStatusbarEntries_frame p1) as [Hq1 _].
  destruct (registry_loop_frame registry_items (set_element (Some parent) p))
    as [Hq2 _]. fold p1 in Hq2.
  apply dom_wf_fillPendingEntries.
  - apply queue_state_inv in Hq1 as (-> & _).
    apply queue_state_inv in Hq2 as (-> & _). done.
  - destruct Hvw1 as (Hnd & Hlt & Hrest). split; [|split].
    + by rewrite Hn, Hv.
    + intros c. rewrite children_appendAllStatusbarEntries, Hn by done.
      rewrite !elem_of_app, elem_of_reverse, !list_elem_of_fmap.
      intros [[_ Hin]%list_elem_of_filter
             |[(x & -> & [_ Hx]%list_elem_of_filter)
              |(x & -> & [_ Hx]%list_elem_of_filter)]];
        [by apply Hch1|by apply Hlt|by apply Hlt].
    + by apply dom_matches_left_appendAllStatusbarEntries.
Qed.

Lemma children_allocated_part_step p op :
  part_wf p → children_allocated p → children_allocated (part_step p op).
Proof.
  intros [_ Hvw] Hch.
  assert (∀ e, children_allocated (entry_dispose e p)) as Hdis.
  { intros e c. unfold entry_dispose. simpl.
    intros [_ Hc]%list_elem_of_filter. by apply Hch. }
  assert (∀ e entry, children_allocated (entry_update e entry p)) as Hup.
  { intros e entry c. unfold entry_update. destruct (showBeak entry); apply Hch. }
  destruct op as [entry i name al prio|a entry|a|i visible|parent items];
    simpl.
  - destruct (element p) eqn:He.
    + unfold addEntry. rewrite decide_False by by rewrite He.
      by apply children_allocated_doAddEntry.
    + rewrite addEntry_pending by done. intros c Hc. simpl in *.
      apply Hch in Hc. lia.
  - destruct a as [r|e]; cbn [accessor_update]; [|done].
    destruct (objects p !! r) as [pending|]; [|done].
    by destruct (p_accessor pending) as [[?|e]|].
  - destruct a as [r|e]; cbn [accessor_dispose]; [|done].
    destruct (objects p !! r) as [pending|]; [|done].
    by destruct (p_accessor pending) as [[?|e]|].
  - unfold updateEntryVisibility. by destruct visible.
  - by apply dom_wf_createContentArea.
Qed.

Lemma children_allocated_part_run storage (d : Dom) ops :
  children_allocated (part_run ops (new_StatusbarPart storage d)).
Proof.
  induction ops as [|op ops IH] using rev_ind.
  - intros c Hc. by apply elem_of_nil in Hc.
  - unfold part_run in *. rewrite foldl_snoc.
    apply children_allocated_part_step; [|done]. apply part_run_wf.
Qed.

Lemma dom_wf_part_step p op :
  disposes_nothing op = true → dom_wf p → dom_wf (part_step p op).
Proof.
  intros Hop (Hvw & Hch & Hdom).
  destruct op as [entry i name al prio|a entry|a|i visible|parent items];
    simpl; [| |done| |].
  - destruct (element p) eqn:He.
    + unfold addEntry. rewrite decide_False by by rewrite He.
      by apply dom_wf_doAddEntry.
    + rewrite addEntry_pending by done. split; [|split].
      * simpl. eapply vm_wf_mono; [|exact Hvw]. lia.
      * intros c Hc. simpl in *. apply Hch in Hc. lia.
      * done.
  - assert (∀ e, dom_wf (entry_update e entry p)) as Hup.
    { intros e. unfold entry_update. by destruct (showBeak entry). }
    destruct a as [r|e]; cbn [accessor_update]; [|done].
    destruct (objects p !! r) as [pending|]; [|done].
    by destruct (p_accessor pending) as [[?|e]|].
  - unfold updateEntryVisibility. destruct visible; (split; [|split]); simpl.
    + by apply vm_wf_show.
    + done.
    + unfold dom_matches_left, left_children, getEntries in *. simpl.
      by rewrite entries_show.
    + by apply vm_wf_hide.
    + done.
    + unfold dom_matches_left, left_children, getEntries in *. simpl.
      by rewrite entries_hide.
  - by apply dom_wf_createContentArea.
Qed.

(** X14.  After [createContentArea], and after any further operations of a
    client that disposes of no entry ([addEntry], [update] through an
    accessor, [updateEntryVisibility], [createContentArea]), the elements of
    the LEFT entries stand among the children of the part in the order in
    which [getEntries(LEFT)] lists the entries. *)
Theorem left_elements_stand_in_the_order_of_the_view_model storage (d : Dom)
    (ops1 ops2 : list part_op) (parent : nat)
    (registry_items : list IStatusbarItemDescriptor) :
  forallb disposes_nothing ops2 = true →
  let p := part_run ops2
             (createContentArea parent registry_items
                (part_run ops1 (new_StatusbarPart storage d))) in
  filter (λ c, c ∈ e_container <$> getEntries LEFT (viewModel p)) (children p)
  = e_container <$> getEntries LEFT (viewModel p).
Proof.
  intros Hops p.
  assert (dom_wf p) as (_ & _ & Hdom); [|exact Hdom].
  unfold p. clear p.
  induction ops2 as [|op ops2 IH] using rev_ind.
  - apply dom_wf_createContentArea.
    + apply part_run_wf.
    + apply children_allocated_part_run.
  - rewrite forallb_app in Hops. apply andb_true_iff in Hops as [Hops Hop].
    simpl in Hop. rewrite andb_true_r in Hop.
    unfold part_run in *. rewrite foldl_snoc.
    apply dom_wf_part_step; [done|by apply IH].
Qed.

(** X15.  In every state that the part reaches,
    [appendAllStatusbarEntries] leaves the view model as it is and makes the
    elements of the entries the last children of the part: first the children
    that belong to no entry, in their former order, then the elements of the
    LEFT entries in the order of the view model, then the elements of the
    RIGHT entries in the reverse of that order. *)
Theorem appendAll_moves_the_elements_to_the_end storage (d : Dom)
    (ops : list part_op) :
  let p := part_run ops (new_StatusbarPart storage d) in
  let vm := viewModel p in
  children (appendAllStatusbarEntries p)
  = filter (λ c, c ∉ e_container <$> entries vm) (children p)
    ++ (e_container <$> getEntries LEFT vm)
    ++ reverse (e_container <$> getEntries RIGHT vm)
  ∧ viewModel (appendAllStatusbarEntries p) = vm.
Proof.
  intros p vm. split.
  - apply children_appendAllStatusbarEntries.
    by destruct (part_run_wf storage d ops) as (_ & Hnd & _).
  - by destruct (appendAllStatusbarEntries_children p) as (_ & -> & _).
Qed.

End dom_order.

(** ** C8: a pending entry that is disposed of *)

Section disposed_pending.
  Context `{JSON}.
  Implicit Types (p : StatusbarPart) (r : nat).

Lemma part_run_wf_from ops p : part_wf p → part_wf (part_run ops p).
Proof.
  revert p. induction ops as [|op ops IH]; intros p Hwf; [done|].
  apply IH. by apply part_step_wf.
Qed.

Lemma element_part_step p op :
  element (part_step p op)
  = match op with
    | PCreateContentArea parent _ => Some parent
    | _ => element p
    end.
Proof.
  assert (∀ p', queue_state p' = queue_state p → element p' = element p)
    as Hframe by by intros p' (-> & _)%queue_state_inv.
  destruct op as [entry i name al prio|a entry|a|i visible|parent items];
    simpl.
  - apply element_addEntry.
  - destruct a as [r|e]; cbn [accessor_update];
      [|apply Hframe, entry_update_frame].
    destruct (objects p !! r) as [pending|]; [|done].
    destruct (p_accessor pending) as [[?|e]|]; [done| |done].
    apply Hframe, entry_update_frame.
  - destruct a as [r|e]; cbn [accessor_dispose];
      [|apply Hframe, entry_dispose_frame].
    destruct (objects p !! r) as [pending|]; [|done].
    destruct (p_accessor pending) as [[?|e]|]; [done| |done].
    apply Hframe, entry_dispose_frame.
  - apply Hframe, updateEntryVisibility_frame.
  - apply element_createContentArea.
Qed.

(** While the container does not exist, nothing is in the bar. *)
Lemma part_step_empty_view p op :
  (element p = None → empty_view p) →
  element (part_step p op) = None → empty_view (part_step p op).
Proof.
  intros Hinv. rewrite element_part_step.
  assert (∀ e, empty_view p → empty_view (entry_dispose e p)) as Hdis.
  { intros e [He Hc]. unfold entry_dispose, empty_view. simpl.
    rewrite entries_remove, He, Hc. done. }
  assert (∀ e entry, empty_view p → empty_view (entry_update e entry p)) as Hup.
  { intros e entry Hv. unfold entry_update. by destruct (showBeak entry). }
  destruct op as [entry i name al prio|a entry|a|i visible|parent items];
    [| | | |done]; intros He; specialize (Hinv He); simpl.
  - by rewrite addEntry_pending.
  - destruct a as [r|e]; cbn [accessor_update]; [|by apply Hup].
    destruct (objects p !! r) as [pending|]; [|done].
    destruct (p_accessor pending) as [[?|e]|]; [done|by apply Hup|done].
  - destruct a as [r|e]; cbn [accessor_dispose]; [|by apply Hdis].
    destruct (objects p !! r) as [pending|]; [|done].
    destruct (p_accessor pending) as [[?|e]|]; [done|by apply Hdis|done].
  - destruct Hinv as [Hes Hc]. unfold updateEntryVisibility, empty_view.
    destruct visible; simpl; by rewrite ?entries_show, ?entries_hide.
Qed.

Lemma part_run_empty_view ops p :
  (element p = None → empty_view p) →
  element (part_run ops p) = None → empty_view (part_run ops p).
Proof.
  revert p. induction ops as [|op ops IH]; intros p Hinv; [done|].
  apply IH. by apply part_step_empty_view.
Qed.

(** What [createContentArea] adds to the view model. *)
Lemma createContentArea_entries parent registry_items p :
  descriptor_of_entry
    <$> entries (viewModel (createContentArea parent registry_items p))
  ≡ₚ (descriptor_of_entry <$> entries (viewModel p))
     ++ registry_items ++ (descriptor_of_pending <$> queued p).
Proof.
  unfold createContentArea, createInitialStatusbarEntries.
  set (p1 := foldl createRegistryItem (set_element (Some parent) p)
               registry_items).
  destruct (appendAllStatusbarEntries_spec p1) as [cs Hcs].
  destruct (registry_loop_frame registry_items (set_element (Some parent) p))
    as [Hq2 _]. fold p1 in Hq2.
  apply queue_state_inv in Hq2 as (He2 & Hp2 & Ho2).
  rewrite Hcs, fillPendingEntries_entries; [|simpl; by rewrite He2|done].
  unfold queued. simpl. rewrite Hp2, Ho2. unfold p1.
  rewrite registry_loop_entries. simpl. by rewrite <- app_assoc.
Qed.

Lemma children_are_elements_doAddEntry entry i name alignment priority p :
  children_are_elements p →
  children_are_elements (doAddEntry entry i name alignment priority p).2.
Proof.
  intros Hch c.
  destruct (doAddEntry_spec entry i name alignment priority p)
    as (cs & hb & -> & Hcs). simpl.
  rewrite Hcs, entries_add, Array_sort_Permutation, fmap_app, elem_of_app,
    (Hch c). simpl. rewrite list_elem_of_singleton. tauto.
Qed.

Lemma children_are_elements_fillPendingEntries fuel p :
  element p ≠ None → children_are_elements p →
  children_are_elements (fillPendingEntries fuel p).
Proof.
  revert p. induction fuel as [|fuel IH]; intros p He Hch; [done|]. simpl.
  destruct (pendingEntries p) as [|r0 rest] eqn:Hq; [done|].
  assert (children_are_elements (set_pendingEntries rest p)) as Hch1 by done.
  destruct (objects p !! r0) as [pending0|] eqn:H0; [|by apply IH].
  unfold addEntry. rewrite decide_False by done.
  pose proof (children_are_elements_doAddEntry (p_entry pending0)
                (p_id pending0) (p_name pending0) (p_alignment pending0)
                (p_priority pending0) (set_pendingEntries rest p) Hch1) as Hch2.
  destruct (doAddEntry_frame (p_entry pending0) (p_id pending0)
              (p_name pending0) (p_alignment pending0) (p_priority pending0)
              (set_pendingEntries rest p)) as [Hf _].
  destruct (doAddEntry _ _ _ _ _ _) as [accessor p2]. simpl in Hf, Hch2.
  apply queue_state_inv in Hf as (He2 & _). simpl in He2.
  apply IH; [simpl; by rewrite He2|done].
Qed.

Lemma children_registry_loop (registry_items : list IStatusbarItemDescriptor) p :
  children (foldl createRegistryItem p registry_items) = children p.
Proof.
  revert p. induction registry_items as [|item items IH]; intros p; [done|].
  cbn [foldl]. by rewrite IH, createRegistryItem_spec.
Qed.

(** When the container is created for the first time, the children of the
    part become the elements of the entries. *)
Lemma children_are_elements_createContentArea parent registry_items p :
  part_wf p → children p = [] →
  children_are_elements (createContentArea parent registry_items p).
Proof.
  intros Hwf Hnone. unfold createContentArea, createInitialStatusbarEntries.
  set (p1 := foldl createRegistryItem (set_element (Some parent) p)
               registry_items).
  assert (part_wf p1) as (_ & Hnd & _).
  { apply part_wf_registry_loop. by destruct Hwf. }
  assert (children p1 = []) as Hc1
    by (unfold p1; by rewrite children_registry_loop).
  destruct (appendAllStatusbarEntries_children p1) as (_ & Hv & _).
  destruct (appendAllStatusbarEntries_frame p1) as [Hq1 _].
  destruct (registry_loop_frame registry_items (set_element (Some parent) p))
    as [Hq2 _]. fold p1 in Hq2.
  apply children_are_elements_fillPendingEntries.
  - apply queue_state_inv in Hq1 as (-> & _).
    apply queue_state_inv in Hq2 as (-> & _). done.
  - intros c. rewrite children_appendAllStatusbarEntries, Hv, Hc1 by done.
    rewrite filter_nil, app_nil_l, elem_of_app, elem_of_reverse,
      !list_elem_of_fmap.
    split.
    + intros [(x & -> & [_ Hx]%list_elem_of_filter)
             |(x & -> & [_ Hx]%list_elem_of_filter)]; by exists x.
    + intros (x & -> & Hx).
      destruct (e_alignment x) eqn:Ha; [left|right]; exists x;
        (split; [done|]); by apply list_elem_of_filter.
Qed.

(** C8.  An entry is added while the container of the part does not exist,
    and its accessor is disposed of while the container still does not
    exist.  Neither step touches the view: the view model, the children of
    the part and the items are as before, and until the container is created
    the view model has no entry and the part no child.  The entry leaves
    the queue of pending entries, and whatever happens afterwards it never
    comes back into the queue and is never realized.  Creating the
    container empties the queue and adds to the view model one entry for
    each item of the registry and one for each pending entry that is in the
    queue, and no other: every entry of the view model then stems from an
    entry that was there before, from an item of the registry, or from a
    pending entry other than the one disposed of.  So unless one of those
    bears the identifier of the disposed entry, no entry of the view model
    does; and when the container is created for the first time, the children
    of the part are the elements of these entries. *)
Theorem disposed_pending_entry_is_never_realized
    (storage : IStorageService) (d : Dom) (ops1 ops2 : list part_op)
    (entry : IStatusbarEntry) (i name : string)
    (alignment : StatusbarAlignment) (priority : Z) :
  let p1 := part_run ops1 (new_StatusbarPart storage d) in
  let accessor := (addEntry entry i name alignment priority p1).1 in
  let p2 := (addEntry entry i name alignment priority p1).2 in
  let p3 := part_run ops2 p2 in
  let p4 := accessor_dispose accessor p3 in
  element p1 = None → element p3 = None →
  ∃ pendingEntry,
    accessor = PendingAccessor pendingEntry
    ∧ pendingEntry ∈ pendingEntries p2
    ∧ (viewModel p2 = viewModel p1 ∧ children p2 = children p1
       ∧ items p2 = items p1)
    ∧ pendingEntry ∉ pendingEntries p4
    ∧ (viewModel p4 = viewModel p3 ∧ children p4 = children p3
       ∧ items p4 = items p3)
    ∧ empty_view p4
    ∧ ∀ ops3,
        let p5 := part_run ops3 p4 in
        pendingEntry ∉ pendingEntries p5
        ∧ ¬ realized pendingEntry p5
        ∧ (element p5 = None → empty_view p5)
        ∧ ∀ parent registry_items,
            let p6 := createContentArea parent registry_items p5 in
            pendingEntries p6 = []
            ∧ ¬ realized pendingEntry p6
            ∧ length (queued p5) = length (pendingEntries p5)
            ∧ descriptor_of_entry <$> entries (viewModel p6)
              ≡ₚ (descriptor_of_entry <$> entries (viewModel p5))
                 ++ registry_items ++ (descriptor_of_pending <$> queued p5)
            ∧ (∀ e, e ∈ entries (viewModel p6) →
                 (∃ e5, e5 ∈ entries (viewModel p5)
                        ∧ descriptor_of_entry e5 = descriptor_of_entry e)
                 ∨ descriptor_of_entry e ∈ registry_items
                 ∨ ∃ r pending,
                     r ∈ pendingEntries p5 ∧ r ≠ pendingEntry
                     ∧ objects p5 !! r = Some pending
                     ∧ descriptor_of_pending pending = descriptor_of_entry e)
            ∧ ((∀ e5, e5 ∈ entries (viewModel p5) → e_id e5 ≠ i) →
               (∀ item, item ∈ registry_items → r_id item ≠ i) →
               (∀ pending, pending ∈ queued p5 → p_id pending ≠ i) →
               ∀ e, e ∈ entries (viewModel p6) → e_id e ≠ i)
            ∧ (element p5 = None → children_are_elements p6).
Proof.
  intros p1 accessor p2 p3 p4 He1 He3.
  pose proof (addEntry_pending entry i name alignment priority p1 He1) as Hadd.
  assert (part_wf p2 ∧ (element p2 = None → empty_view p2)) as [Hwf2 Hv2].
  { change p2 with (part_step p1 (PAddEntry entry i name alignment priority)).
    split.
    - apply part_step_wf, part_run_wf.
    - apply part_step_empty_view. unfold p1. apply part_run_empty_view.
      by intros _. }
  assert (part_wf p3) as Hwf3 by by apply part_run_wf_from.
  assert (empty_view p3) as Hv3 by by apply part_run_empty_view.
  subst accessor p2 p3 p4. rewrite Hadd in *. cbn [fst snd] in *.
  exists (next_ref p1).
  set (r := next_ref p1) in *.
  set (p2 := set_pendingEntries _ _) in *.
  set (p3 := part_run ops2 p2) in *.
  set (p4 := accessor_dispose (PendingAccessor r) p3).
  assert (pending_inv r p3) as (Hr3 & pending3 & Hp3 & Ha3).
  { apply part_run_pending_inv. split; [simpl; lia|].
    eexists. split; [apply lookup_insert_eq|done]. }
  assert (p4 = set_pendingEntries
                 (filter (λ entry, entry ≠ r) (pendingEntries p3)) p3) as Hp4.
  { unfold p4. cbn [accessor_dispose]. by rewrite Hp3, (Ha3 He3). }
  assert (disposed_inv r p4) as Hinv4.
  { rewrite Hp4. split; [done|]. split; [|by exists pending3; auto].
    simpl. rewrite list_elem_of_filter. naive_solver. }
  assert (part_wf p4) as Hwf4.
  { change p4 with (part_step p3 (PDispose (PendingAccessor r))).
    by apply part_step_wf. }
  assert (element p4 = None) as He4 by by rewrite Hp4.
  assert (empty_view p4) as Hv4 by by rewrite Hp4.
  split; [done|]. split.
  { simpl. rewrite elem_of_app, list_elem_of_singleton. by right. }
  split; [done|].
  split; [by destruct Hinv4 as (_ & ? & _)|].
  split; [by rewrite Hp4|]. split; [done|].
  intros ops3. set (p5 := part_run ops3 p4).
  assert (disposed_inv r p5) as Hinv5 by by apply part_run_disposed_inv.
  destruct (disposed_inv_not_realized r p5 Hinv5) as [Hq5 Hr5].
  assert (part_wf p5) as Hwf5 by by apply part_run_wf_from.
  split; [done|]. split; [done|].
  split; [by apply part_run_empty_view|].
  intros parent registry_items.
  set (p6 := createContentArea parent registry_items p5).
  pose proof (createContentArea_entries parent registry_items p5) as Hperm.
  fold p6 in Hperm.
  assert (∀ e, e ∈ entries (viewModel p6) →
            (∃ e5, e5 ∈ entries (viewModel p5)
                   ∧ descriptor_of_entry e5 = descriptor_of_entry e)
            ∨ descriptor_of_entry e ∈ registry_items
            ∨ ∃ r' pending,
                r' ∈ pendingEntries p5 ∧ r' ≠ r
                ∧ objects p5 !! r' = Some pending
                ∧ descriptor_of_pending pending = descriptor_of_entry e)
    as Horigin.
  { intros e He.
    apply (list_elem_of_fmap_2 descriptor_of_entry) in He.
    rewrite Hperm, !elem_of_app, !list_elem_of_fmap in He.
    destruct He as [(e5 & Heq & He5)|[Hreg|(pending & Heq & Hin)]].
    - left. by exists e5.
    - right. by left.
    - right. right. unfold queued in Hin.
      apply list_elem_of_omap in Hin as (r' & Hr' & Hlook).
      exists r', pending. repeat split; try done.
      intros ->. done. }
  split; [apply createContentArea_empties|].
  split; [by apply disposed_inv_not_realized, createContentArea_disposed_inv|].
  split; [by apply length_queued; destruct Hwf5|].
  split; [done|]. split; [done|]. split.
  - intros Hno5 Hnoreg Hnoq e He Hi.
    destruct (Horigin e He)
      as [(e5 & He5 & Heq)|[Hreg|(r' & pending & Hr' & _ & Hlook & Heq)]].
    + apply (Hno5 e5 He5). rewrite <- Hi.
      by apply (f_equal r_id) in Heq.
    + by apply (Hnoreg _ Hreg).
    + apply (Hnoq pending).
      * unfold queued. apply list_elem_of_omap. by exists r'.
      * rewrite <- Hi. by apply (f_equal r_id) in Heq.
  - intros He5. apply children_are_elements_createContentArea; [done|].
    by destruct (part_run_empty_view ops3 p4 (λ _, Hv4) He5).
Qed.

End disposed_pending.

(** * Further properties of the marker widget *)

Lemma split_lines_not_nil s : split_lines s ≠ [].
Proof.
  intros Hs. pose proof (length_split_lines s) as Hl. by rewrite Hs in Hl.
Qed.

Lemma not_elem_of_chars_empty c : c ∉ chars EmptyString.
Proof. apply not_elem_of_nil. Qed.

Lemma split_lines_no_terminator s line c :
  line ∈ split_lines s → c ∈ chars line → c ≠ CR ∧ c ≠ LF.
Proof.
  assert (∀ n s, (String.length s ≤ n)%nat →
                 ∀ line, line ∈ split_lines s →
                         c ∈ chars line → c ≠ CR ∧ c ≠ LF) as Hn.
  { clear s line. induction n as [|n IH]; intros s Hs line.
    - destruct s; [|simpl in Hs; lia]. simpl.
      intros ->%list_elem_of_singleton Hc. by apply not_elem_of_chars_empty in Hc.
    - destruct s as [|c0 s].
      { simpl. intros ->%list_elem_of_singleton Hc.
        by apply not_elem_of_chars_empty in Hc. }
      simpl in Hs. cbn [split_lines].
      assert (∀ s', (String.length s' ≤ n)%nat →
                line ∈ EmptyString :: split_lines s' →
                c ∈ chars line → c ≠ CR ∧ c ≠ LF) as Hcut.
      { intros s' Hs' [->|Hin]%elem_of_cons Hc;
          [by apply not_elem_of_chars_empty in Hc|by eapply IH]. }
      destruct (decide (c0 = CR)).
      + destruct s as [|c' s]; [apply (Hcut EmptyString); simpl; lia|].
        simpl in Hs.
        destruct (decide (c' = LF)); apply Hcut; simpl; lia.
      + destruct (decide (c0 = LF)); [apply Hcut; lia|].
        specialize (IH s ltac:(lia)).
        destruct (split_lines s) as [|line0 lines].
        * intros ->%list_elem_of_singleton. unfold chars. simpl.
          intros [->|Hc]%elem_of_cons;
            [done|by apply not_elem_of_chars_empty in Hc].
        * intros [->|Hin]%elem_of_cons.
          -- unfold chars. simpl. intros [->|Hc]%elem_of_cons; [done|].
             apply (IH line0); [by left|done].
          -- apply IH. by right. }
  by apply (Hn (String.length s)).
Qed.

Lemma join_lines_split_lines s : CR ∉ chars s → join_lines (split_lines s) = s.
Proof.
  unfold join_lines, chars. induction s as [|c s IH]; [done|]. simpl.
  intros [Hc Hs]%not_elem_of_cons. specialize (IH Hs).
  rewrite decide_False by done.
  pose proof (split_lines_not_nil s) as Hne.
  destruct (decide (c = LF)) as [->|Hlf].
  - destruct (split_lines s) as [|line lines]; [done|].
    cbn [String.concat]. cbn [String.concat] in IH. by rewrite IH.
  - destruct (split_lines s) as [|line lines]; [done|].
    destruct lines as [|line' lines]; cbn [String.concat] in IH |- *;
      by rewrite <- IH.
Qed.

Lemma longest_line (lines : list string) (acc : Z) :
  let longest :=
    foldl (λ longest line, Z.max (Z.of_nat (String.length line)) longest)
          acc lines in
  acc ≤ longest
  ∧ (∀ line, line ∈ lines → Z.of_nat (String.length line) ≤ longest)
  ∧ (longest = acc
     ∨ ∃ line, line ∈ lines ∧ longest = Z.of_nat (String.length line)).
Proof.
  revert acc. induction lines as [|l lines IH]; intros acc; simpl.
  - split; [lia|]. split; [|by left]. intros line Hl. by apply elem_of_nil in Hl.
  - destruct (IH (Z.max (Z.of_nat (String.length l)) acc)) as (Hle & Hall & Hex).
    split; [lia|]. split.
    + intros line [->|Hin]%elem_of_cons; [lia|by apply Hall].
    + destruct Hex as [Heq|(line & Hin & Heq)].
      * destruct (Z.max_spec (Z.of_nat (String.length l)) acc) as [[_ Hm]|[_ Hm]].
        -- left. lia.
        -- right. exists l. split; [by left|lia].
      * right. exists line. split; [by right|done].
Qed.

(** X16.  The lines into which [update] cuts the message of a marker: there
    is at least one; no line holds a carriage return or a line feed; when the
    message holds no carriage return, joining the lines with line feeds gives
    the message back; and the longest line length that [update] stores is the
    length of one of the lines and no line is longer. *)
Theorem message_is_cut_at_its_line_terminators (marker : IMarker)
    (w : MessageWidget) :
  let lines := split_lines (message marker) in
  let w' := MessageWidget_update marker w in
  lines ≠ []
  ∧ (∀ line c, line ∈ lines → c ∈ chars line → c ≠ CR ∧ c ≠ LF)
  ∧ (CR ∉ chars (message marker) → join_lines lines = message marker)
  ∧ (∀ line, line ∈ lines →
             Z.of_nat (String.length line) ≤ _longestLineLength w')
  ∧ (∃ line, line ∈ lines
             ∧ _longestLineLength w' = Z.of_nat (String.length line)).
Proof.
  intros lines w'.
  split; [apply split_lines_not_nil|].
  split; [intros line c; apply split_lines_no_terminator|].
  split; [apply join_lines_split_lines|].
  destruct (longest_line lines 0) as (_ & Hall & Hex).
  split; [exact Hall|].
  destruct Hex as [Hzero|Hex]; [|exact Hex].
  pose proof (split_lines_not_nil (message marker)) as Hne. fold lines in Hne.
  destruct lines as [|line lines'] eqn:Hl; [done|].
  exists line. split; [by left|].
  change (_longestLineLength w')
    with (foldl (λ longest line, Z.max (Z.of_nat (String.length line)) longest)
                0 (split_lines (message marker))).
  fold lines. rewrite Hl.
  specialize (Hall line ltac:(by left)). simpl in Hzero, Hall |- *. lia.
Qed.

Lemma numberOfMessageLines_pos marker : 1 ≤ numberOfMessageLines marker.
Proof.
  unfold numberOfMessageLines.
  destruct (relatedInformation marker) as [[|r rs]|]; lia.
Qed.

Lemma computeRequiredHeight_updateMarker marker w :
  computeRequiredHeight (updateMarker marker w)
  = 3 + Z.min 17 (numberOfMessageLines marker).
Proof.
  unfold computeRequiredHeight, getHeightInLines.
  cbn -[MessageWidget_update Z.min Z.add]. by rewrite lines_of_update.
Qed.

(** X17.  [showAtMarker] returns normally and shows the zone, at the
    position it reveals, with three lines more than the message lines of the
    marker (counted up to seventeen), which is between 4 and 20 lines, and
    the widget is not stale.  [updateMarker] with another marker changes the
    height the widget asks for but leaves the zone where it is and as high as
    it is; [showStale] marks the widget as stale, keeps the message, and
    gives the zone, at the same position, the height for the latest
    marker. *)
Theorem zone_is_resized_only_by_relayout (marker1 marker2 : IMarker)
    (markerIdx markerCount : Z) (editor : ICodeEditor)
    (w : MarkerNavigationWidget) :
  ∃ w1 position,
    showAtMarker marker1 markerIdx markerCount editor w = Ok w1
    ∧ shown w1 = Some (position, 3 + Z.min 17 (numberOfMessageLines marker1))
    ∧ revealed w1 = Some position
    ∧ stale w1 = false
    ∧ 4 ≤ computeRequiredHeight w1 ≤ 20
    ∧ let w2 := updateMarker marker2 w1 in
      shown w2 = shown w1
      ∧ stale w2 = false
      ∧ computeRequiredHeight w2 = 3 + Z.min 17 (numberOfMessageLines marker2)
      ∧ let w3 := showStale w2 in
        shown w3
        = Some (position, 3 + Z.min 17 (numberOfMessageLines marker2))
        ∧ stale w3 = true
        ∧ _message w3 = _message w2.
Proof.
  eexists _, _. split; [reflexivity|].
  pose proof (numberOfMessageLines_pos marker1) as H1.
  assert (∀ w0, computeRequiredHeight
                  {| _message := MessageWidget_update marker1 (_message w);
                     _severity := severity marker1; stale := false;
                     shown := shown w0; title := title w0;
                     revealed := revealed w0; focused := focused w0 |}
                = 3 + Z.min 17 (numberOfMessageLines marker1)) as Hh.
  { intros w0. unfold computeRequiredHeight, getHeightInLines.
    cbn -[MessageWidget_update Z.min Z.add]. by rewrite lines_of_update. }
  cbn -[MessageWidget_update Z.min Z.add computeRequiredHeight updateMarker
        showStale].
  rewrite Hh.
  split; [reflexivity|]. split; [reflexivity|]. split; [reflexivity|].
  split.
  { unfold computeRequiredHeight, getHeightInLines.
    cbn -[MessageWidget_update Z.min Z.add]. rewrite lines_of_update. lia. }
  split; [reflexivity|]. split; [reflexivity|].
  split; [apply computeRequiredHeight_updateMarker|].
  unfold showStale, super_relayout.
  cbn -[MessageWidget_update Z.min Z.add computeRequiredHeight].
  split; [|done]. f_equal. f_equal.
  unfold computeRequiredHeight, getHeightInLines.
  cbn -[MessageWidget_update Z.min Z.add]. by rewrite lines_of_update.
Qed.

Lemma containsPosition_start marker :
  valid_range marker →
  containsPosition marker {| lineNumber := startLineNumber marker;
                             column := startColumn marker |} = true.
Proof.
  intros Hv. unfold containsPosition, valid_range in *. simpl.
  repeat case_decide; try done; lia.
Qed.

(** X18.  For a marker whose range does not end before it starts,
    [showAtMarker] shows the widget at a position inside the range of the
    marker and reveals that position: the position of the editor if that one
    lies inside the range, the start of the range otherwise. *)
Theorem widget_is_shown_inside_the_marker (marker : IMarker)
    (markerIdx markerCount : Z) (editor : ICodeEditor)
    (w : MarkerNavigationWidget) :
  valid_range marker →
  ∃ w' position height,
    showAtMarker marker markerIdx markerCount editor w = Ok w'
    ∧ shown w' = Some (position, height)
    ∧ revealed w' = Some position
    ∧ containsPosition marker position = true
    ∧ (∀ editorPosition,
         editor_position editor = Some editorPosition →
         containsPosition marker editorPosition = true →
         position = editorPosition)
    ∧ (∀ editorPosition,
         editor_position editor = Some editorPosition →
         containsPosition marker editorPosition = false →
         position = {| lineNumber := startLineNumber marker;
                       column := startColumn marker |})
    ∧ (editor_position editor = None →
       position = {| lineNumber := startLineNumber marker;
                     column := startColumn marker |}).
Proof.
  intros Hv. eexists _, _, _. split; [reflexivity|].
  cbn -[MessageWidget_update Z.min Z.add computeRequiredHeight containsPosition].
  split; [reflexivity|]. split; [reflexivity|].
  destruct (editor_position editor) as [pos|] eqn:Hpos.
  - destruct (containsPosition marker pos) eqn:Hc.
    + split; [done|]. split; [by intros ? [= <-] _|].
      split; [|done]. intros ? [= <-] Hc'. congruence.
    + split; [by apply containsPosition_start|].
      split; [intros ? [= <-] Hc'; congruence|]. split; [|done].
      by intros ? [= <-] _.
  - split; [by apply containsPosition_start|].
    split; [by intros ? [=]|]. split; [by intros ? [=]|done].
Qed.

(** * The model at work *)

Import Sample.

Example ties_keep_insertion_order :
  e_container
    <$> getEntries LEFT
          (vm_run [OpAdd (left_entry 1 "a" 1); OpAdd (right_entry 2 "b" 9);
                   OpAdd (left_entry 3 "c" 5); OpAdd (left_entry 4 "d" 5);
                   OpAdd (left_entry 5 "e" 7); OpDispose (left_entry 5 "e" 7);
                   OpAdd (left_entry 6 "f" 5)]
                  (new_StatusbarViewModel no_storage blank))
  = [3; 4; 6; 1]%nat.
Proof. vm_compute. reflexivity. Qed.

Example reconciliation_of_A_B_with_B_C :
  hidden hidden_A_B = ["A"; "B"]
  ∧ let vm := set_storageService (saved ["B"; "C"]) hidden_A_B in
    let vm' := onDidStorageChange the_event vm in
    hidden vm' = ["B"; "C"]
    ∧ new_calls vm vm' = [DomShow 1; DomHide 3]
    ∧ display_none (dom vm) = {[1; 2]}%nat
    ∧ display_none (dom vm') = {[2; 3]}%nat.
Proof. vm_compute. repeat split; apply (bool_decide_unpack _); vm_compute; exact I. Qed.

Lemma storage_change_updates_changed_ids_witness :
  let vm := set_storageService (saved ["B"; "C"]) hidden_A_B in
  let vm' := onDidStorageChange the_event vm in
  storage_get HIDDEN_ENTRIES_KEY GLOBAL (storageService vm)
  = Some (Codec.stringify_array ["B"; "C"])
  ∧ Codec.stringify_array ["B"; "C"] ≠ EmptyString
  ∧ JSON_parse (Codec.stringify_array ["B"; "C"]) = Some ["B"; "C"]
  ∧ (∀ i, i ∈ hidden vm ↔ i = "A" ∨ i = "B")
  ∧ (∀ i, isHidden i vm' = true ↔ i = "B" ∨ i = "C")
  ∧ new_calls vm vm'
    ≡ₚ (DomShow ∘ e_container <$> filter (λ e, e_id e = "A") (entries vm))
       ++ (DomHide ∘ e_container <$> filter (λ e, e_id e = "C") (entries vm)).
Proof.
  intros vm vm'.
  assert (storage_get HIDDEN_ENTRIES_KEY GLOBAL (storageService vm)
          = Some (Codec.stringify_array ["B"; "C"])) as H1
    by (vm_compute; reflexivity).
  assert (Codec.stringify_array ["B"; "C"] ≠ EmptyString) as H2
    by discriminate.
  assert (JSON_parse (Codec.stringify_array ["B"; "C"]) = Some ["B"; "C"])
    as H3 by (vm_compute; reflexivity).
  assert (∀ i, i ∈ hidden vm ↔ i = "A" ∨ i = "B") as H4.
  { intros i. assert (hidden vm = ["A"; "B"]) as -> by (vm_compute; reflexivity).
    rewrite !elem_of_cons, elem_of_nil. tauto. }
  assert (∀ i : string, i ∈ ["B"; "C"] ↔ i = "B" ∨ i = "C") as H5.
  { intros i. rewrite !elem_of_cons, elem_of_nil. tauto. }
  pose proof (storage_change_updates_changed_ids (H := Codec.json) vm) as Ht.
  cbv zeta in Ht. destruct Ht as (_ & _ & _ & _ & _ & _ & Hs).
  destruct (Hs "A" "B" "C" _ _ ltac:(discriminate) ltac:(discriminate)
              ltac:(discriminate) H4 H1 H2 H3 H5) as [Ha Hb].
  exact (conj H1 (conj H2 (conj H3 (conj H4 (conj Ha Hb))))).
Defined.

Example saving_the_empty_set :
  Codec.stringify_array [] = "[]"
  ∧ let vm := show "a" hidden_a in
    hidden vm = []
    ∧ storage_get HIDDEN_ENTRIES_KEY GLOBAL (storageService vm) = None
    ∧ writes (storageService vm) = [RemoveCall HIDDEN_ENTRIES_KEY GLOBAL].
Proof. vm_compute. done. Qed.

(** C2.  A view model in which two entries share the identifier [x]: the
    context menu offers two toggle actions for [x], not one. *)
Theorem context_menu_repeats_shared_identifier :
  toggle_ids (getContextMenuActions [] two_x) = ["x"; "x"]
  ∧ ¬ NoDup (toggle_ids (getContextMenuActions [] two_x)).
Proof.
  assert (toggle_ids (getContextMenuActions [] two_x) = ["x"; "x"]) as ->
    by (vm_compute; reflexivity).
  split; [done|]. rewrite NoDup_cons, list_elem_of_singleton. by intros [? _].
Qed.

(** C3, as stated, fails for an identifier that is hidden already: [hide]
    does nothing, [show] makes the entry visible and takes the identifier out
    of the storage. *)
Lemma hide_then_show_of_hidden_id_shows :
  let vm := hidden_a in
  let vm' := show "a" (hide "a" vm) in
  isHidden "a" vm = true
  ∧ displayed (dom vm) 1 = false
  ∧ displayed (dom vm') 1 = true
  ∧ storage_get HIDDEN_ENTRIES_KEY GLOBAL (storageService vm)
    = Some (Codec.stringify_array ["a"])
  ∧ storage_get HIDDEN_ENTRIES_KEY GLOBAL (storageService vm') = None
  ∧ ¬ hide_show_restores vm "a".
Proof.
  repeat (split; [vm_compute; reflexivity|]).
  intros [_ Hstorage]. vm_compute in Hstorage. discriminate.
Qed.

Lemma show_reveals_every_entry_of_id_witness :
  left_entry 1 "x" 0 ∈ entries two_x
  ∧ e_id (left_entry 1 "x" 0) = "x"
  ∧ left_entry 1 "x" 0 ∈ entries (show "x" (hide "x" two_x))
  ∧ displayed (dom (show "x" (hide "x" two_x)))
              (e_container (left_entry 1 "x" 0)) = true
  ∧ displayed (dom (show "x" (hide "x" two_x)))
              (e_container (left_entry 2 "x" 5)) = true
  ∧ isHidden "x" (show "x" (hide "x" two_x)) = false.
Proof.
  assert (left_entry 1 "x" 0 ∈ entries two_x) as H1
    by (apply (bool_decide_unpack _); vm_compute; exact I).
  assert (left_entry 2 "x" 5 ∈ entries two_x) as H2
    by (apply (bool_decide_unpack _); vm_compute; exact I).
  destruct (show_reveals_every_entry_of_id two_x "x" _ H1 eq_refl)
    as (Ha & Hb & Hc).
  destruct (show_reveals_every_entry_of_id two_x "x" _ H2 eq_refl)
    as (_ & Hb2 & _).
  exact (conj H1 (conj eq_refl (conj Ha (conj Hb (conj Hb2 Hc))))).
Defined.

Lemma hide_then_show_restores_witness :
  isHidden "x" shown_x = false
  ∧ visibility_invariant shown_x
  ∧ storage_in_sync shown_x
  ∧ hidden (show "x" (hide "x" shown_x)) = hidden shown_x
  ∧ display_none (dom (show "x" (hide "x" shown_x))) = display_none (dom shown_x)
  ∧ global_store (storageService (show "x" (hide "x" shown_x)))
    = global_store (storageService shown_x)
  ∧ hide_show_restores shown_x "x".
Proof.
  assert (isHidden "x" shown_x = false) as H1 by (vm_compute; reflexivity).
  assert (visibility_invariant shown_x) as H2
    by (apply (bool_decide_unpack _); vm_compute; exact I).
  assert (storage_in_sync shown_x) as H3 by (vm_compute; reflexivity).
  destruct (hide_then_show_restores shown_x "x" H1 H2 H3)
    as (Hh & _ & Hd & Hg & _ & Hr).
  exact (conj H1 (conj H2 (conj H3 (conj Hh (conj Hd (conj Hg Hr)))))).
Defined.

(** Two entries are added before the container exists; the accessor of the
    first one is disposed of; the container is created. *)
Example only_the_other_entry_is_realized :
  let p := part_run [PAddEntry (some_entry "a") "a" "A" LEFT 0;
                     PAddEntry (some_entry "b") "b" "B" LEFT 0;
                     PDispose (PendingAccessor 0);
                     PCreateContentArea 100 []]
                    (new_StatusbarPart no_storage blank) in
  entries (viewModel p)
  = [{| e_ref := 2; e_id := "b"; e_name := "B"; e_alignment := LEFT;
        e_priority := 0; e_container := 2 |}]
  ∧ pendingEntries p = []
  ∧ match objects p !! 0%nat with
    | Some pending => p_accessor pending
    | None => None
    end = None
  ∧ match objects p !! 1%nat with
    | Some pending => p_accessor pending
    | None => None
    end = Some (EntryAccessor
                  {| e_ref := 2; e_id := "b"; e_name := "B";
                     e_alignment := LEFT; e_priority := 0;
                     e_container := 2 |}).
Proof. vm_compute. repeat split; reflexivity. Qed.

Lemma disposed_pending_entry_is_never_realized_witness :
  let p1 := part_run [PAddEntry (some_entry "b") "b" "B" LEFT 0]
                     (new_StatusbarPart no_storage blank) in
  let accessor := (addEntry (some_entry "a") "a" "A" RIGHT 3 p1).1 in
  let p2 := (addEntry (some_entry "a") "a" "A" RIGHT 3 p1).2 in
  let p3 := part_run [PUpdate (PendingAccessor 1) (some_entry "a2")] p2 in
  let p4 := accessor_dispose accessor p3 in
  element p1 = None ∧ element p3 = None
  ∧ ∃ pendingEntry,
      accessor = PendingAccessor pendingEntry
      ∧ pendingEntry ∈ pendingEntries p2
      ∧ (viewModel p2 = viewModel p1 ∧ children p2 = children p1
         ∧ items p2 = items p1)
      ∧ pendingEntry ∉ pendingEntries p4
      ∧ (viewModel p4 = viewModel p3 ∧ children p4 = children p3
         ∧ items p4 = items p3)
      ∧ empty_view p4
      ∧ ∀ ops3,
          let p5 := part_run ops3 p4 in
          pendingEntry ∉ pendingEntries p5
          ∧ ¬ realized pendingEntry p5
          ∧ (element p5 = None → empty_view p5)
          ∧ ∀ parent registry_items,
              let p6 := createContentArea parent registry_items p5 in
              pendingEntries p6 = []
              ∧ ¬ realized pendingEntry p6
              ∧ length (queued p5) = length (pendingEntries p5)
              ∧ descriptor_of_entry <$> entries (viewModel p6)
                ≡ₚ (descriptor_of_entry <$> entries (viewModel p5))
                   ++ registry_items ++ (descriptor_of_pending <$> queued p5)
              ∧ (∀ e, e ∈ entries (viewModel p6) →
                   (∃ e5, e5 ∈ entries (viewModel p5)
                          ∧ descriptor_of_entry e5 = descriptor_of_entry e)
                   ∨ descriptor_of_entry e ∈ registry_items
                   ∨ ∃ r pending,
                       r ∈ pendingEntries p5 ∧ r ≠ pendingEntry
                       ∧ objects p5 !! r = Some pending
                       ∧ descriptor_of_pending pending = descriptor_of_entry e)
              ∧ ((∀ e5, e5 ∈ entries (viewModel p5) → e_id e5 ≠ "a") →
                 (∀ item, item ∈ registry_items → r_id item ≠ "a") →
                 (∀ pending, pending ∈ queued p5 → p_id pending ≠ "a") →
                 ∀ e, e ∈ entries (viewModel p6) → e_id e ≠ "a")
              ∧ (element p5 = None → children_are_elements p6).
Proof.
  intros p1 accessor p2 p3 p4.
  assert (element p1 = None) as H1 by (vm_compute; reflexivity).
  assert (element p3 = None) as H3 by (vm_compute; reflexivity).
  exact (conj H1 (conj H3
           (disposed_pending_entry_is_never_realized (H := Codec.json)
              no_storage blank [PAddEntry (some_entry "b") "b" "B" LEFT 0]
              [PUpdate (PendingAccessor 1) (some_entry "a2")]
              (some_entry "a") "a" "A" RIGHT 3 H1 H3))).
Defined.

Example heights :
  computeRequiredHeight new_MarkerNavigationWidget = 3
  ∧ computeRequiredHeight
      (updateMarker (marker_of "one line" None) new_MarkerNavigationWidget) = 4
  ∧ computeRequiredHeight
      (updateMarker (marker_of (lines_of_x 19) None) new_MarkerNavigationWidget)
    = 20
  ∧ computeRequiredHeight
      (updateMarker
         (marker_of "one line"
            (Some [{| rel_resource := "file.ts"; rel_message := "see here";
                      rel_startLineNumber := 3; rel_startColumn := 1 |}]))
         new_MarkerNavigationWidget) = 6
  ∧ length (split_lines (String "a" (String CR (String LF "b")))) = 2%nat.
Proof. vm_compute. done. Qed.


(** The codec of this development meets the two conditions: a session that
    starts on what the former session saved has its hidden set. *)
Lemma restart_with_the_codec (vm : StatusbarViewModel) (d : Dom) :
  NoDup (hidden vm) →
  hidden (new_StatusbarViewModel (storageService (saveState vm)) d) = hidden vm.
Proof.
  intros Hnd.
  by destruct (restoreState_saveState (H := Codec.json) parse_stringify
                 (λ l, ltac:(done)) vm d Hnd) as [? _].
Qed.

(** ** The further properties at work *)

Lemma unreadable_storage_hides_nothing_witness :
  unreadable unparsable
  ∧ hidden (new_StatusbarViewModel unparsable blank) = []
  ∧ hidden (onDidStorageChange the_event
              (set_storageService unparsable hidden_A_B)) = [].
Proof.
  assert (unreadable unparsable) as H1 by (vm_compute; right; reflexivity).
  pose proof (unreadable_storage_hides_nothing (H := Codec.json)
                unparsable blank hidden_A_B H1) as Ht.
  cbv zeta in Ht. destruct Ht as (Ha & Hb & _).
  exact (conj H1 (conj Ha Hb)).
Defined.

Lemma hidden_set_survives_restart_witness :
  (∀ l : list string, JSON_parse (JSON_stringify l) = Some l)
  ∧ (∀ l : list string, JSON_stringify l ≠ EmptyString)
  ∧ hidden (new_StatusbarViewModel (storageService (saveState shown_x)) blank)
    = hidden shown_x.
Proof.
  assert (∀ l : list string, JSON_stringify l ≠ EmptyString) as H2
    by (intros l; discriminate).
  pose proof (hidden_set_survives_restart (H := Codec.json) no_storage blank
                blank
                [OpAdd (left_entry 1 "x" 0); OpAdd (left_entry 2 "y" 0);
                 OpHide "y"]
                parse_stringify H2) as Ht.
  cbv zeta in Ht. destruct Ht as (_ & Hh & _).
  exact (conj parse_stringify (conj H2 Hh)).
Defined.

Lemma add_then_dispose_restores_witness :
  let vm := vm_run [OpAdd (left_entry 1 "x" 0)]
                   (new_StatusbarViewModel no_storage blank) in
  let entry := left_entry 2 "y" 5 in
  (∀ e, e ∈ entries vm → e_container e ≠ e_container entry)
  ∧ findEntry 2 (add entry vm) = Some entry
  ∧ entries (remove entry (add entry vm)) = entries vm.
Proof.
  intros vm entry.
  assert (∀ e, e ∈ entries vm → e_container e ≠ e_container entry) as H1.
  { intros e He. vm_compute in He. apply list_elem_of_singleton in He.
    rewrite He. vm_compute. discriminate. }
  pose proof (add_then_dispose_restores (H := Codec.json) no_storage blank
                [OpAdd (left_entry 1 "x" 0)] entry H1) as Ht.
  destruct Ht as (Ha & Hb & _).
  exact (conj H1 (conj Ha Hb)).
Defined.

Lemma toggle_action_flips_its_identifier_witness :
  ToggleStatusbarEntryVisibilityAction "y" "y" false
    ∈ getContextMenuActions [] shown_x
  ∧ isHidden "y" (ToggleStatusbarEntryVisibilityAction_run "y" shown_x) = false
  ∧ ToggleStatusbarEntryVisibilityAction "y" "y" true
      ∈ getContextMenuActions []
          (ToggleStatusbarEntryVisibilityAction_run "y" shown_x).
Proof.
  assert (ToggleStatusbarEntryVisibilityAction "y" "y" false
            ∈ getContextMenuActions [] shown_x) as H1
    by (apply (bool_decide_unpack _); vm_compute; exact I).
  pose proof (toggle_action_flips_its_identifier (H := Codec.json)
                [] shown_x "y" "y" false H1) as Ht.
  cbv zeta in Ht. destruct Ht as (_ & Hb & _ & _ & He).
  exact (conj H1 (conj Hb He)).
Defined.

Lemma visibility_follows_the_hidden_set_witness :
  let ops := [OpAdd (left_entry 1 "x" 0); OpAdd (right_entry 2 "y" 0);
              OpHide "y"; OpAdd (left_entry 3 "y" 2)] in
  let vm := vm_run ops (new_StatusbarViewModel no_storage blank) in
  NoDup (added_containers ops)
  ∧ ∀ e, e ∈ entries vm →
         displayed (dom vm) (e_container e) = negb (isHidden (e_id e) vm).
Proof.
  intros ops vm.
  assert (NoDup (added_containers ops)) as H1
    by (apply (bool_decide_unpack _); vm_compute; exact I).
  exact (conj H1 (visibility_follows_the_hidden_set (H := Codec.json)
                    no_storage blank ops H1)).
Defined.

Lemma edge_classes_mark_first_and_last_visible_witness :
  let ops := [OpAdd (left_entry 1 "x" 0); OpAdd (left_entry 2 "y" 7);
              OpHide "y"; OpAdd (left_entry 3 "z" 2)] in
  let vm := vm_run ops (new_StatusbarViewModel no_storage blank) in
  NoDup (added_containers ops)
  ∧ ∀ e, e ∈ entries vm →
      (e_container e ∈ first_visible_item (dom vm)
       ↔ head (visible_entries (e_alignment e) vm) = Some e)
      ∧ (e_container e ∈ last_visible_item (dom vm)
         ↔ last (visible_entries (e_alignment e) vm) = Some e).
Proof.
  intros ops vm.
  assert (NoDup (added_containers ops)) as H1
    by (apply (bool_decide_unpack _); vm_compute; exact I).
  exact (conj H1 (edge_classes_mark_first_and_last_visible (H := Codec.json)
                    no_storage blank ops H1)).
Defined.

Lemma pending_accessor_forwards_to_the_realized_entry_witness :
  let p := part_run [PAddEntry (some_entry "a") "a" "A" LEFT 0]
                    (new_StatusbarPart no_storage blank) in
  let p3 := createContentArea 100 []
              (accessor_update (PendingAccessor 0) (some_entry "a2") p) in
  element p = None
  ∧ 0%nat ∈ pendingEntries p
  ∧ ∃ pending viewModelEntry,
      objects p !! 0%nat = Some pending
      ∧ realized_as 0 viewModelEntry (some_entry "a2") p3.
Proof.
  intros p p3.
  assert (element p = None) as H1 by (vm_compute; reflexivity).
  assert (0%nat ∈ pendingEntries p) as H2
    by (apply (bool_decide_unpack _); vm_compute; exact I).
  destruct (pending_accessor_forwards_to_the_realized_entry (H := Codec.json)
              no_storage blank [PAddEntry (some_entry "a") "a" "A" LEFT 0]
              0%nat (some_entry "a2") 100%nat [] H1 H2)
    as (pending & ve & Hp & _ & Hr & _).
  exact (conj H1 (conj H2 (ex_intro _ pending (ex_intro _ ve (conj Hp Hr))))).
Defined.

Lemma left_elements_stand_in_the_order_of_the_view_model_witness :
  let ops2 := [PAddEntry (some_entry "b") "b" "B" LEFT 5;
               PUpdateEntryVisibility "a" false;
               PAddEntry (some_entry "c") "c" "C" RIGHT 1] in
  let p := part_run ops2
             (createContentArea 100 []
                (part_run [PAddEntry (some_entry "a") "a" "A" LEFT 0]
                          (new_StatusbarPart no_storage blank))) in
  forallb disposes_nothing ops2 = true
  ∧ filter (λ c, c ∈ e_container <$> getEntries LEFT (viewModel p)) (children p)
    = e_container <$> getEntries LEFT (viewModel p).
Proof.
  intros ops2 p.
  exact (conj eq_refl
           (left_elements_stand_in_the_order_of_the_view_model
              (H := Codec.json) no_storage blank
              [PAddEntry (some_entry "a") "a" "A" LEFT 0] ops2 100%nat []
              eq_refl)).
Defined.

Lemma widget_is_shown_inside_the_marker_witness :
  valid_range (marker_of "message" None)
  ∧ editor_position editor_on_line_7 = Some {| lineNumber := 7; column := 1 |}
  ∧ containsPosition (marker_of "message" None)
                     {| lineNumber := 7; column := 1 |} = false
  ∧ ∃ w' position height,
      showAtMarker (marker_of "message" None) 1 3 editor_on_line_7
                   new_MarkerNavigationWidget = Ok w'
      ∧ shown w' = Some (position, height)
      ∧ containsPosition (marker_of "message" None) position = true
      ∧ position = {| lineNumber := 1; column := 1 |}.
Proof.
  assert (valid_range (marker_of "message" None)) as H1
    by (right; split; [reflexivity|vm_compute; discriminate]).
  assert (containsPosition (marker_of "message" None)
                           {| lineNumber := 7; column := 1 |} = false) as H2
    by (vm_compute; reflexivity).
  destruct (widget_is_shown_inside_the_marker (marker_of "message" None) 1 3
              editor_on_line_7 new_MarkerNavigationWidget H1)
    as (w' & position & height & Hs & Hshown & _ & Hc & _ & Hout & _).
  exact (conj H1 (conj eq_refl (conj H2
           (ex_intro _ w' (ex_intro _ position (ex_intro _ height
              (conj Hs (conj Hshown (conj Hc (Hout _ eq_refl H2)))))))))).
Defined.
